(** * Storybook glue layers: Next.js app-router provider and core-server presets

    A shallow embedding of
      - [code/frameworks/nextjs/src/routing/app-router-provider.tsx]
      - [code/lib/core-server/src/presets/common-preset.ts]
    followed by the properties stated about them. *)

From Stdlib Require Import String Ascii List Arith Lia Wellfounded.
From stdpp Require Import base option list strings gmap fin_maps.
From Equations Require Import Equations.
Import ListNotations.
Local Open Scope string_scope.
Local Open Scope list_scope.

Set Warnings "-register-all".

(* ===================================================================== *)
(** ** JavaScript preliminaries *)
(* ===================================================================== *)

Module JS.

(** Truthiness of a JS string: only the empty string is falsy. *)
Definition truthy (s : string) : bool :=
  match s with
  | EmptyString => false
  | String _ _ => true
  end.

(** [String.prototype.startsWith]. *)
Fixpoint startsWith (s search : string) : bool :=
  match search, s with
  | EmptyString, _ => true
  | String _ _, EmptyString => false
  | String a search', String b s' =>
      if Ascii.eqb a b then startsWith s' search' else false
  end.

(** [String.prototype.split] with a one-character separator. *)
Fixpoint split (sep : ascii) (s : string) : list string :=
  match s with
  | EmptyString => [EmptyString]
  | String c rest =>
      if Ascii.eqb c sep then EmptyString :: split sep rest
      else match split sep rest with
           | [] => [String c EmptyString]
           | piece :: pieces => String c piece :: pieces
           end
  end.

(** [Array.prototype.join]. *)
Fixpoint join (sep : string) (parts : list string) : string :=
  match parts with
  | [] => EmptyString
  | [p] => p
  | p :: rest => p +:+ sep +:+ join sep rest
  end.

(** Upper-casing of the ASCII letters, the part of
    [String.prototype.toUpperCase] that is fixed on 7-bit strings. *)
Definition asciiUpperChar (c : ascii) : ascii :=
  let n := nat_of_ascii c in
  if Nat.leb 97 n && Nat.leb n 122 then ascii_of_nat (n - 32) else c.

Fixpoint asciiUpper (s : string) : string :=
  match s with
  | EmptyString => EmptyString
  | String c rest => String (asciiUpperChar c) (asciiUpper rest)
  end.

Fixpoint isAscii (s : string) : bool :=
  match s with
  | EmptyString => true
  | String c rest => Nat.ltb (nat_of_ascii c) 128 && isAscii rest
  end.

(** The values a configuration field can hold, as far as the presets look
    at them; anything else is kept by an opaque tag. *)
Inductive Value :=
| VUndefined
| VBool (b : bool)
| VString (s : string)
| VOpaque (tag : nat).

(** What a [throw] carries: an [Error] instance with its message, or any
    other value, kept through its [String(e)] rendering. *)
Inductive Thrown :=
| ErrorObject (message : string)
| OtherValue (rendering : string).

Inductive Result (A : Type) :=
| Ok (a : A)
| Throw (e : Thrown).
Arguments Ok {A} a.
Arguments Throw {A} e.

(** Arrays live in a store and are handed around by reference. *)
Definition loc := nat.
Abbreviation Store := (gmap loc (list string)).

(** The elements of the array at [r].  Every reference the code holds is
    allocated; one that is not reads as the empty array. *)
Definition contents (σ : Store) (r : loc) : list string :=
  default [] (σ !! r).

(** [Array.prototype.shift]: removes the first element in place and
    returns it; [undefined] (here [None]) on an empty array. *)
Definition shift (r : loc) (σ : Store) : option string * Store :=
  match σ !! r with
  | Some (x :: rest) => (Some x, <[r := rest]> σ)
  | _ => (None, σ)
  end.

(** An array literal or a spread copy [[...a]]: a new array, at a
    reference no other array has. *)
Definition alloc (elements : list string) (σ : Store) : loc * Store :=
  let r := fresh (dom σ) in (r, <[r := elements]> σ).

End JS.

(* ===================================================================== *)
(** ** Effects of the server-side code: a trace of calls, and exceptions *)
(* ===================================================================== *)

(** [WhatsNewResponse], [WhatsNewCache] and [WhatsNewData]. *)
Record WhatsNewResponse := {
  title : string;
  url : string;
  blogUrl : option string;
  publishedAt : string;
  excerpt : string;
}.

Record WhatsNewCache := {
  lastDismissedPost : option string;
  lastReadPost : option string;
}.

Inductive WhatsNewData :=
| WhatsNewSuccess (post : WhatsNewResponse) (postIsRead showNotification : bool)
    (disableWhatsNewNotifications : JS.Value)
| WhatsNewError.

(** The calls that leave the process, in the order they are made. *)
Inductive Event :=
| LoggerVerbose (message : string)
| LoggerWarn (message : string)
| PresetsApply (name : string)
| EmitResultWhatsNewData (data : WhatsNewData)
| CacheSet (key : string) (value : WhatsNewCache)
| FsWriteFile (path content : string)
| Telemetry (eventType : string) (disableWhatsNewNotifications : bool)
| SendTelemetryError (error : JS.Thrown) (eventType : string).

(** A computation appends to the trace and returns or throws. *)
Definition Eff (A : Type) : Type := list Event → JS.Result A * list Event.

Definition eff_ret {A} (a : A) : Eff A := λ tr, (JS.Ok a, tr).

Definition eff_bind {A B} (f : A → Eff B) (m : Eff A) : Eff B :=
  λ tr, match m tr with
        | (JS.Ok a, tr') => f a tr'
        | (JS.Throw e, tr') => (JS.Throw e, tr')
        end.

#[local] Instance eff_mret : MRet Eff := @eff_ret.
#[local] Instance eff_mbind : MBind Eff := @eff_bind.

Definition throw {A} (e : JS.Thrown) : Eff A := λ tr, (JS.Throw e, tr).

(** [try { body } catch (e) { handler }]. *)
Definition try_catch {A} (body : Eff A) (handler : JS.Thrown → Eff A) : Eff A :=
  λ tr, match body tr with
        | (JS.Ok a, tr') => (JS.Ok a, tr')
        | (JS.Throw e, tr') => handler e tr'
        end.

Definition call (ev : Event) : Eff unit := λ tr, (JS.Ok tt, tr ++ [ev]).

(** A traced call whose outcome the outer world decides. *)
Definition external {A} (ev : Event) (outcome : JS.Result A) : Eff A :=
  λ tr, (outcome, tr ++ [ev]).

(** The outcome of a call that is not traced. *)
Definition settle {A} (outcome : JS.Result A) : Eff A := λ tr, (outcome, tr).

Definition run {A} (m : Eff A) : JS.Result A * list Event := m [].

(** [invariant(condition, message)] of tiny-invariant. *)
Definition invariant (condition : bool) (message : option string) : Eff unit :=
  if condition then mret tt
  else throw (JS.ErrorObject
                (match message with
                 | Some m => "Invariant failed: " +:+ m
                 | None => "Invariant failed"
                 end)).

(** [e instanceof Error ? e.message : String(e)]. *)
Definition messageOrString (e : JS.Thrown) : string :=
  match e with
  | JS.ErrorObject message => message
  | JS.OtherValue rendering => rendering
  end.

Definition instanceofError (e : JS.Thrown) : bool :=
  match e with
  | JS.ErrorObject _ => true
  | JS.OtherValue _ => false
  end.

(* ===================================================================== *)
(** ** app-router-provider.tsx *)
(* ===================================================================== *)

(** [Segment = string | [string, string, DynamicParamTypesShort]]. *)
Inductive Segment :=
| SegString (s : string)
| SegDynamic (name value type : string).

(** [FlightRouterState = [segment, parallelRoutes, ...]].  The value
    [[] as any] that [getParallelRoutes] returns at the end of the list is
    the constructor [FRSEmpty]; the parallel routes are listed in the
    order in which [Object.values] gives them. *)
Inductive FlightRouterState :=
| FRSEmpty
| FRS (segment : Segment) (parallelRoutes : list (string * FlightRouterState)).

Definition inspect {A} (a : A) : {b | a = b} := exist _ a eq_refl.

(** [getParallelRoutes]: the argument is the reference to the array, which
    [shift] consumes in place; the final store is returned with the tree.
    The recursion is the source's own: a call on the same reference after
    one [shift]. *)
Equations? getParallelRoutes (segmentsList : JS.loc) (σ : JS.Store)
  : FlightRouterState * JS.Store
  by wf (length (JS.contents σ segmentsList)) lt :=
getParallelRoutes segmentsList σ with inspect (JS.shift segmentsList σ) := {
  | exist _ (Some segment, σ1) Hshift with JS.truthy segment := {
      | true =>
          let result := getParallelRoutes segmentsList σ1 in
          (FRS (SegString segment) [("children", result.1)], result.2)
      | false => (FRSEmpty, σ1) };
  | exist _ (None, σ1) _ => (FRSEmpty, σ1) }.
Proof.
  clear getParallelRoutes. revert Hshift. unfold JS.shift, JS.contents.
  destruct (σ !! segmentsList) as [[|first rest]|]; intros [= _ <-].
  rewrite lookup_insert_eq. simpl. lia.
Qed.

(** The tree as a function of the array's elements: one node per segment
    up to the first falsy one, each under the [children] property of the
    one before. *)
Fixpoint routesOf (segments : list string) : FlightRouterState :=
  match segments with
  | [] => FRSEmpty
  | segment :: rest =>
      if JS.truthy segment
      then FRS (SegString segment) [("children", routesOf rest)]
      else FRSEmpty
  end.

(** A recursive call of [getParallelRoutes]: started on the store [σ], the
    body shifts a truthy segment off the array and calls itself on the
    store [σ1] that [shift] left behind. *)
Definition recursive_call (segmentsList : JS.loc) (σ1 σ : JS.Store) : Prop :=
  ∃ segment, JS.shift segmentsList σ = (Some segment, σ1)
             ∧ JS.truthy segment = true.

(** The same function with the depth of the call stack bounded: [None]
    when [depth] nested calls were not enough. *)
Fixpoint getParallelRoutes_bounded (depth : nat) (segmentsList : JS.loc) (σ : JS.Store)
  : option (FlightRouterState * JS.Store) :=
  match depth with
  | O => None
  | S depth' =>
      match JS.shift segmentsList σ with
      | (Some segment, σ1) =>
          if JS.truthy segment then
            match getParallelRoutes_bounded depth' segmentsList σ1 with
            | Some result =>
                Some (FRS (SegString segment) [("children", result.1)], result.2)
            | None => None
            end
          else Some (FRSEmpty, σ1)
      | (None, σ1) => Some (FRSEmpty, σ1)
      end
  end.

(** The segments met from the root down to the leaf through the property
    [slot] of each parallel-routes object. *)
Fixpoint segmentsAlong (slot : string) (tree : FlightRouterState) : list Segment :=
  match tree with
  | FRSEmpty => []
  | FRS segment parallelRoutes =>
      segment ::
      (fix find (routes : list (string * FlightRouterState)) : list Segment :=
         match routes with
         | [] => []
         | (key, child) :: routes' =>
             if String.eqb key slot then segmentsAlong slot child else find routes'
         end) parallelRoutes
  end.

(** The longest prefix of truthy (non-empty) segments, and what is left of
    the array behind that prefix and the segment that ended it. *)
Fixpoint truthyPrefix (segments : list string) : list string :=
  match segments with
  | [] => []
  | s :: rest => if JS.truthy s then s :: truthyPrefix rest else []
  end.

Fixpoint leftover (segments : list string) : list string :=
  match segments with
  | [] => []
  | s :: rest => if JS.truthy s then leftover rest else rest
  end.

(** Parameter values: a string, or the array of a catch-all. *)
Inductive ParamValue :=
| PString (s : string)
| PArray (parts : list string).

Abbreviation Params := (gmap string ParamValue).

Definition segmentValueOf (segment : Segment) : string :=
  match segment with
  | SegDynamic _ value _ => value
  | SegString s => s
  end.

Definition isCatchAllType (type : string) : bool :=
  String.eqb type "c" || String.eqb type "oc".

(** The two assignments [params[segment[0]] = ...] of the loop body.
    [params] is a plain object and [Params] holds its own properties.  The
    assignment creates or overwrites the own property of that name, with
    one exception: on an object without an own property [__proto__], the
    name [__proto__] reaches the setter that [Object.prototype] has for it,
    which changes the prototype of [params] (to the array of a catch-all;
    a string is ignored) and creates no property. *)
Definition assignParam (segment : Segment) (params : Params) : Params :=
  match segment with
  | SegDynamic name value type =>
      let assigned :=
        if isCatchAllType type then PArray (JS.split "/" value)
        else PString value in
      if String.eqb name "__proto__" then
        match params !! name with
        | Some _ => <[name := assigned]> params
        | None => params
        end
      else <[name := assigned]> params
  | SegString _ => params
  end.

(** The assignments of a list of segments, in turn. *)
Definition assignedParams (segs : list Segment) (params : Params) : Params :=
  foldl (λ acc segment, assignParam segment acc) params segs.

Section AppRouter.

(** [PAGE_SEGMENT_KEY] is imported from [next/dist/shared/lib/segment]. *)
Variable PAGE_SEGMENT_KEY : string.

(** The [continue] test of the loop body. *)
Definition skipped (segment : Segment) : bool :=
  negb (JS.truthy (segmentValueOf segment))
  || JS.startsWith (segmentValueOf segment) PAGE_SEGMENT_KEY.

(** [getSelectedParams].  On [[]] the read [currentTree[1]] is [undefined]
    and [Object.values] throws a [TypeError]; inside the loop,
    [parallelRoute[0]] of [[]] is [undefined], which is falsy. *)
Fixpoint getSelectedParams (currentTree : FlightRouterState) (params : Params)
  : JS.Result Params :=
  match currentTree with
  | FRSEmpty =>
      JS.Throw (JS.ErrorObject "Cannot convert undefined or null to object")
  | FRS _ parallelRoutes =>
      (fix loop (values : list (string * FlightRouterState)) (params : Params)
         : JS.Result Params :=
         match values with
         | [] => JS.Ok params
         | (_, parallelRoute) :: values' =>
             match parallelRoute with
             | FRSEmpty => loop values' params
             | FRS segment _ =>
                 if skipped segment then loop values' params
                 else
                   match getSelectedParams parallelRoute (assignParam segment params) with
                   | JS.Ok params' => loop values' params'
                   | JS.Throw e => JS.Throw e
                   end
             end
         end) parallelRoutes params
  end.

(** The props the provider reads.  [segments] is handed to
    [getParallelRoutes], whose parameter is declared [Array<string>]. *)
Record RouteParams := {
  pathname : string;
  query : list (string * string);
  segments : option JS.loc;
}.

(** What the provider computes before it renders its contexts. *)
Record RouterContexts := {
  tree : FlightRouterState;
  pathParams : Params;
  nextUrl : string;
}.

(** [AppRouterProvider], up to the JSX: the default [segments = []], the
    copy [[...segments]], the tree and the memoised path parameters. *)
Definition AppRouterProvider (routeParams : RouteParams) (σ : JS.Store)
  : JS.Result RouterContexts * JS.Store :=
  let '(segmentsRef, σ0) :=
    match segments routeParams with
    | Some r => (r, σ)
    | None => JS.alloc [] σ
    end in
  let '(copy, σ1) := JS.alloc (JS.contents σ0 segmentsRef) σ0 in
  let '(routes, σ2) := getParallelRoutes copy σ1 in
  let tree := FRS (SegString (pathname routeParams)) [("children", routes)] in
  match getSelectedParams tree ∅ with
  | JS.Ok pathParams =>
      (JS.Ok {| tree := tree; pathParams := pathParams;
                nextUrl := pathname routeParams |}, σ2)
  | JS.Throw e => (JS.Throw e, σ2)
  end.

(** The elements of the [segments] prop when the provider starts. *)
Definition providedSegments (routeParams : RouteParams) (σ : JS.Store) : list string :=
  match segments routeParams with
  | Some r => JS.contents σ r
  | None => []
  end.

(** *** The two readings of "the dynamic-route parameters of the tree" *)

(** The parameter a segment stands for, name by name: none for a string
    segment, for an empty value and for a value that starts with the page
    key. *)
Definition paramOf (segment : Segment) : option (string * ParamValue) :=
  match segment with
  | SegString _ => None
  | SegDynamic name value type =>
      if skipped segment then None
      else Some (name, if isCatchAllType type then PArray (JS.split "/" value)
                       else PString value)
  end.

(** Every segment that sits in a parallel-route slot, at any depth, in the
    order of the slots. *)
Fixpoint slotSegments (tree : FlightRouterState) : list Segment :=
  match tree with
  | FRSEmpty => []
  | FRS _ parallelRoutes =>
      (fix each (routes : list (string * FlightRouterState)) : list Segment :=
         match routes with
         | [] => []
         | (_, child) :: routes' =>
             match child with
             | FRSEmpty => each routes'
             | FRS segment _ => segment :: slotSegments child ++ each routes'
             end
         end) parallelRoutes
  end.

(** The segments the loop reaches: as [slotSegments], but nothing below a
    skipped segment. *)
Fixpoint walkedSegments (tree : FlightRouterState) : list Segment :=
  match tree with
  | FRSEmpty => []
  | FRS _ parallelRoutes =>
      (fix each (routes : list (string * FlightRouterState)) : list Segment :=
         match routes with
         | [] => []
         | (_, child) :: routes' =>
             match child with
             | FRSEmpty => each routes'
             | FRS segment _ =>
                 if skipped segment then each routes'
                 else segment :: walkedSegments child ++ each routes'
             end
         end) parallelRoutes
  end.

(** The same reach, told by the paths of the tree: a segment is reached
    when every segment above it, the root apart, passed the [continue]
    test, and so did the segment itself. *)
Inductive Reached : FlightRouterState → Segment → Prop :=
| reached_slot root routes slot segment below :
    (slot, FRS segment below) ∈ routes →
    skipped segment = false →
    Reached (FRS root routes) segment
| reached_below root routes slot segment below deeper :
    (slot, FRS segment below) ∈ routes →
    skipped segment = false →
    Reached (FRS segment below) deeper →
    Reached (FRS root routes) deeper.

(** The parameters object a list of segments yields, later segments
    overwriting earlier ones of the same name. *)
Definition paramsOfSegments (segs : list Segment) (params : Params) : Params :=
  foldl (λ acc segment,
           match paramOf segment with
           | Some (name, value) => <[name := value]> acc
           | None => acc
           end) params segs.

End AppRouter.

(** The value of [PAGE_SEGMENT_KEY] in Next.js. *)
Definition NEXT_PAGE_SEGMENT_KEY : string := "__PAGE__".

(** A tree with a dynamic segment below an optional catch-all whose value
    is empty. *)
Definition treeWithEmptyCatchAll : FlightRouterState :=
  FRS (SegString "")
    [("children",
      FRS (SegDynamic "slug" "" "oc")
        [("children", FRS (SegDynamic "id" "5" "d") [])])].

(* ===================================================================== *)
(** ** common-preset.ts *)
(* ===================================================================== *)

(** An entry of the [staticDirs] option: a path, or [{ from, to }]. *)
Inductive StaticDirEntry :=
| DirPath (dir : string)
| DirObject (from to : string).

(** What [parseStaticDir] resolves a directory to. *)
Record ParsedStaticDir := {
  staticDir : string;
  staticPath : string;
  targetDir : string;
  targetEndpoint : string;
}.

(** The part of [Options] the presets below read. *)
Record Options := {
  configDir : string;
  disableTelemetry : option bool;
  test : option bool;
  enableCrashReports : option bool;
}.

(** What [favicon] reaches outside its arguments: the preset pipeline, the
    path helpers and the file system.  The three calls the code awaits,
    [presets.apply('staticDirs')], [parseStaticDir] and [pathExists],
    settle as the host decides: each fulfils with a value or rejects.
    [settledAt i] is the time at which the [i]-th callback of the parallel
    [map] settles. *)
Record FaviconHost := {
  appliedStaticDirs : JS.Result (option (list StaticDirEntry));
  cwd : string;
  isAbsolute : string → bool;
  getDirectoryFromWorkingDir : string → string → string → string;
  parseStaticDir : string → JS.Result ParsedStaticDir;
  pathJoin : string → string → string;
  pathExists : string → JS.Result bool;
  settledAt : nat → nat;
}.

(** [Promise.all]: the rejection of the promise that rejects first, with
    the time at which it does, the earlier promise winning a tie; none
    when every promise fulfils.  [i] is the index of the first promise of
    the list. *)
Fixpoint firstRejection {A} (settledAt : nat → nat) (i : nat)
    (outcomes : list (JS.Result A)) : option (nat * JS.Thrown) :=
  match outcomes with
  | [] => None
  | JS.Ok _ :: rest => firstRejection settledAt (S i) rest
  | JS.Throw e :: rest =>
      match firstRejection settledAt (S i) rest with
      | Some (time, e') =>
          if Nat.ltb time (settledAt i) then Some (time, e')
          else Some (settledAt i, e)
      | None => Some (settledAt i, e)
      end
  end.

(** The values of the promises that fulfil, in the order of the promises. *)
Fixpoint fulfilled {A} (outcomes : list (JS.Result A)) : list A :=
  match outcomes with
  | [] => []
  | JS.Ok a :: rest => a :: fulfilled rest
  | JS.Throw _ :: rest => fulfilled rest
  end.

Definition promiseAll {A} (settledAt : nat → nat) (outcomes : list (JS.Result A))
  : JS.Result (list A) :=
  match firstRejection settledAt 0 outcomes with
  | Some (_, e) => JS.Throw e
  | None => JS.Ok (fulfilled outcomes)
  end.

Definition newline : string := String (ascii_of_nat 10) EmptyString.

(** The text of the [dedent] template handed to [logger.warn]. *)
Definition multipleFaviconsWarning (flatlist : list string) : string :=
  "Looks like multiple favicons were detected. Using the first one."
  +:+ newline +:+ newline +:+ JS.join ", " flatlist.

(** Truthiness of a [string | undefined]. *)
Definition truthyString (value : option string) : bool :=
  match value with
  | Some s => JS.truthy s
  | None => false
  end.

Section CommonPreset.

(** [defaultStaticDirs] comes from [../utils/constants], [defaultFavicon]
    from [require.resolve]. *)
Variable defaultStaticDirs : list StaticDirEntry.
Variable defaultFavicon : string.

(** [String.prototype.toUpperCase]. *)
Variable toUpperCase : string → string.

(** [staticDirs]: [async (values = []) => [...defaultStaticDirs, ...values]]. *)
Definition staticDirs (values : option (list StaticDirEntry)) : list StaticDirEntry :=
  let values := match values with Some vs => vs | None => [] end in
  defaultStaticDirs ++ values.

(** The callback of [statics.map], for one directory: the two probes push
    onto [results] in turn.  It is an [async] function: what it awaits
    rejecting, it rejects, and does not go on. *)
Definition faviconsOfDir (host : FaviconHost) (options : Options)
    (staticDirsValue : option (list StaticDirEntry)) (dir : string)
  : JS.Result (list string) :=
  let results := [] in
  let normalizedDir :=
    if (match staticDirsValue with Some _ => true | None => false end)
       && negb (isAbsolute host dir)
    then getDirectoryFromWorkingDir host (configDir options) (cwd host) dir
    else dir in
  match parseStaticDir host normalizedDir with
  | JS.Throw e => JS.Throw e
  | JS.Ok parsed =>
      match
        (if String.eqb (targetEndpoint parsed) "/" then
           let path := pathJoin host (staticPath parsed) "favicon.svg" in
           match pathExists host path with
           | JS.Throw e => JS.Throw e
           | JS.Ok present => JS.Ok (if present then results ++ [path] else results)
           end
         else JS.Ok results)
      with
      | JS.Throw e => JS.Throw e
      | JS.Ok results =>
          if String.eqb (targetEndpoint parsed) "/" then
            let path := pathJoin host (staticPath parsed) "favicon.ico" in
            match pathExists host path with
            | JS.Throw e => JS.Throw e
            | JS.Ok present => JS.Ok (if present then results ++ [path] else results)
            end
          else JS.Ok results
      end
  end.

(** [favicon], from the call into the preset pipeline on: the part after
    the early return.  Nothing is caught: a rejection of the pipeline or
    of [Promise.all] is the rejection of [favicon].  The probes of the
    parallel [map] only read; the trace keeps the call into the pipeline
    and the warning. *)
Definition faviconFromStaticDirs (host : FaviconHost) (options : Options) : Eff string :=
  staticDirsValue ← external (PresetsApply "staticDirs") (appliedStaticDirs host);
  let statics :=
    match staticDirsValue with
    | Some dirs =>
        map (λ dir, match dir with
                    | DirPath s => s
                    | DirObject from to => from +:+ ":" +:+ to
                    end) dirs
    | None => []
    end in
  if Nat.ltb 0 (length statics) then
    lists ← settle (promiseAll (settledAt host)
                      (map (faviconsOfDir host options staticDirsValue) statics));
    let flatlist := fold_left (λ l1 l2, l1 ++ l2) lists [] in
    (if Nat.ltb 1 (length flatlist)
     then call (LoggerWarn (multipleFaviconsWarning flatlist))
     else mret tt);;
    mret (match flatlist with
          | first :: _ => if JS.truthy first then first else defaultFavicon
          | [] => defaultFavicon
          end)
  else mret defaultFavicon.

(** [favicon]: [if (value) return value;] and then the above. *)
Definition favicon (host : FaviconHost) (value : option string) (options : Options)
  : Eff string :=
  match value with
  | Some v => if JS.truthy v then mret v else faviconFromStaticDirs host options
  | None => faviconFromStaticDirs host options
  end.

Definition staticDirName (entry : StaticDirEntry) : string :=
  match entry with
  | DirPath s => s
  | DirObject from to => from +:+ ":" +:+ to
  end.

(** The static dirs the pipeline hands over, none when it hands over
    nothing or rejects. *)
Definition staticDirsOf (host : FaviconHost) : list StaticDirEntry :=
  match appliedStaticDirs host with
  | JS.Ok (Some dirs) => dirs
  | _ => []
  end.

(** What a static dir of the list is parsed from. *)
Definition normalizedDirOf (host : FaviconHost) (options : Options) (dir : string)
  : string :=
  if isAbsolute host dir then dir
  else getDirectoryFromWorkingDir host (configDir options) (cwd host) dir.

(** The candidates of a directory served at the root, in probing order,
    and the favicons found: the candidates that exist, directory by
    directory. *)
Definition faviconCandidates (host : FaviconHost) (options : Options) (dir : string)
  : list string :=
  match parseStaticDir host (normalizedDirOf host options dir) with
  | JS.Ok parsed =>
      if String.eqb (targetEndpoint parsed) "/"
      then [pathJoin host (staticPath parsed) "favicon.svg";
            pathJoin host (staticPath parsed) "favicon.ico"]
      else []
  | JS.Throw _ => []
  end.

Definition found (host : FaviconHost) (path : string) : bool :=
  match pathExists host path with
  | JS.Ok true => true
  | _ => false
  end.

Definition collectedFavicons (host : FaviconHost) (options : Options) : list string :=
  flat_map (λ entry,
              filter (λ path, found host path = true)
                     (faviconCandidates host options (staticDirName entry)))
           (staticDirsOf host).

(** The rejection a directory brings about, if any: that of parsing it
    or, for a directory served at the root, that of the first probe that
    rejects. *)
Definition dirRejection (host : FaviconHost) (options : Options) (dir : string)
  : option JS.Thrown :=
  match parseStaticDir host (normalizedDirOf host options dir) with
  | JS.Throw e => Some e
  | JS.Ok parsed =>
      if String.eqb (targetEndpoint parsed) "/" then
        match pathExists host (pathJoin host (staticPath parsed) "favicon.svg") with
        | JS.Throw e => Some e
        | JS.Ok _ =>
            match pathExists host (pathJoin host (staticPath parsed) "favicon.ico") with
            | JS.Throw e => Some e
            | JS.Ok _ => None
            end
        end
      else None
  end.

(** What the callback of a directory settles to, in those terms. *)
Definition dirOutcome (host : FaviconHost) (options : Options) (dir : string)
  : JS.Result (list string) :=
  match dirRejection host options dir with
  | Some e => JS.Throw e
  | None =>
      JS.Ok (filter (λ path, found host path = true)
                    (faviconCandidates host options dir))
  end.

(** [optionalEnvToBoolean]. *)
Definition optionalEnvToBoolean (input : option string) : option bool :=
  match input with
  | None => None
  | Some input =>
      if String.eqb (toUpperCase input) "FALSE" then Some false
      else if String.eqb (toUpperCase input) "TRUE" then Some true
      else (* typeof input === 'string' *) Some true
  end.

(** [a || b] on [boolean | undefined]. *)
Definition orElse (a b : option bool) : option bool :=
  match a with
  | Some true => a
  | _ => b
  end.

Definition valueOfBool (b : option bool) : JS.Value :=
  match b with
  | Some b => JS.VBool b
  | None => JS.VUndefined
  end.

(** [core]: a [CoreConfig] is an object, here the map of its own
    properties; [processEnv] is [process.env]. *)
Definition core (processEnv : gmap string string)
    (existing : gmap string JS.Value) (options : Options) : gmap string JS.Value :=
  <["enableCrashReports" :=
      valueOfBool (orElse (enableCrashReports options)
                          (optionalEnvToBoolean (processEnv !! "STORYBOOK_ENABLE_CRASH_REPORTS")))]>
    (<["disableTelemetry" :=
         JS.VBool (bool_decide (disableTelemetry options = Some true)
                   || bool_decide (test options = Some true))]>
       existing).

End CommonPreset.

(** A host for the examples: every path is absolute, every directory is
    served at the root, and every file probed exists. *)
Definition hostWithBothFavicons : FaviconHost :=
  {| appliedStaticDirs := JS.Ok (Some [DirPath "/app/public"]);
     cwd := "/app";
     isAbsolute := λ _, true;
     getDirectoryFromWorkingDir := λ _ _ dir, dir;
     parseStaticDir := λ dir,
       JS.Ok {| staticDir := dir; staticPath := dir;
                targetDir := "/"; targetEndpoint := "/" |};
     pathJoin := λ dir file, dir +:+ "/" +:+ file;
     pathExists := λ _, JS.Ok true;
     settledAt := λ i, i |}.

(** The same host with a second static dir, which does not exist:
    parsing it rejects. *)
Definition hostWithMissingDir : FaviconHost :=
  {| appliedStaticDirs := JS.Ok (Some [DirPath "/app/public"; DirPath "/app/missing"]);
     cwd := "/app";
     isAbsolute := λ _, true;
     getDirectoryFromWorkingDir := λ _ _ dir, dir;
     parseStaticDir := λ dir,
       if String.eqb dir "/app/missing"
       then JS.Throw (JS.ErrorObject "Failed to load static files")
       else JS.Ok {| staticDir := dir; staticPath := dir;
                     targetDir := "/"; targetEndpoint := "/" |};
     pathJoin := λ dir file, dir +:+ "/" +:+ file;
     pathExists := λ _, JS.Ok true;
     settledAt := λ i, i |}.

Definition someOptions : Options :=
  {| configDir := ".storybook"; disableTelemetry := None;
     test := None; enableCrashReports := None |}.

(** *** The server channel *)

Definition WHATS_NEW_CACHE : string := "whats-new-cache".
Definition WHATS_NEW_URL : string := "https://storybook.js.org/whats-new/v1".

(** The [Response] of [fetch]: its [ok] flag and what [json()] settles to. *)
Record Response := {
  ok : bool;
  json : JS.Result WhatsNewResponse;
}.

(** What the handlers reach outside: the network, the main config file
    through csf-tools, the cache, the file system and telemetry.  Each
    field is the outcome of the call. *)
Record Host := {
  ConfigFile : Type;
  fetch : string → JS.Result Response;
  findConfigFile : string → string → option string;
  readConfig : string → JS.Result ConfigFile;
  getFieldValue : ConfigFile → list string → JS.Result JS.Value;
  setFieldValue : ConfigFile → list string → bool → JS.Result ConfigFile;
  printConfigCode : ConfigFile → JS.Result string;
  cacheGet : string → JS.Result (option WhatsNewCache);
  cacheSet : string → WhatsNewCache → JS.Result unit;
  writeFile : string → string → JS.Result unit;
  telemetry : string → bool → JS.Result unit;
  sendTelemetryError : JS.Thrown → string → JS.Result unit;
  appliedCore : gmap string JS.Value;
}.

(** The events of [@storybook/core-events] the presets listen to. *)
Inductive ChannelEvent :=
| SET_WHATS_NEW_CACHE (data : WhatsNewCache)
| REQUEST_WHATS_NEW_DATA
| TOGGLE_WHATS_NEW_NOTIFICATIONS (disableWhatsNewNotifications : bool)
| TELEMETRY_ERROR (error : JS.Thrown).

(** [String(e)]. *)
Definition renderThrown (e : JS.Thrown) : string :=
  match e with
  | JS.ErrorObject message => "Error: " +:+ message
  | JS.OtherValue rendering => rendering
  end.

Definition emptyCache : WhatsNewCache :=
  {| lastDismissedPost := None; lastReadPost := None |}.

(** [{ ...cache, ...data }] on the two optional fields. *)
Definition mergeCache (cache data : WhatsNewCache) : WhatsNewCache :=
  {| lastDismissedPost :=
       match lastDismissedPost data with Some p => Some p | None => lastDismissedPost cache end;
     lastReadPost :=
       match lastReadPost data with Some p => Some p | None => lastReadPost cache end |}.

(** [coreOptions.disableTelemetry !== true]. *)
Definition isTelemetryEnabled (coreOptions : gmap string JS.Value) : bool :=
  match coreOptions !! "disableTelemetry" with
  | Some (JS.VBool true) => false
  | _ => true
  end.

Definition onSetWhatsNewCache (host : Host) (data : WhatsNewCache) : Eff unit :=
  cache ← try_catch
             (cached ← settle (cacheGet host WHATS_NEW_CACHE);
              mret (default emptyCache cached))
             (λ e, call (LoggerVerbose (renderThrown e));; mret emptyCache);
  external (CacheSet WHATS_NEW_CACHE (mergeCache cache data))
           (cacheSet host WHATS_NEW_CACHE (mergeCache cache data)).

Definition onRequestWhatsNewData (host : Host) (options : Options) : Eff unit :=
  try_catch
    (post ← (response ← settle (fetch host WHATS_NEW_URL);
             if ok response then settle (json response)
             else throw (JS.OtherValue "[object Response]"));
     let configFileName := findConfigFile host "main" (configDir options) in
     (if truthyString configFileName then mret tt
      else throw (JS.ErrorObject
                    ("unable to find storybook main file in " +:+ configDir options)));;
     main ← settle (readConfig host (default "" configFileName));
     disableWhatsNewNotifications ←
       settle (getFieldValue host main ["core"; "disableWhatsNewNotifications"]);
     cached ← settle (cacheGet host WHATS_NEW_CACHE);
     let cache := default emptyCache cached in
     let data :=
       WhatsNewSuccess post
         (bool_decide (Some (url post) = lastReadPost cache))
         (bool_decide (Some (url post) ≠ lastDismissedPost cache)
          && bool_decide (Some (url post) ≠ lastReadPost cache))
         disableWhatsNewNotifications in
     call (EmitResultWhatsNewData data))
    (λ e,
       call (LoggerVerbose (messageOrString e));;
       call (EmitResultWhatsNewData WhatsNewError)).

Definition onToggleWhatsNewNotifications (host : Host) (options : Options)
    (coreOptions : gmap string JS.Value) (disableWhatsNewNotifications : bool) : Eff unit :=
  let isTelemetryEnabled := isTelemetryEnabled coreOptions in
  try_catch
    (let mainPath := findConfigFile host "main" (configDir options) in
     invariant (truthyString mainPath)
               (Some ("unable to find storybook main file in " +:+ configDir options));;
     main ← settle (readConfig host (default "" mainPath));
     main ← settle (setFieldValue host main ["core"; "disableWhatsNewNotifications"]
                                  disableWhatsNewNotifications);
     code ← settle (printConfigCode host main);
     external (FsWriteFile (default "" mainPath) code)
              (writeFile host (default "" mainPath) code);;
     if isTelemetryEnabled
     then external (Telemetry "core-config" disableWhatsNewNotifications)
                   (telemetry host "core-config" disableWhatsNewNotifications)
     else mret tt)
    (λ error,
       invariant (instanceofError error) None;;
       if isTelemetryEnabled
       then external (SendTelemetryError error "core-config")
                     (sendTelemetryError host error "core-config")
       else mret tt).

Definition onTelemetryError (host : Host) (coreOptions : gmap string JS.Value)
    (error : JS.Thrown) : Eff unit :=
  let isTelemetryEnabled := isTelemetryEnabled coreOptions in
  if isTelemetryEnabled
  then external (SendTelemetryError error "browser")
                (sendTelemetryError host error "browser")
  else mret tt.

(** [experimental_serverChannel]: applies the [core] preset once, then
    registers the handlers; the channel it returns is the map from an event
    to the handler that runs for it.  The handlers are the four this file
    registers: [initFileSearchChannel] and [initCreateNewStoryChannel],
    whose code is in other files, register theirs for other events and are
    left out. *)
Definition experimental_serverChannel (host : Host) (options : Options)
  : Eff (ChannelEvent → Eff unit) :=
  coreOptions ← external (PresetsApply "core") (JS.Ok (appliedCore host));
  mret (λ event,
          match event with
          | SET_WHATS_NEW_CACHE data => onSetWhatsNewCache host data
          | REQUEST_WHATS_NEW_DATA => onRequestWhatsNewData host options
          | TOGGLE_WHATS_NEW_NOTIFICATIONS disableWhatsNewNotifications =>
              onToggleWhatsNewNotifications host options coreOptions
                                            disableWhatsNewNotifications
          | TELEMETRY_ERROR error => onTelemetryError host coreOptions error
          end).

(** *** The steps of the [REQUEST_WHATS_NEW_DATA] handler, one by one *)

(** The post was fetched: the response was ok and its body parsed. *)
Definition Fetched (host : Host) (post : WhatsNewResponse) : Prop :=
  ∃ response,
    fetch host WHATS_NEW_URL = JS.Ok response
    ∧ ok response = true
    ∧ json response = JS.Ok post.

(** The main config file was found and read. *)
Definition MainConfigRead (host : Host) (options : Options) (main : ConfigFile host) : Prop :=
  ∃ configFileName,
    findConfigFile host "main" (configDir options) = Some configFileName
    ∧ configFileName ≠ ""
    ∧ readConfig host configFileName = JS.Ok main.

(** Every step succeeded, with the post, the field read from the main
    config and the cache ([{}] when the cache holds nothing). *)
Definition WhatsNewSteps (host : Host) (options : Options)
    (post : WhatsNewResponse) (disableWhatsNewNotifications : JS.Value)
    (cache : WhatsNewCache) : Prop :=
  Fetched host post
  ∧ ∃ main cached,
      MainConfigRead host options main
      ∧ getFieldValue host main ["core"; "disableWhatsNewNotifications"]
        = JS.Ok disableWhatsNewNotifications
      ∧ cacheGet host WHATS_NEW_CACHE = JS.Ok cached
      ∧ cache = default emptyCache cached.

(** The first step that fails, and what it throws. *)
Inductive WhatsNewFailure (host : Host) (options : Options) : JS.Thrown → Prop :=
| fetch_throws e :
    fetch host WHATS_NEW_URL = JS.Throw e →
    WhatsNewFailure host options e
| response_not_ok response :
    fetch host WHATS_NEW_URL = JS.Ok response →
    ok response = false →
    WhatsNewFailure host options (JS.OtherValue "[object Response]")
| json_throws response e :
    fetch host WHATS_NEW_URL = JS.Ok response →
    ok response = true →
    json response = JS.Throw e →
    WhatsNewFailure host options e
| main_config_not_found post :
    Fetched host post →
    truthyString (findConfigFile host "main" (configDir options)) = false →
    WhatsNewFailure host options
      (JS.ErrorObject ("unable to find storybook main file in " +:+ configDir options))
| readConfig_throws post configFileName e :
    Fetched host post →
    findConfigFile host "main" (configDir options) = Some configFileName →
    configFileName ≠ "" →
    readConfig host configFileName = JS.Throw e →
    WhatsNewFailure host options e
| getFieldValue_throws post main e :
    Fetched host post →
    MainConfigRead host options main →
    getFieldValue host main ["core"; "disableWhatsNewNotifications"] = JS.Throw e →
    WhatsNewFailure host options e
| cacheGet_throws post main disableWhatsNewNotifications e :
    Fetched host post →
    MainConfigRead host options main →
    getFieldValue host main ["core"; "disableWhatsNewNotifications"]
    = JS.Ok disableWhatsNewNotifications →
    cacheGet host WHATS_NEW_CACHE = JS.Throw e →
    WhatsNewFailure host options e.

(** Two hosts for the examples: one without network, one where every call
    succeeds; the main config is kept as the value of its
    [core.disableWhatsNewNotifications] field. *)
Definition offlineHost (coreOptions : gmap string JS.Value) : Host :=
  {| ConfigFile := bool;
     fetch := λ _, JS.Throw (JS.ErrorObject "getaddrinfo ENOTFOUND storybook.js.org");
     findConfigFile := λ _ dir, Some (dir +:+ "/main.ts");
     readConfig := λ _, JS.Ok false;
     getFieldValue := λ main _, JS.Ok (JS.VBool main);
     setFieldValue := λ _ _ value, JS.Ok value;
     printConfigCode := λ main, JS.Ok (if main then "on" else "off");
     cacheGet := λ _, JS.Ok None;
     cacheSet := λ _ _, JS.Ok tt;
     writeFile := λ _ _, JS.Ok tt;
     telemetry := λ _ _, JS.Ok tt;
     sendTelemetryError := λ _ _, JS.Ok tt;
     appliedCore := coreOptions |}.

Definition latestPost : WhatsNewResponse :=
  {| title := "Storybook 8"; url := "https://storybook.js.org/blog/storybook-8";
     blogUrl := None; publishedAt := "2024-03-12"; excerpt := "" |}.

Definition onlineHost (coreOptions : gmap string JS.Value) : Host :=
  {| ConfigFile := bool;
     fetch := λ _, JS.Ok {| ok := true; json := JS.Ok latestPost |};
     findConfigFile := λ _ dir, Some (dir +:+ "/main.ts");
     readConfig := λ _, JS.Ok false;
     getFieldValue := λ main _, JS.Ok (JS.VBool main);
     setFieldValue := λ _ _ value, JS.Ok value;
     printConfigCode := λ main, JS.Ok (if main then "on" else "off");
     cacheGet := λ _, JS.Ok (Some {| lastDismissedPost := None;
                                     lastReadPost := Some (url latestPost) |});
     cacheSet := λ _ _, JS.Ok tt;
     writeFile := λ _ _, JS.Ok tt;
     telemetry := λ _ _, JS.Ok tt;
     sendTelemetryError := λ _ _, JS.Ok tt;
     appliedCore := coreOptions |}.

(** The calls that relay telemetry. *)
Definition isTelemetryCall (ev : Event) : bool :=
  match ev with
  | Telemetry _ _ | SendTelemetryError _ _ => true
  | _ => false
  end.

(** Unfolds the operations of [Eff]. *)
Ltac unfold_eff :=
  unfold run, mbind, eff_mbind, eff_bind, mret, eff_mret, eff_ret,
    try_catch, throw, call, external, settle, invariant in *.

(** A computation that adds no telemetry call to the trace. *)
Definition Quiet {A} (m : Eff A) : Prop :=
  ∀ trace,
    Forall (λ ev, isTelemetryCall ev = false) trace →
    Forall (λ ev, isTelemetryCall ev = false) (m trace).2.

(* ===================================================================== *)
(** ** Further definitions: the rest of the two files *)
(* ===================================================================== *)

(** *** app-router-provider.tsx *)

(** The character occurs in the string. *)
Fixpoint hasChar (c : ascii) (s : string) : bool :=
  match s with
  | EmptyString => false
  | String c' rest => Ascii.eqb c' c || hasChar c rest
  end.

(** *** Regular expressions without repetition *)

(** The patterns the presets use: literals, sequence, alternation and the
    optional [?]. *)
Inductive Regex :=
| RLit (s : string)
| RSeq (r1 r2 : Regex)
| RAlt (r1 r2 : Regex)
| ROpt (r : Regex).

(** What is left of [s] behind the prefix [lit], when [s] starts with it. *)
Fixpoint stripPrefix (lit s : string) : option string :=
  match lit, s with
  | EmptyString, _ => Some s
  | String _ _, EmptyString => None
  | String a lit', String b s' =>
      if Ascii.eqb a b then stripPrefix lit' s' else None
  end.

(** A backtracking matcher: [r] matches at the start of [s] and the
    continuation accepts what follows the match. *)
Fixpoint matchAt (r : Regex) (s : string) (k : string → bool) : bool :=
  match r with
  | RLit lit =>
      match stripPrefix lit s with
      | Some rest => k rest
      | None => false
      end
  | RSeq r1 r2 => matchAt r1 s (λ rest, matchAt r2 rest k)
  | RAlt r1 r2 => matchAt r1 s k || matchAt r2 s k
  | ROpt r' => matchAt r' s k || k s
  end.

Definition isEmptyString (s : string) : bool :=
  match s with
  | EmptyString => true
  | String _ _ => false
  end.

(** [RegExp.prototype.test]: a match starting at some position of the
    input; with [endAnchor] the pattern ends in [$] and the match has to
    reach the end of the input. *)
Fixpoint regexTest (r : Regex) (endAnchor : bool) (input : string) : bool :=
  matchAt r input (λ rest, if endAnchor then isEmptyString rest else true)
  || match input with
     | EmptyString => false
     | String _ input' => regexTest r endAnchor input'
     end.

(** The strings a pattern matches. *)
Fixpoint words (r : Regex) : list string :=
  match r with
  | RLit lit => [lit]
  | RSeq r1 r2 => flat_map (λ w1, map (λ w2, w1 +:+ w2) (words r2)) (words r1)
  | RAlt r1 r2 => words r1 ++ words r2
  | ROpt r' => words r' ++ [EmptyString]
  end.

(** *** common-preset.ts, continued *)

(** [/(stories|story)\.(m?js|ts)x?$/], the [test] of [csfIndexer]. *)
Definition csfIndexerPattern : Regex :=
  RSeq (RAlt (RLit "stories") (RLit "story"))
    (RSeq (RLit ".")
       (RSeq (RAlt (RSeq (ROpt (RLit "m")) (RLit "js")) (RLit "ts"))
          (ROpt (RLit "x")))).

Definition csfIndexerTest (fileName : string) : bool :=
  regexTest csfIndexerPattern true fileName.

(** [propFilter] of [typescript().reactDocgenTypescriptOptions]:
    [prop.parent ? !/node_modules/.test(prop.parent.fileName) : true];
    the argument is [prop.parent?.fileName]. *)
Definition propFilter (parentFileName : option string) : bool :=
  match parentFileName with
  | Some fileName => negb (regexTest (RLit "node_modules") false fileName)
  | None => true
  end.

Module Presets.

(** A [string | false]. *)
Inductive StringOrFalse :=
| IsString (s : string)
| IsFalse.

(** [title]: [previous || options.packageJson.name || false]; the second
    argument is [options.packageJson.name]. *)
Definition title (previous packageJsonName : option string) : StringOrFalse :=
  match previous with
  | Some p =>
      if JS.truthy p then IsString p
      else match packageJsonName with
           | Some n => if JS.truthy n then IsString n else IsFalse
           | None => IsFalse
           end
  | None =>
      match packageJsonName with
      | Some n => if JS.truthy n then IsString n else IsFalse
      | None => IsFalse
      end
  end.

(** [logLevel]: [previous || options.loglevel || 'info']; the second
    argument is [options.loglevel]. *)
Definition logLevel (previous loglevel : option string) : string :=
  match previous with
  | Some p =>
      if JS.truthy p then p
      else match loglevel with
           | Some l => if JS.truthy l then l else "info"
           | None => "info"
           end
  | None =>
      match loglevel with
      | Some l => if JS.truthy l then l else "info"
      | None => "info"
      end
  end.

(** The calls [removeAddon] makes. *)
Inductive ApiCall :=
| TelemetryRemove (addon source : string)
| RemoveAddonBase (id : string) (opts : JS.Value).

(** What they settle to. *)
Record ApiHost := {
  telemetryRemove : string → string → JS.Result unit;
  removeAddonBase : string → JS.Value → JS.Result unit;
}.

(** The [removeAddon] of [experimental_serverAPI]: the base function, behind
    a telemetry call unless [options.disableTelemetry] is truthy. *)
Definition removeAddon (host : ApiHost) (options : Options) (id : string)
    (opts : JS.Value) : JS.Result unit * list ApiCall :=
  match disableTelemetry options with
  | Some true => (removeAddonBase host id opts, [RemoveAddonBase id opts])
  | _ =>
      match telemetryRemove host id "api" with
      | JS.Ok _ =>
          (removeAddonBase host id opts,
           [TelemetryRemove id "api"; RemoveAddonBase id opts])
      | JS.Throw e => (JS.Throw e, [TelemetryRemove id "api"])
      end
  end.

(** An entry of the server API: a function of the extension, or the
    [removeAddon] above. *)
Inductive ApiEntry :=
| ExtensionFunction (tag : nat)
| RemoveAddonFunction.

(** [experimental_serverAPI]: [{ ...extension, removeAddon }]. *)
Definition experimental_serverAPI (extension : gmap string nat)
  : gmap string ApiEntry :=
  <["removeAddon" := RemoveAddonFunction]> (ExtensionFunction <$> extension).

(** [features]. *)
Definition features (existing : gmap string JS.Value) : gmap string JS.Value :=
  <["disallowImplicitActionsInRenderV8" := JS.VBool true]>
    (<["legacyDecoratorFileOrder" := JS.VBool false]>
       (<["argTypeTargetsV7" := JS.VBool true]> existing)).

(** [tags]: each tag maps to its options object. *)
Definition tags (existing : gmap string (gmap string JS.Value))
  : gmap string (gmap string JS.Value) :=
  <["test-only" := {[ "excludeFromSidebar" := JS.VBool true;
                      "excludeFromDocsStories" := JS.VBool true ]}]>
    (<["docs-only" := {[ "excludeFromSidebar" := JS.VBool true ]}]>
       (<["dev-only" := {[ "excludeFromDocsStories" := JS.VBool true ]}]> existing)).

(** [docs]: [docsOptions && docsMode !== undefined
    ? { ...docsOptions, docsMode } : docsOptions]. *)
Definition docs (docsOptions : option (gmap string JS.Value)) (docsMode : option bool)
  : option (gmap string JS.Value) :=
  match docsOptions, docsMode with
  | Some o, Some mode => Some (<["docsMode" := JS.VBool mode]> o)
  | _, _ => docsOptions
  end.

(** [resolvedReact]: [resolve] is [require.resolve], which throws when the
    package is not installed; the properties of the object literal are
    evaluated in order. *)
Definition resolvedReact (resolve : string → JS.Result string)
    (dirname : string → string) (existing : option (gmap string JS.Value))
  : option (gmap string JS.Value) :=
  match resolve "react/package.json" with
  | JS.Ok react =>
      match resolve "react-dom/package.json" with
      | JS.Ok reactDom =>
          Some (<["reactDom" := JS.VString (dirname reactDom)]>
                  (<["react" := JS.VString (dirname react)]>
                     (default ∅ existing)))
      | JS.Throw _ => existing
      end
  | JS.Throw _ => existing
  end.

End Presets.

(** A host whose main config cannot be parsed: [readConfig] rejects with a
    value that is not an [Error]. *)
Definition unparsableConfigHost (coreOptions : gmap string JS.Value) : Host :=
  {| ConfigFile := bool;
     fetch := λ _, JS.Throw (JS.ErrorObject "getaddrinfo ENOTFOUND storybook.js.org");
     findConfigFile := λ _ dir, Some (dir +:+ "/main.ts");
     readConfig := λ _, JS.Throw (JS.OtherValue "Unexpected token");
     getFieldValue := λ main _, JS.Ok (JS.VBool main);
     setFieldValue := λ _ _ value, JS.Ok value;
     printConfigCode := λ main, JS.Ok (if main then "on" else "off");
     cacheGet := λ _, JS.Ok None;
     cacheSet := λ _ _, JS.Ok tt;
     writeFile := λ _ _, JS.Ok tt;
     telemetry := λ _ _, JS.Ok tt;
     sendTelemetryError := λ _ _, JS.Ok tt;
     appliedCore := coreOptions |}.

(** The [catch] block of the [TOGGLE_WHATS_NEW_NOTIFICATIONS] handler, as
    it runs on the error caught after the calls in [trace]. *)
Definition toggleCatch (host : Host) (coreOptions : gmap string JS.Value)
    (error : JS.Thrown) (trace : list Event) : JS.Result unit * list Event :=
  if instanceofError error then
    if isTelemetryEnabled coreOptions
    then (sendTelemetryError host error "core-config",
          trace ++ [SendTelemetryError error "core-config"])
    else (JS.Ok tt, trace)
  else (JS.Throw (JS.ErrorObject "Invariant failed"), trace).

(** A host that reads [from:to] directories: the part behind the colon is
    the endpoint, ['/'] when there is none. *)
Definition hostWithEndpoints (dirs : list StaticDirEntry) : FaviconHost :=
  {| appliedStaticDirs := JS.Ok (Some dirs);
     cwd := "/app";
     isAbsolute := λ _, true;
     getDirectoryFromWorkingDir := λ _ _ dir, dir;
     parseStaticDir := λ dir,
       match JS.split ":" dir with
       | [from; to] =>
           JS.Ok {| staticDir := from; staticPath := from;
                    targetDir := to; targetEndpoint := to |}
       | _ =>
           JS.Ok {| staticDir := dir; staticPath := dir;
                    targetDir := "/"; targetEndpoint := "/" |}
       end;
     pathJoin := λ dir file, dir +:+ "/" +:+ file;
     pathExists := λ _, JS.Ok true;
     settledAt := λ i, i |}.

(** The host as it is when the pipeline hands over the static dirs
    without their first [n]: the callbacks of the remaining ones settle
    when they did. *)
Definition withoutFirstStaticDirs (n : nat) (host : FaviconHost) : FaviconHost :=
  {| appliedStaticDirs :=
       match appliedStaticDirs host with
       | JS.Ok (Some dirs) => JS.Ok (Some (drop n dirs))
       | other => other
       end;
     cwd := cwd host;
     isAbsolute := isAbsolute host;
     getDirectoryFromWorkingDir := getDirectoryFromWorkingDir host;
     parseStaticDir := parseStaticDir host;
     pathJoin := pathJoin host;
     pathExists := pathExists host;
     settledAt := λ i, settledAt host (n + i) |}.

(* ===================================================================== *)
(** * Properties *)
(* ===================================================================== *)

(** ** The builtins on concrete inputs *)

Example split_path : JS.split "/" "a/b/c" = ["a"; "b"; "c"].
Proof. reflexivity. Qed.

Example split_single : JS.split "/" "docs" = ["docs"].
Proof. reflexivity. Qed.

Example startsWith_page : JS.startsWith "__PAGE__?x=1" "__PAGE__" = true.
Proof. reflexivity. Qed.

Example asciiUpper_false : JS.asciiUpper "false" = "FALSE".
Proof. reflexivity. Qed.

(** ** getParallelRoutes *)

(** One unfolding of the recursion, for what [shift] returned. *)
Lemma getParallelRoutes_step r σ o σ1 :
  JS.shift r σ = (o, σ1) →
  getParallelRoutes r σ =
  match o with
  | Some segment =>
      if JS.truthy segment then
        (FRS (SegString segment) [("children", (getParallelRoutes r σ1).1)],
         (getParallelRoutes r σ1).2)
      else (FRSEmpty, σ1)
  | None => (FRSEmpty, σ1)
  end.
Proof.
  intros Hshift. simp getParallelRoutes. generalize (inspect (JS.shift r σ)).
  intros [[o' σ1'] E].
  assert (o' = o ∧ σ1' = σ1) as [-> ->] by (split; congruence).
  destruct o as [segment|]; simp getParallelRoutes; [|done].
  destruct (JS.truthy segment); simp getParallelRoutes; reflexivity.
Qed.

Lemma shift_lookup r σ l :
  σ !! r = Some l →
  JS.shift r σ = match l with
                 | [] => (None, σ)
                 | first :: rest => (Some first, <[r := rest]> σ)
                 end.
Proof. intros Hl. unfold JS.shift. by rewrite Hl. Qed.

(** The tree and the final store, from the elements of the array. *)
Lemma getParallelRoutes_contents r σ l :
  σ !! r = Some l →
  getParallelRoutes r σ = (routesOf l, <[r := leftover l]> σ).
Proof.
  revert σ. induction l as [|s rest IH]; intros σ Hl.
  - rewrite (getParallelRoutes_step r σ None σ) by by rewrite (shift_lookup r σ []).
    simpl. by rewrite insert_id.
  - rewrite (getParallelRoutes_step r σ (Some s) (<[r := rest]> σ))
      by by rewrite (shift_lookup r σ (s :: rest)).
    destruct (JS.truthy s) eqn:Hs; simpl; rewrite Hs; [|done].
    rewrite (IH (<[r := rest]> σ)) by apply lookup_insert_eq.
    simpl. by rewrite insert_insert_eq.
Qed.

(** A reference that holds no array behaves as the empty array. *)
Lemma getParallelRoutes_dangling r σ :
  σ !! r = None → getParallelRoutes r σ = (FRSEmpty, σ).
Proof.
  intros Hr. rewrite (getParallelRoutes_step r σ None σ); [done|].
  unfold JS.shift. by rewrite Hr.
Qed.

Lemma getParallelRoutes_tree r σ :
  (getParallelRoutes r σ).1 = routesOf (JS.contents σ r).
Proof.
  unfold JS.contents. destruct (σ !! r) as [l|] eqn:Hr; simpl.
  - by rewrite (getParallelRoutes_contents r σ l).
  - by rewrite getParallelRoutes_dangling.
Qed.

Lemma segmentsAlong_routesOf l :
  segmentsAlong "children" (routesOf l) = SegString <$> truthyPrefix l.
Proof.
  induction l as [|s rest IH]; [done|].
  simpl. destruct (JS.truthy s); [|done].
  simpl. by rewrite IH.
Qed.

Lemma truthy_nonempty s : JS.truthy s = true ↔ s ≠ "".
Proof. destruct s; simpl; split; congruence. Qed.

Lemma truthyPrefix_all l : Forall (λ s, s ≠ "") l → truthyPrefix l = l.
Proof.
  induction 1 as [|s rest Hs _ IH]; [done|].
  simpl. apply truthy_nonempty in Hs. by rewrite Hs, IH.
Qed.

Lemma truthyPrefix_prefix l : truthyPrefix l `prefix_of` l.
Proof.
  induction l as [|s rest IH]; [done|].
  simpl. destruct (JS.truthy s); [by apply prefix_cons|apply prefix_nil].
Qed.

(** ** getSelectedParams *)

(** Induction on a tree, with the hypothesis for every child in a slot. *)
Lemma FlightRouterState_slots_ind (P : FlightRouterState → Prop) :
  P FRSEmpty →
  (∀ segment routes, Forall (λ slot, P slot.2) routes → P (FRS segment routes)) →
  ∀ tree, P tree.
Proof.
  intros Hempty Hnode. fix IH 1. intros [|segment routes]; [exact Hempty|].
  apply Hnode. induction routes as [|[key child] routes IHroutes].
  - constructor.
  - constructor; [apply IH|exact IHroutes].
Qed.

Section AppRouterFacts.

Variable key : string.

Lemma paramsOfSegments_app segs1 segs2 params :
  paramsOfSegments key (segs1 ++ segs2) params
  = paramsOfSegments key segs2 (paramsOfSegments key segs1 params).
Proof. unfold paramsOfSegments. apply foldl_app. Qed.

Lemma assignedParams_app segs1 segs2 params :
  assignedParams (segs1 ++ segs2) params
  = assignedParams segs2 (assignedParams segs1 params).
Proof. unfold assignedParams. apply foldl_app. Qed.

(** The loop, on a node: it returns, and what it returns is the params
    after the assignments of the segments it reaches, in turn. *)
Lemma getSelectedParams_walked tree :
  ∀ segment routes params,
    tree = FRS segment routes →
    getSelectedParams key tree params
    = JS.Ok (assignedParams (walkedSegments key tree) params).
Proof.
  induction tree as [|segment0 routes0 IH] using FlightRouterState_slots_ind;
    intros segment routes params [= <- <-].
  simpl. revert params.
  induction IH as [|[slot child] routes' Hchild _ IHroutes]; intros params; [done|].
  destruct child as [|childSegment childRoutes]; [apply IHroutes|].
  destruct (skipped key childSegment) eqn:Hskip; [apply IHroutes|].
  rewrite (Hchild childSegment childRoutes _ eq_refl).
  rewrite IHroutes.
  change (childSegment :: ?a ++ ?b) with ([childSegment] ++ a ++ b).
  by rewrite !assignedParams_app.
Qed.

(** On the value [[]] itself the function throws. *)
Lemma getSelectedParams_empty_throws params :
  ∃ e, getSelectedParams key FRSEmpty params = JS.Throw e.
Proof. by eexists. Qed.

(** Every segment the loop reaches passed the [continue] test. *)
Lemma walkedSegments_not_skipped tree :
  Forall (λ segment, skipped key segment = false) (walkedSegments key tree).
Proof.
  induction tree as [|segment0 routes0 IH] using FlightRouterState_slots_ind;
    [constructor|].
  simpl. induction IH as [|[slot child] routes' Hchild _ IHroutes]; [constructor|].
  destruct child as [|childSegment childRoutes]; [apply IHroutes|].
  destruct (skipped key childSegment) eqn:Hskip; [apply IHroutes|].
  constructor; [done|]. apply Forall_app. split; [apply Hchild|apply IHroutes].
Qed.

(** The segments reached are segments of the tree's slots, in their order. *)
Lemma walkedSegments_sublist tree :
  walkedSegments key tree `sublist_of` slotSegments tree.
Proof.
  induction tree as [|segment0 routes0 IH] using FlightRouterState_slots_ind;
    [done|].
  simpl. induction IH as [|[slot child] routes' Hchild _ IHroutes]; [done|].
  destruct child as [|childSegment childRoutes]; [apply IHroutes|].
  destruct (skipped key childSegment) eqn:Hskip.
  - apply sublist_cons, sublist_inserts_l, IHroutes.
  - apply sublist_skip, sublist_app; [apply Hchild|apply IHroutes].
Qed.

(** Where no slot holds a skipped segment, the loop reaches every slot. *)
Lemma walkedSegments_all tree :
  Forall (λ segment, skipped key segment = false) (slotSegments tree) →
  walkedSegments key tree = slotSegments tree.
Proof.
  induction tree as [|segment0 routes0 IH] using FlightRouterState_slots_ind;
    [done|].
  simpl. induction IH as [|[slot child] routes' Hchild _ IHroutes]; [done|].
  destruct child as [|childSegment childRoutes]; [apply IHroutes|].
  intros Hall. apply Forall_cons in Hall as [Hskip Hall].
  apply Forall_app in Hall as [Hbelow Hrest].
  rewrite Hskip. f_equal. f_equal; [by apply Hchild|by apply IHroutes].
Qed.

Lemma paramsOfSegments_step segment segs params :
  paramsOfSegments key (segment :: segs) params
  = paramsOfSegments key segs
      (match paramOf key segment with
       | Some (name, value) => <[name := value]> params
       | None => params
       end).
Proof. reflexivity. Qed.

(** A name none of the segments assigns keeps the entry it had. *)
Lemma paramsOfSegments_untouched segs params name :
  (∀ value type, SegDynamic name value type ∉ segs) →
  paramsOfSegments key segs params !! name = params !! name.
Proof.
  revert params. induction segs as [|segment segs IH]; intros params Hnone; [done|].
  rewrite paramsOfSegments_step.
  rewrite IH by (intros value type Hin; eapply Hnone; right; exact Hin).
  destruct segment as [s|name' value type]; [done|].
  unfold paramOf. destruct (skipped key _); [done|].
  apply lookup_insert_ne. intros ->. eapply Hnone. left.
Qed.

(** The last segment of a name decides its entry. *)
Lemma paramsOfSegments_last before after params name value type :
  skipped key (SegDynamic name value type) = false →
  (∀ value' type', SegDynamic name value' type' ∉ after) →
  paramsOfSegments key (before ++ SegDynamic name value type :: after) params !! name
  = Some (if isCatchAllType type then PArray (JS.split "/" value) else PString value).
Proof.
  intros Hskip Hlast. rewrite paramsOfSegments_app, paramsOfSegments_step.
  rewrite paramsOfSegments_untouched by done.
  unfold paramOf. rewrite Hskip. apply lookup_insert_eq.
Qed.

(** An entry of the result was passed in or is the parameter of a segment. *)
Lemma paramsOfSegments_origin segs params name v :
  paramsOfSegments key segs params !! name = Some v →
  params !! name = Some v
  ∨ ∃ value type,
      SegDynamic name value type ∈ segs
      ∧ skipped key (SegDynamic name value type) = false
      ∧ v = (if isCatchAllType type then PArray (JS.split "/" value) else PString value).
Proof.
  revert params. induction segs as [|segment segs IH]; intros params; [by left|].
  rewrite paramsOfSegments_step.
  intros Hv. apply IH in Hv as [Hv|(value & type & Hin & Hskip & ->)].
  - destruct segment as [s|name' value type]; [by left|].
    revert Hv. unfold paramOf. destruct (skipped key _) eqn:Hskip; [by left|].
    destruct (decide (name' = name)) as [->|Hne].
    + rewrite lookup_insert_eq. intros [= <-]. right.
      exists value, type. split; [left|done].
    + rewrite lookup_insert_ne by done. by left.
  - right. exists value, type. split; [by right|done].
Qed.

(** One assignment of the loop body, on a segment the loop does not skip:
    either the object has no own property [__proto__], still has none
    afterwards and has, under every other name, the entry the segment's
    parameter gives it; or the assignment is that of the segment's
    parameter. *)
Lemma assignParam_cases segment params :
  skipped key segment = false →
  (params !! "__proto__" = None
   ∧ assignParam segment params !! "__proto__" = None
   ∧ ∀ name, name ≠ "__proto__" →
       assignParam segment params !! name
       = paramsOfSegments key [segment] params !! name)
  ∨ (is_Some (params !! "__proto__")
     ∧ assignParam segment params = paramsOfSegments key [segment] params).
Proof.
  intros Hskip. unfold paramsOfSegments. simpl.
  destruct segment as [s|name value type].
  { simpl. destruct (params !! "__proto__") eqn:Hproto; [right|left]; eauto. }
  unfold paramOf. rewrite Hskip. unfold assignParam.
  destruct (String.eqb_spec name "__proto__") as [->|Hne].
  - destruct (params !! "__proto__") eqn:Hproto; [right|left].
    + split; [eauto|done].
    + split; [done|]. split; [done|].
      intros name Hname. by rewrite lookup_insert_ne.
  - destruct (params !! "__proto__") eqn:Hproto; [right|left].
    + split; [eauto|done].
    + split; [done|]. split; [by rewrite lookup_insert_ne|done].
Qed.

(** The assignments of the loop, on segments it does not skip: the same
    alternative, for the whole list. *)
Lemma assignedParams_cases segs params :
  Forall (λ segment, skipped key segment = false) segs →
  (params !! "__proto__" = None
   ∧ assignedParams segs params !! "__proto__" = None
   ∧ ∀ name, name ≠ "__proto__" →
       assignedParams segs params !! name
       = paramsOfSegments key segs params !! name)
  ∨ (is_Some (params !! "__proto__")
     ∧ assignedParams segs params = paramsOfSegments key segs params).
Proof.
  intros Hall.
  destruct (params !! "__proto__") as [v|] eqn:Hproto; [right|left].
  - split; [eauto|].
    assert (is_Some (params !! "__proto__")) as Hsome by (rewrite Hproto; eauto).
    clear v Hproto. revert params Hsome.
    induction Hall as [|segment segs Hskip _ IH]; intros params Hsome; [done|].
    rewrite paramsOfSegments_step.
    change (assignedParams (segment :: segs) params)
      with (assignedParams segs (assignParam segment params)).
    destruct (assignParam_cases segment params Hskip)
      as [(Hnone & _)|(_ & Hstep)].
    { rewrite Hnone in Hsome. by destruct Hsome. }
    rewrite Hstep.
    change (paramsOfSegments key [segment] params)
      with (match paramOf key segment with
            | Some (name, value) => <[name := value]> params
            | None => params
            end).
    apply IH.
    destruct (paramOf key segment) as [[name value]|]; [|done].
    destruct (decide (name = "__proto__")) as [->|Hne].
    + rewrite lookup_insert_eq. eauto.
    + by rewrite lookup_insert_ne.
  - split; [done|].
    assert (∀ params', params !! "__proto__" = None →
              (∀ name, name ≠ "__proto__" → params !! name = params' !! name) →
              assignedParams segs params !! "__proto__" = None
              ∧ ∀ name, name ≠ "__proto__" →
                  assignedParams segs params !! name
                  = paramsOfSegments key segs params' !! name) as Hgen.
    { clear Hproto. revert params.
      induction Hall as [|segment segs Hskip _ IH]; intros params params' Hnone Hagree;
        [by split|].
      rewrite paramsOfSegments_step.
      change (assignedParams (segment :: segs) params)
        with (assignedParams segs (assignParam segment params)).
      destruct (assignParam_cases segment params Hskip)
        as [(_ & Hnone' & Hstep)|(Hsome & _)];
        [|rewrite Hnone in Hsome; by destruct Hsome].
      apply IH; [done|].
      intros name Hname. rewrite (Hstep name Hname).
      unfold paramsOfSegments. simpl.
      destruct (paramOf key segment) as [[name' value]|]; [|by apply Hagree].
      destruct (decide (name' = name)) as [->|Hne].
      - by rewrite !lookup_insert_eq.
      - rewrite !lookup_insert_ne by done. by apply Hagree. }
    by apply Hgen.
Qed.

(** What [getSelectedParams] returns on a node, entry by entry: the entry
    the reached segments' parameters give, under every name but
    [__proto__] when the object passed in has no own property of that
    name, which then stays absent. *)
Lemma getSelectedParams_entries root routes params :
  ∃ result,
    getSelectedParams key (FRS root routes) params = JS.Ok result
    ∧ ((params !! "__proto__" = None
        ∧ result !! "__proto__" = None
        ∧ ∀ name, name ≠ "__proto__" →
            result !! name
            = paramsOfSegments key (walkedSegments key (FRS root routes)) params !! name)
       ∨ (is_Some (params !! "__proto__")
          ∧ result = paramsOfSegments key (walkedSegments key (FRS root routes)) params)).
Proof.
  eexists. split; [by apply (getSelectedParams_walked _ root routes)|].
  apply assignedParams_cases, walkedSegments_not_skipped.
Qed.

Lemma walkedSegments_cons root slot child routes :
  walkedSegments key (FRS root ((slot, child) :: routes))
  = match child with
    | FRSEmpty => walkedSegments key (FRS root routes)
    | FRS segment _ =>
        if skipped key segment then walkedSegments key (FRS root routes)
        else segment :: walkedSegments key child ++ walkedSegments key (FRS root routes)
    end.
Proof. by destruct child. Qed.

Lemma walkedSegments_root root root' routes :
  walkedSegments key (FRS root routes) = walkedSegments key (FRS root' routes).
Proof. reflexivity. Qed.

(** The list of reached segments and the paths agree. *)
Lemma walkedSegments_Reached tree segment :
  segment ∈ walkedSegments key tree ↔ Reached key tree segment.
Proof.
  split.
  - revert segment.
    induction tree as [|root routes IH] using FlightRouterState_slots_ind;
      intros segment; [by intros ?%not_elem_of_nil|].
    induction IH as [|[slot child] routes' Hchild _ IHroutes];
      [by intros ?%not_elem_of_nil|].
    rewrite walkedSegments_cons.
    assert (Reached key (FRS root routes') segment →
            Reached key (FRS root ((slot, child) :: routes')) segment) as Hmore.
    { intros Hr. inversion Hr; subst.
      - eapply reached_slot; [right|]; eauto.
      - eapply reached_below; [right| |]; eauto. }
    destruct child as [|childSegment below]; [by intros ?%IHroutes%Hmore|].
    destruct (skipped key childSegment) eqn:Hskip; [by intros ?%IHroutes%Hmore|].
    intros [->|[Hin|Hin]%elem_of_app]%elem_of_cons.
    + eapply reached_slot; [left|done].
    + eapply reached_below; [left|done|]. by apply Hchild.
    + by apply Hmore, IHroutes.
  - induction 1 as [root routes slot segment below Hin Hskip
                   |root routes slot segment below deeper Hin Hskip _ IH].
    + induction routes as [|[slot' child] routes IHroutes];
        [by apply not_elem_of_nil in Hin|].
      rewrite walkedSegments_cons.
      apply elem_of_cons in Hin as [[= <- <-]|Hin].
      * rewrite Hskip. left.
      * apply IHroutes in Hin. destruct child as [|s b]; [done|].
        destruct (skipped key s); [done|]. right. apply elem_of_app. by right.
    + induction routes as [|[slot' child] routes IHroutes];
        [by apply not_elem_of_nil in Hin|].
      rewrite walkedSegments_cons.
      apply elem_of_cons in Hin as [[= <- <-]|Hin].
      * rewrite Hskip. right. apply elem_of_app. by left.
      * apply IHroutes in Hin. destruct child as [|s b]; [done|].
        destruct (skipped key s); [done|]. right. apply elem_of_app. by right.
Qed.

Lemma isCatchAllType_spec type :
  isCatchAllType type = true ↔ type = "c" ∨ type = "oc".
Proof.
  unfold isCatchAllType. rewrite orb_true_iff, !String.eqb_eq. done.
Qed.

End AppRouterFacts.

(** ** AppRouterProvider *)

Lemma alloc_fresh elements (σ : JS.Store) :
  σ !! (JS.alloc elements σ).1 = None.
Proof. apply not_elem_of_dom, is_fresh. Qed.

Lemma alloc_extends elements (σ : JS.Store) :
  σ ⊆ (JS.alloc elements σ).2.
Proof. apply insert_subseteq, (alloc_fresh elements). Qed.

(** The provider never fails; its tree hangs the routes built from a copy
    of the segments under [pathname], and its final store is the initial
    one with new arrays only. *)
Lemma AppRouterProvider_run key routeParams (σ : JS.Store) :
  ∃ contexts σ',
    AppRouterProvider key routeParams σ = (JS.Ok contexts, σ')
    ∧ tree contexts
      = FRS (SegString (pathname routeParams))
            [("children", routesOf (providedSegments routeParams σ))]
    ∧ nextUrl contexts = pathname routeParams
    ∧ σ ⊆ σ'.
Proof.
  unfold AppRouterProvider, providedSegments.
  destruct (segments routeParams) as [r|].
  - pose proof (alloc_fresh (JS.contents σ r) σ) as Hfresh.
    unfold JS.alloc in *. cbn [fst snd] in *. cbv zeta.
    rewrite (getParallelRoutes_contents _ _ (JS.contents σ r))
      by apply lookup_insert_eq.
    rewrite (getSelectedParams_walked key _ _ _ ∅ eq_refl).
    eexists _, _. split; [reflexivity|]. split; [done|]. split; [done|].
    rewrite insert_insert_eq. by apply insert_subseteq.
  - pose proof (alloc_fresh [] σ) as Hfresh.
    pose proof (alloc_fresh (JS.contents (<[fresh (dom σ) := []]> σ) (fresh (dom σ)))
                            (<[fresh (dom σ) := []]> σ)) as Hfresh'.
    unfold JS.alloc in *. cbn [fst snd] in *. cbv zeta.
    rewrite (getParallelRoutes_contents _ _
               (JS.contents (<[fresh (dom σ) := []]> σ) (fresh (dom σ))))
      by apply lookup_insert_eq.
    rewrite (getSelectedParams_walked key _ _ _ ∅ eq_refl).
    eexists _, _. split; [reflexivity|].
    unfold JS.contents. rewrite lookup_insert_eq. simpl.
    split; [done|]. split; [done|].
    rewrite insert_insert_eq.
    trans (<[fresh (dom σ) := []]> σ); by apply insert_subseteq.
Qed.

(** ** The claims on the router provider *)

(** C1 (as amended).  Reading the tree that [getParallelRoutes] builds, from
    its root to its leaf along the [children] slot, yields the input
    segments that stand before the first empty string, in their order; when
    no segment is empty this is the whole input, nothing dropped,
    duplicated or reordered.  [AppRouterProvider] installs that tree, built
    from its [segments], as the [children] slot under [pathname]. *)
Theorem tree_mirrors_truthy_segments :
  (∀ r (σ : JS.Store),
     segmentsAlong "children" (getParallelRoutes r σ).1
     = SegString <$> truthyPrefix (JS.contents σ r)
     ∧ (Forall (λ s, s ≠ "") (JS.contents σ r) →
        segmentsAlong "children" (getParallelRoutes r σ).1
        = SegString <$> JS.contents σ r))
  ∧ (∀ key routeParams (σ : JS.Store),
       ∃ contexts σ' routes,
         AppRouterProvider key routeParams σ = (JS.Ok contexts, σ')
         ∧ tree contexts
           = FRS (SegString (pathname routeParams)) [("children", routes)]
         ∧ (∀ r, segments routeParams = Some r →
                 routes = (getParallelRoutes r σ).1)
         ∧ segmentsAlong "children" routes
           = SegString <$> truthyPrefix (providedSegments routeParams σ)
         ∧ (Forall (λ s, s ≠ "") (providedSegments routeParams σ) →
            segmentsAlong "children" routes
            = SegString <$> providedSegments routeParams σ)).
Proof.
  split.
  - intros r σ. rewrite getParallelRoutes_tree, segmentsAlong_routesOf.
    split; [done|]. intros Hall. by rewrite truthyPrefix_all.
  - intros key routeParams σ.
    destruct (AppRouterProvider_run key routeParams σ)
      as (contexts & σ' & Hrun & Htree & _ & _).
    exists contexts, σ', (routesOf (providedSegments routeParams σ)).
    rewrite segmentsAlong_routesOf. repeat split; try done.
    + intros r Hr. rewrite getParallelRoutes_tree.
      unfold providedSegments. by rewrite Hr.
    + intros Hall. by rewrite truthyPrefix_all.
Qed.

(** The claim at a list without an empty segment. *)
Lemma tree_mirrors_truthy_segments_witness :
  Forall (λ s, s ≠ "") (JS.contents {[ 0 := ["blog"; "post"] ]} 0)
  ∧ segmentsAlong "children" (getParallelRoutes 0 {[ 0 := ["blog"; "post"] ]}).1
    = [SegString "blog"; SegString "post"].
Proof.
  assert (Forall (λ s, s ≠ "") (JS.contents {[ 0 := ["blog"; "post"] ]} 0)) as Hall.
  { unfold JS.contents. rewrite lookup_singleton_eq. repeat constructor; discriminate. }
  split; [exact Hall|].
  destruct tree_mirrors_truthy_segments as [Hroutes _].
  destruct (Hroutes 0 {[ 0 := ["blog"; "post"] ]}) as [_ Hmirror].
  rewrite (Hmirror Hall). unfold JS.contents. rewrite lookup_singleton_eq.
  reflexivity.
Defined.

(** C1, as stated, fails on a list with an empty segment: the tree stops
    there and the segments behind it are dropped. *)
Lemma empty_segment_cuts_tree :
  segmentsAlong "children" (getParallelRoutes 0 {[ 0 := ["blog"; ""; "post"] ]}).1
  = [SegString "blog"]
  ∧ [SegString "blog"] ≠ SegString <$> ["blog"; ""; "post"].
Proof.
  split; [|discriminate].
  rewrite (getParallelRoutes_contents 0 _ ["blog"; ""; "post"])
    by apply lookup_singleton_eq.
  reflexivity.
Qed.

Lemma recursive_call_length r (σ σ1 : JS.Store) :
  recursive_call r σ1 σ →
  length (JS.contents σ r) = S (length (JS.contents σ1 r)).
Proof.
  intros (segment & Hshift & _). revert Hshift. unfold JS.shift, JS.contents.
  destruct (σ !! r) as [[|first rest]|]; intros [= _ <-].
  by rewrite lookup_insert_eq.
Qed.

Lemma recursive_call_Acc r (σ : JS.Store) : Acc (recursive_call r) σ.
Proof.
  remember (length (JS.contents σ r)) as n eqn:Hn. revert σ Hn.
  induction n as [|n IH]; intros σ Hn; constructor; intros σ1 Hcall;
    apply recursive_call_length in Hcall.
  - lia.
  - apply IH. lia.
Qed.

Lemma getParallelRoutes_bounded_enough r (σ : JS.Store) depth :
  length (JS.contents σ r) < depth →
  getParallelRoutes_bounded depth r σ = Some (getParallelRoutes r σ).
Proof.
  revert σ. induction depth as [|depth IH]; intros σ Hdepth; [lia|].
  simpl. destruct (JS.shift r σ) as [[segment|] σ1] eqn:Hshift.
  - rewrite (getParallelRoutes_step r σ _ _ Hshift).
    destruct (JS.truthy segment) eqn:Htruthy; [|done].
    rewrite IH; [done|].
    assert (recursive_call r σ1 σ) as Hcall by (by exists segment).
    apply recursive_call_length in Hcall. lia.
  - by rewrite (getParallelRoutes_step r σ _ _ Hshift).
Qed.

(** C8.  Each recursive call of [getParallelRoutes] runs on the array with
    exactly one element less, so the calls are well-founded and the result
    is reached within [length + 1] nested calls. *)
Theorem getParallelRoutes_terminates r (σ : JS.Store) :
  (∀ σ1, recursive_call r σ1 σ →
         length (JS.contents σ r) = S (length (JS.contents σ1 r)))
  ∧ Acc (recursive_call r) σ
  ∧ getParallelRoutes_bounded (S (length (JS.contents σ r))) r σ
    = Some (getParallelRoutes r σ).
Proof.
  split; [intros σ1; apply recursive_call_length|].
  split; [apply recursive_call_Acc|].
  apply getParallelRoutes_bounded_enough. lia.
Qed.

(** The claim on an array of two segments: a recursive call exists and
    leaves one element. *)
Lemma getParallelRoutes_terminates_witness :
  recursive_call 0 {[ 0 := ["post"] ]} {[ 0 := ["blog"; "post"] ]}
  ∧ length (JS.contents {[ 0 := ["blog"; "post"] ]} 0)
    = S (length (JS.contents ({[ 0 := ["post"] ]} : JS.Store) 0)).
Proof.
  assert (recursive_call 0 {[ 0 := ["post"] ]} {[ 0 := ["blog"; "post"] ]}) as Hcall.
  { exists "blog". split; [|done].
    rewrite (shift_lookup 0 _ ["blog"; "post"]) by apply lookup_singleton_eq.
    by rewrite insert_singleton_eq. }
  split; [exact Hcall|].
  exact (proj1 (getParallelRoutes_terminates 0 {[ 0 := ["blog"; "post"] ]}) _ Hcall).
Defined.

Lemma leftover_shorter l : l ≠ [] → length (leftover l) < length l.
Proof.
  induction l as [|s rest IH]; [done|]. intros _. simpl.
  destruct (JS.truthy s); [|lia].
  destruct rest as [|s' rest']; [simpl; lia|].
  specialize (IH ltac:(done)). lia.
Qed.

(** C9.  [getParallelRoutes] consumes the array it is given: a non-empty
    array is shorter afterwards.  [AppRouterProvider] hands it a copy at a
    new reference, so every array that existed before the call, the
    caller's [segments] among them, holds the same elements afterwards. *)
Theorem AppRouterProvider_keeps_segments key routeParams (σ : JS.Store) :
  (∀ r l, σ !! r = Some l →
          (AppRouterProvider key routeParams σ).2 !! r = Some l)
  ∧ (∀ r l, segments routeParams = Some r → σ !! r = Some l →
            JS.contents (AppRouterProvider key routeParams σ).2 r = l)
  ∧ (∀ r l, σ !! r = Some l →
            (getParallelRoutes r σ).2 !! r = Some (leftover l)
            ∧ (l ≠ [] → (getParallelRoutes r σ).2 !! r ≠ Some l)).
Proof.
  destruct (AppRouterProvider_run key routeParams σ)
    as (contexts & σ' & Hrun & _ & _ & Hsub).
  rewrite Hrun. simpl.
  assert (∀ r l, σ !! r = Some l → σ' !! r = Some l) as Hkeep.
  { intros r l Hl. eapply lookup_weaken; eauto. }
  split; [exact Hkeep|]. split.
  - intros r l _ Hl. unfold JS.contents. by rewrite (Hkeep r l Hl).
  - intros r l Hl. rewrite (getParallelRoutes_contents r σ l Hl). simpl.
    rewrite lookup_insert_eq. split; [done|].
    intros Hne [= Heq]. apply leftover_shorter in Hne. rewrite Heq in Hne. lia.
Qed.

(** The claim on a store that holds the caller's array. *)
Lemma AppRouterProvider_keeps_segments_witness :
  ({[ 0 := ["blog"; "post"] ]} : JS.Store) !! 0 = Some ["blog"; "post"]
  ∧ (AppRouterProvider NEXT_PAGE_SEGMENT_KEY
       {| pathname := "/blog/post"; query := []; segments := Some 0 |}
       {[ 0 := ["blog"; "post"] ]}).2 !! 0 = Some ["blog"; "post"].
Proof.
  assert (({[ 0 := ["blog"; "post"] ]} : JS.Store) !! 0 = Some ["blog"; "post"])
    as Hl by apply lookup_singleton_eq.
  split; [exact Hl|].
  exact (proj1 (AppRouterProvider_keeps_segments NEXT_PAGE_SEGMENT_KEY
                  {| pathname := "/blog/post"; query := []; segments := Some 0 |}
                  {[ 0 := ["blog"; "post"] ]}) 0 _ Hl).
Defined.

(** C2 (as amended).  On every tree with a root node, [getSelectedParams]
    returns, and what it returns is decided by the segments it reaches: it
    goes through the parallel-route slots in order and goes below a slot's
    segment unless that segment's value is empty or starts with
    [PAGE_SEGMENT_KEY], in which case the slot is left out together with
    all that is below it (the root's own segment is not looked at).  A
    reached dynamic segment [[name, value, 'c']] or [[name, value, 'oc']]
    maps [name] to [value] split on ['/'], any other reached dynamic
    segment maps [name] to [value] unchanged, the last reached segment of
    a name deciding; a string segment adds nothing, and a name no reached
    dynamic segment carries keeps the entry of the [params] passed in.
    The name [__proto__] is the exception: unless the [params] passed in
    have an own property of that name, a segment of that name adds none,
    and the result has none.  Where no slot holds a segment with an empty
    or page-key value, every slot is reached. *)
Theorem getSelectedParams_reached key root routes (params : Params) :
  ∃ result,
    getSelectedParams key (FRS root routes) params = JS.Ok result
    ∧ (∀ before name value type after,
         name ≠ "__proto__" ∨ is_Some (params !! "__proto__") →
         walkedSegments key (FRS root routes)
         = before ++ SegDynamic name value type :: after →
         (∀ value' type', SegDynamic name value' type' ∉ after) →
         result !! name
         = Some (if isCatchAllType type then PArray (JS.split "/" value)
                 else PString value))
    ∧ (params !! "__proto__" = None → result !! "__proto__" = None)
    ∧ (∀ name v,
         result !! name = Some v →
         params !! name = Some v
         ∨ ∃ value type,
             Reached key (FRS root routes) (SegDynamic name value type)
             ∧ v = (if isCatchAllType type then PArray (JS.split "/" value)
                    else PString value))
    ∧ (∀ name,
         (∀ value type, ¬ Reached key (FRS root routes) (SegDynamic name value type)) →
         result !! name = params !! name)
    ∧ (∀ segment,
         segment ∈ walkedSegments key (FRS root routes)
         ↔ Reached key (FRS root routes) segment)
    ∧ (∀ segment,
         Reached key (FRS root routes) segment →
         segment ∈ slotSegments (FRS root routes)
         ∧ segmentValueOf segment ≠ ""
         ∧ JS.startsWith (segmentValueOf segment) key = false)
    ∧ (Forall (λ segment, skipped key segment = false) (slotSegments (FRS root routes)) →
       walkedSegments key (FRS root routes) = slotSegments (FRS root routes))
    ∧ (∀ type, isCatchAllType type = true ↔ type = "c" ∨ type = "oc").
Proof.
  destruct (getSelectedParams_entries key root routes params)
    as (result & Hrun & Hentries).
  assert (∀ name, name ≠ "__proto__" ∨ is_Some (params !! "__proto__") →
            result !! name
            = paramsOfSegments key (walkedSegments key (FRS root routes)) params !! name)
    as Hnamed.
  { intros name Hname.
    destruct Hentries as [(Hnone & _ & Hagree)|(_ & ->)]; [|done].
    destruct Hname as [Hname|Hsome]; [by apply Hagree|].
    rewrite Hnone in Hsome. by destruct Hsome. }
  assert (∀ name, name = "__proto__" → params !! "__proto__" = None →
            result !! name = None ∧ params !! name = None) as Hproto.
  { intros name -> Hnone. split; [|done].
    destruct Hentries as [(_ & Hres & _)|(Hsome & _)]; [done|].
    rewrite Hnone in Hsome. by destruct Hsome. }
  assert (∀ name, (name ≠ "__proto__" ∨ is_Some (params !! "__proto__"))
                  ∨ (name = "__proto__" ∧ params !! "__proto__" = None)) as Hcases.
  { intros name. destruct (decide (name = "__proto__")) as [->|Hne]; [|by left; left].
    destruct (params !! "__proto__") eqn:Hp; [left; right; eauto|by right]. }
  exists result. split; [exact Hrun|].
  split.
  { intros before name value type after Hname Hwalk Hlast.
    rewrite (Hnamed name Hname), Hwalk.
    apply paramsOfSegments_last; [|done].
    pose proof (walkedSegments_not_skipped key (FRS root routes)) as Hall.
    rewrite Hwalk in Hall. apply Forall_app in Hall as [_ Hall].
    by apply Forall_cons in Hall as [? _]. }
  split; [intros Hnone; by apply (Hproto "__proto__")|].
  split.
  { intros name v Hv.
    destruct (Hcases name) as [Hname|[Hname Hnone]].
    - rewrite (Hnamed name Hname) in Hv.
      apply paramsOfSegments_origin in Hv as [Hv|(value & type & Hin & _ & ->)];
        [by left|right].
      exists value, type. split; [|done]. by apply walkedSegments_Reached.
    - destruct (Hproto name Hname Hnone) as [Hres _]. by rewrite Hres in Hv. }
  split.
  { intros name Hnone.
    destruct (Hcases name) as [Hname|[Hname Hnone']].
    - rewrite (Hnamed name Hname). apply paramsOfSegments_untouched.
      intros value type Hin%walkedSegments_Reached. by eapply Hnone.
    - destruct (Hproto name Hname Hnone') as [-> ->]. done. }
  split; [intros segment; apply walkedSegments_Reached|].
  split.
  { intros segment Hin%walkedSegments_Reached.
    pose proof (walkedSegments_not_skipped key (FRS root routes)) as Hall.
    rewrite Forall_forall in Hall. specialize (Hall _ Hin).
    unfold skipped in Hall. apply orb_false_iff in Hall as [Hvalue Hpage].
    split; [|split; [|done]].
    - eapply elem_of_sublist; [done|apply walkedSegments_sublist].
    - apply negb_false_iff in Hvalue. by apply truthy_nonempty. }
  split; [apply walkedSegments_all|apply isCatchAllType_spec].
Qed.

(** The claim on a tree whose [children] slot holds a catch-all segment,
    and on one whose slot holds a segment named [__proto__]. *)
Lemma getSelectedParams_reached_witness :
  walkedSegments NEXT_PAGE_SEGMENT_KEY
    (FRS (SegString "") [("children", FRS (SegDynamic "slug" "a/b" "c") [])])
  = [] ++ SegDynamic "slug" "a/b" "c" :: []
  ∧ (∃ result,
       getSelectedParams NEXT_PAGE_SEGMENT_KEY
         (FRS (SegString "") [("children", FRS (SegDynamic "slug" "a/b" "c") [])]) ∅
       = JS.Ok result
       ∧ result !! "slug" = Some (PArray ["a"; "b"]))
  ∧ (∃ result,
       getSelectedParams NEXT_PAGE_SEGMENT_KEY
         (FRS (SegString "") [("children", FRS (SegDynamic "__proto__" "v" "d") [])]) ∅
       = JS.Ok result
       ∧ result !! "__proto__" = None).
Proof.
  split; [reflexivity|]. split.
  - destruct (getSelectedParams_reached NEXT_PAGE_SEGMENT_KEY (SegString "")
                [("children", FRS (SegDynamic "slug" "a/b" "c") [])] ∅)
      as (result & Hrun & Hlast & _).
    exists result. split; [exact Hrun|].
    apply (Hlast [] "slug" "a/b" "c" []); [by left|reflexivity|].
    intros value' type' Hin. by apply not_elem_of_nil in Hin.
  - destruct (getSelectedParams_reached NEXT_PAGE_SEGMENT_KEY (SegString "")
                [("children", FRS (SegDynamic "__proto__" "v" "d") [])] ∅)
      as (result & Hrun & _ & Hproto & _).
    exists result. split; [exact Hrun|]. by apply Hproto.
Defined.

(** C2, as stated, fails below a segment with an empty value: the loop
    does not enter it, so the dynamic segment in the slot below it, which
    the tree holds, yields no parameter. *)
Lemma getSelectedParams_leaves_out_subtree :
  getSelectedParams NEXT_PAGE_SEGMENT_KEY treeWithEmptyCatchAll ∅ = JS.Ok ∅
  ∧ SegDynamic "id" "5" "d" ∈ slotSegments treeWithEmptyCatchAll
  ∧ paramOf NEXT_PAGE_SEGMENT_KEY (SegDynamic "id" "5" "d") = Some ("id", PString "5")
  ∧ paramsOfSegments NEXT_PAGE_SEGMENT_KEY (slotSegments treeWithEmptyCatchAll) ∅
    = {[ "id" := PString "5" ]}
  ∧ ({[ "id" := PString "5" ]} : Params) ≠ ∅.
Proof.
  split; [reflexivity|]. split; [simpl; right; left|]. split; [reflexivity|].
  split; [reflexivity|].
  intros Heq. apply (f_equal (λ m : Params, m !! "id")) in Heq.
  by rewrite lookup_singleton_eq in Heq.
Qed.

(** ** The presets *)

(** C6.  [staticDirs] returns the default directories followed by the
    values it is given, in their order, and the defaults alone when it is
    called without a value. *)
Theorem staticDirs_prepends_defaults defaultStaticDirs :
  (∀ values,
     staticDirs defaultStaticDirs (Some values) = defaultStaticDirs ++ values
     ∧ take (length defaultStaticDirs) (staticDirs defaultStaticDirs (Some values))
       = defaultStaticDirs
     ∧ drop (length defaultStaticDirs) (staticDirs defaultStaticDirs (Some values))
       = values)
  ∧ staticDirs defaultStaticDirs None = defaultStaticDirs.
Proof.
  split.
  - intros values. unfold staticDirs.
    split; [done|]. split; [apply take_app_length|apply drop_app_length].
  - unfold staticDirs. apply app_nil_r.
Qed.

Section PromiseFacts.

Context {A : Type}.
Variable settled : nat → nat.

Lemma firstRejection_member i (outcomes : list (JS.Result A)) time e :
  firstRejection settled i outcomes = Some (time, e) → JS.Throw e ∈ outcomes.
Proof.
  revert i time e. induction outcomes as [|[a|e0] rest IH]; intros i time e; simpl.
  - done.
  - intros Hfirst%IH. by right.
  - destruct (firstRejection settled (S i) rest) as [[time' e']|] eqn:Hrest.
    + destruct (Nat.ltb time' (settled i)); intros [= <- <-].
      * right. by eapply IH.
      * left.
    + intros [= <- <-]. left.
Qed.

Lemma firstRejection_none i (outcomes : list (JS.Result A)) :
  firstRejection settled i outcomes = None ↔ outcomes = JS.Ok <$> fulfilled outcomes.
Proof.
  revert i. induction outcomes as [|[a|e0] rest IH]; intros i; simpl.
  - done.
  - rewrite IH. split; [intros Hrest; f_equal; exact Hrest|by intros [= ?]].
  - split; [|by destruct (fulfilled rest)].
    destruct (firstRejection settled (S i) rest) as [[time' e']|]; [|done].
    by destruct (Nat.ltb time' (settled i)).
Qed.

(** [Promise.all] fulfils with the values when every promise fulfils. *)
Lemma promiseAll_fulfilled (values : list A) :
  promiseAll settled (JS.Ok <$> values) = JS.Ok values.
Proof.
  assert (fulfilled (JS.Ok <$> values) = values) as Hvalues
    by (induction values as [|a rest IH]; [done|]; simpl; f_equal; exact IH).
  unfold promiseAll.
  destruct (firstRejection settled 0 (JS.Ok <$> values)) as [[time e]|] eqn:Hfirst.
  - apply firstRejection_member, list_elem_of_fmap in Hfirst as (a & [=] & _).
  - by rewrite Hvalues.
Qed.

(** It rejects as soon as one promise rejects, with the rejection of one
    of them. *)
Lemma promiseAll_rejected (outcomes : list (JS.Result A)) :
  Exists (λ outcome, ∃ e, outcome = JS.Throw e) outcomes →
  ∃ e, promiseAll settled outcomes = JS.Throw e ∧ JS.Throw e ∈ outcomes.
Proof.
  intros Hsome. unfold promiseAll.
  destruct (firstRejection settled 0 outcomes) as [[time e]|] eqn:Hfirst.
  - exists e. split; [done|]. by eapply firstRejection_member.
  - apply firstRejection_none in Hfirst.
    apply Exists_exists in Hsome as (outcome & Hin & e & ->).
    rewrite Hfirst in Hin. by apply list_elem_of_fmap in Hin as (a & [=] & _).
Qed.

Lemma promiseAll_outcome (outcomes : list (JS.Result A)) :
  (∃ values, outcomes = JS.Ok <$> values ∧ promiseAll settled outcomes = JS.Ok values)
  ∨ (∃ e, JS.Throw e ∈ outcomes ∧ promiseAll settled outcomes = JS.Throw e).
Proof.
  unfold promiseAll.
  destruct (firstRejection settled 0 outcomes) as [[time e]|] eqn:Hfirst.
  - right. exists e. split; [by eapply firstRejection_member|done].
  - left. exists (fulfilled outcomes). split; [by apply firstRejection_none in Hfirst|done].
Qed.

End PromiseFacts.

Section FaviconFacts.

Variable defaultFavicon : string.
Variable host : FaviconHost.
Variable options : Options.

Lemma fold_left_concat {A} (lists : list (list A)) (acc : list A) :
  fold_left (λ l1 l2, l1 ++ l2) lists acc = acc ++ concat lists.
Proof.
  revert acc. induction lists as [|l lists IH]; intros acc; simpl.
  - by rewrite app_nil_r.
  - by rewrite IH, app_assoc.
Qed.

(** The callback rejects with the first rejection of what it awaits, and
    otherwise the two guarded pushes keep the candidates that exist. *)
Lemma faviconsOfDir_outcome dirs dir :
  faviconsOfDir host options (Some dirs) dir = dirOutcome host options dir.
Proof.
  unfold faviconsOfDir, dirOutcome, dirRejection, faviconCandidates, normalizedDirOf.
  cbn [andb].
  assert ((if negb (isAbsolute host dir)
           then getDirectoryFromWorkingDir host (configDir options) (cwd host) dir
           else dir)
          = (if isAbsolute host dir then dir
             else getDirectoryFromWorkingDir host (configDir options) (cwd host) dir))
    as -> by (by destruct (isAbsolute host dir)).
  destruct (parseStaticDir host _) as [parsed|e]; [|done].
  destruct (String.eqb (targetEndpoint parsed) "/"); [|done].
  rewrite !filter_cons, filter_nil. unfold found.
  destruct (pathExists host (pathJoin host (staticPath parsed) "favicon.svg"))
    as [[|]|e1]; [| |done];
    destruct (pathExists host (pathJoin host (staticPath parsed) "favicon.ico"))
      as [[|]|e2]; try done; repeat case_decide; try congruence; reflexivity.
Qed.

(** What [favicon] does once it is past the early return. *)
Lemma faviconFromStaticDirs_run :
  run (faviconFromStaticDirs defaultFavicon host options)
  = match appliedStaticDirs host with
    | JS.Throw e => (JS.Throw e, [PresetsApply "staticDirs"])
    | JS.Ok _ =>
        match promiseAll (settledAt host)
                (map (λ entry, dirOutcome host options (staticDirName entry))
                     (staticDirsOf host)) with
        | JS.Throw e => (JS.Throw e, [PresetsApply "staticDirs"])
        | JS.Ok lists =>
            (JS.Ok (match concat lists with
                    | first :: _ => if JS.truthy first then first else defaultFavicon
                    | [] => defaultFavicon
                    end),
             PresetsApply "staticDirs"
             :: (if Nat.ltb 1 (length (concat lists))
                 then [LoggerWarn (multipleFaviconsWarning (concat lists))]
                 else []))
        end
    end.
Proof.
  unfold run, faviconFromStaticDirs, staticDirsOf, mbind, eff_mbind, eff_bind,
    external, settle.
  simpl. destruct (appliedStaticDirs host) as [[dirs|]|e]; [| |done].
  - rewrite length_map, map_map.
    rewrite (map_ext (λ entry, faviconsOfDir host options (Some dirs)
                                 match entry with
                                 | DirPath s => s
                                 | DirObject from to => from +:+ ":" +:+ to
                                 end)
                     (λ entry, dirOutcome host options (staticDirName entry)))
      by (intros entry; rewrite faviconsOfDir_outcome; by destruct entry).
    destruct dirs as [|entry dirs]; [reflexivity|].
    cbn [length Nat.ltb Nat.leb].
    destruct (promiseAll _ _) as [lists|e]; [|done].
    rewrite fold_left_concat, !app_nil_l.
    destruct (length (concat lists)) as [|[|n]]; reflexivity.
  - reflexivity.
Qed.

Lemma dirOutcomes_settled dirs :
  Forall (λ entry, dirRejection host options (staticDirName entry) = None) dirs →
  map (λ entry, dirOutcome host options (staticDirName entry)) dirs
  = JS.Ok <$> map (λ entry, filter (λ path, found host path = true)
                              (faviconCandidates host options (staticDirName entry)))
                  dirs.
Proof.
  induction 1 as [|entry dirs' Hnone _ IH]; [done|].
  simpl. f_equal; [|exact IH]. unfold dirOutcome. by rewrite Hnone.
Qed.

(** Every static dir settling, [favicon] returns past the early return. *)
Lemma faviconFromStaticDirs_settled dirs :
  appliedStaticDirs host = JS.Ok dirs →
  Forall (λ entry, dirRejection host options (staticDirName entry) = None)
         (staticDirsOf host) →
  run (faviconFromStaticDirs defaultFavicon host options)
  = (JS.Ok (match collectedFavicons host options with
            | first :: _ => if JS.truthy first then first else defaultFavicon
            | [] => defaultFavicon
            end),
     PresetsApply "staticDirs"
     :: (if Nat.ltb 1 (length (collectedFavicons host options))
         then [LoggerWarn (multipleFaviconsWarning (collectedFavicons host options))]
         else [])).
Proof.
  intros Happlied Hsettled. rewrite faviconFromStaticDirs_run, Happlied.
  rewrite (dirOutcomes_settled _ Hsettled), promiseAll_fulfilled.
  unfold collectedFavicons. by rewrite flat_map_concat_map.
Qed.

(** One static dir rejecting, [favicon] rejects, with the rejection of one
    of them, after the call into the pipeline and nothing else. *)
Lemma faviconFromStaticDirs_rejected :
  Exists (λ entry, dirRejection host options (staticDirName entry) ≠ None)
         (staticDirsOf host) →
  ∃ entry e,
    entry ∈ staticDirsOf host
    ∧ dirRejection host options (staticDirName entry) = Some e
    ∧ run (faviconFromStaticDirs defaultFavicon host options)
      = (JS.Throw e, [PresetsApply "staticDirs"]).
Proof.
  intros Hsome. rewrite faviconFromStaticDirs_run.
  assert (∃ dirs, appliedStaticDirs host = JS.Ok dirs) as [dirs ->].
  { apply Exists_exists in Hsome as (entry & Hin & _). revert Hin.
    unfold staticDirsOf. destruct (appliedStaticDirs host) as [dirs|e];
      [by eexists|by intros ?%not_elem_of_nil]. }
  destruct (promiseAll_rejected (settledAt host)
              (map (λ entry, dirOutcome host options (staticDirName entry))
                   (staticDirsOf host))) as (e & -> & Hin).
  { apply Exists_exists in Hsome as (entry & Hin & Hrej).
    apply Exists_exists. exists (dirOutcome host options (staticDirName entry)).
    split.
    { apply list_elem_of_In.
      apply (in_map (λ entry, dirOutcome host options (staticDirName entry))).
      by apply list_elem_of_In. }
    unfold dirOutcome.
    destruct (dirRejection host options (staticDirName entry)) as [e|]; [by exists e|done]. }
  apply list_elem_of_In, in_map_iff in Hin as (entry & Hout & Hin).
  exists entry, e. split; [by apply list_elem_of_In|]. split; [|done].
  revert Hout. unfold dirOutcome.
  by destruct (dirRejection host options (staticDirName entry)); intros [= ->].
Qed.

Lemma collectedFavicons_exist path :
  path ∈ collectedFavicons host options → pathExists host path = JS.Ok true.
Proof.
  unfold collectedFavicons.
  rewrite list_elem_of_In, in_flat_map. intros (entry & _ & Hin).
  apply list_elem_of_In, list_elem_of_filter in Hin as [Hfound _].
  revert Hfound. unfold found. by destruct (pathExists host path) as [[|]|].
Qed.

Lemma collectedFavicons_truthy :
  (∀ dir file, file ≠ "" → pathJoin host dir file ≠ "") →
  Forall (λ path, JS.truthy path = true) (collectedFavicons host options).
Proof.
  intros Hjoin. apply Forall_forall. intros path.
  unfold collectedFavicons.
  rewrite list_elem_of_In, in_flat_map. intros (entry & _ & Hin).
  apply list_elem_of_In, list_elem_of_filter in Hin as [_ Hin].
  unfold faviconCandidates in Hin.
  destruct (parseStaticDir host _) as [parsed|e]; [|by apply not_elem_of_nil in Hin].
  destruct (String.eqb _ "/"); [|by apply not_elem_of_nil in Hin].
  apply truthy_nonempty.
  apply elem_of_cons in Hin as [->|Hin]; [by apply Hjoin|].
  apply list_elem_of_singleton in Hin as ->. by apply Hjoin.
Qed.

(** The rejection of a directory, call by call. *)
Lemma dirRejection_spec dir e :
  dirRejection host options dir = Some e
  ↔ parseStaticDir host (normalizedDirOf host options dir) = JS.Throw e
    ∨ ∃ parsed,
        parseStaticDir host (normalizedDirOf host options dir) = JS.Ok parsed
        ∧ targetEndpoint parsed = "/"
        ∧ (pathExists host (pathJoin host (staticPath parsed) "favicon.svg")
           = JS.Throw e
           ∨ (∃ present,
                pathExists host (pathJoin host (staticPath parsed) "favicon.svg")
                = JS.Ok present)
             ∧ pathExists host (pathJoin host (staticPath parsed) "favicon.ico")
               = JS.Throw e).
Proof.
  unfold dirRejection.
  destruct (parseStaticDir host _) as [parsed|e0]; cycle 1.
  { split; [intros [= ->]; by left|].
    intros [H|(p & Hp & _)]; [by injection H as ->|discriminate]. }
  destruct (String.eqb_spec (targetEndpoint parsed) "/") as [Hroot|Hother]; cycle 1.
  { split; [done|]. intros [H|(p & Hp & Hroot & _)]; [discriminate|].
    injection Hp as <-. done. }
  destruct (pathExists host (pathJoin host (staticPath parsed) "favicon.svg"))
    as [b|e1] eqn:Hsvg; cycle 1.
  { split.
    - intros [= ->]. right. exists parsed. split; [done|]. split; [done|]. by left.
    - intros [H|(p & Hp & _ & Hprobe)]; [discriminate|]. injection Hp as <-.
      rewrite Hsvg in Hprobe.
      destruct Hprobe as [H|[[f Hf] _]]; [by injection H as ->|discriminate]. }
  destruct (pathExists host (pathJoin host (staticPath parsed) "favicon.ico"))
    as [b'|e2] eqn:Hico.
  - split; [done|]. intros [H|(p & Hp & _ & Hprobe)]; [discriminate|].
    injection Hp as <-. rewrite Hsvg, Hico in Hprobe.
    destruct Hprobe as [H|[_ H]]; discriminate.
  - split.
    + intros [= ->]. right. exists parsed. split; [done|]. split; [done|].
      right. split; [by exists b|done].
    + intros [H|(p & Hp & _ & Hprobe)]; [discriminate|]. injection Hp as <-.
      rewrite Hsvg, Hico in Hprobe.
      destruct Hprobe as [H|[_ H]]; [discriminate|by injection H as ->].
Qed.

End FaviconFacts.

(** C3 (as amended).  A previous favicon value that is a non-empty string
    is returned unchanged, and the static dirs are not consulted.  With no
    previous value, or with the empty string, the preset asks for the
    static dirs and collects, from each one whose target endpoint is ['/'],
    the existing [favicon.svg] and then the existing [favicon.ico]; when
    none of the calls it awaits rejects, it returns the first path
    collected, or the bundled default when nothing was collected or there
    are no static dirs, and warns, still using the first, when it
    collected more than one.  When the call for the static dirs rejects,
    or parsing a static dir or probing one of its two files does, the
    preset rejects with that error and returns no favicon: it has asked
    for the static dirs and warns of nothing. *)
Theorem favicon_resolution defaultFavicon host value options :
  (∀ dir file, file ≠ "" → pathJoin host dir file ≠ "") →
  (∀ v, value = Some v → v ≠ "" →
        run (favicon defaultFavicon host value options) = (JS.Ok v, []))
  ∧ (value = None ∨ value = Some "" →
     (∀ dirs,
        appliedStaticDirs host = JS.Ok dirs →
        Forall (λ entry, dirRejection host options (staticDirName entry) = None)
               (staticDirsOf host) →
        run (favicon defaultFavicon host value options)
        = (JS.Ok (hd defaultFavicon (collectedFavicons host options)),
           PresetsApply "staticDirs"
           :: (if Nat.ltb 1 (length (collectedFavicons host options))
               then [LoggerWarn (multipleFaviconsWarning
                                   (collectedFavicons host options))]
               else [])))
     ∧ (∀ e,
          appliedStaticDirs host = JS.Throw e →
          run (favicon defaultFavicon host value options)
          = (JS.Throw e, [PresetsApply "staticDirs"]))
     ∧ (Exists (λ entry, dirRejection host options (staticDirName entry) ≠ None)
               (staticDirsOf host) →
        ∃ entry e,
          entry ∈ staticDirsOf host
          ∧ dirRejection host options (staticDirName entry) = Some e
          ∧ run (favicon defaultFavicon host value options)
            = (JS.Throw e, [PresetsApply "staticDirs"])))
  ∧ (∀ dirs, appliedStaticDirs host = JS.Ok dirs →
             dirs = None ∨ dirs = Some [] →
             collectedFavicons host options = [])
  ∧ (∀ path, path ∈ collectedFavicons host options →
             pathExists host path = JS.Ok true)
  ∧ (∀ dirs, appliedStaticDirs host = JS.Ok (Some dirs) →
     collectedFavicons host options
     = flat_map (λ entry,
                   filter (λ path, found host path = true)
                          (faviconCandidates host options (staticDirName entry)))
                dirs)
  ∧ (∀ dir parsed,
       parseStaticDir host
         (if isAbsolute host dir then dir
          else getDirectoryFromWorkingDir host (configDir options) (cwd host) dir)
       = JS.Ok parsed →
       faviconCandidates host options dir
       = if String.eqb (targetEndpoint parsed) "/"
         then [pathJoin host (staticPath parsed) "favicon.svg";
               pathJoin host (staticPath parsed) "favicon.ico"]
         else [])
  ∧ (∀ dir e,
       dirRejection host options dir = Some e
       ↔ parseStaticDir host (normalizedDirOf host options dir) = JS.Throw e
         ∨ ∃ parsed,
             parseStaticDir host (normalizedDirOf host options dir) = JS.Ok parsed
             ∧ targetEndpoint parsed = "/"
             ∧ (pathExists host (pathJoin host (staticPath parsed) "favicon.svg")
                = JS.Throw e
                ∨ (∃ present,
                     pathExists host (pathJoin host (staticPath parsed) "favicon.svg")
                     = JS.Ok present)
                  ∧ pathExists host (pathJoin host (staticPath parsed) "favicon.ico")
                    = JS.Throw e)).
Proof.
  intros Hjoin. split; [|split; [|split; [|split; [|split; [|split]]]]].
  - intros v -> Hv%truthy_nonempty. unfold favicon. by rewrite Hv.
  - intros Hvalue.
    assert (favicon defaultFavicon host value options
            = faviconFromStaticDirs defaultFavicon host options) as ->
      by (by destruct Hvalue as [-> | ->]).
    split; [|split].
    + intros dirs Happlied Hsettled.
      rewrite (faviconFromStaticDirs_settled _ _ _ dirs Happlied Hsettled).
      f_equal. f_equal.
      pose proof (collectedFavicons_truthy host options Hjoin) as Htruthy.
      destruct (collectedFavicons host options) as [|first rest]; [done|].
      apply Forall_cons in Htruthy as [-> _]. done.
    + intros e Happlied. by rewrite faviconFromStaticDirs_run, Happlied.
    + apply faviconFromStaticDirs_rejected.
  - unfold collectedFavicons, staticDirsOf. by intros dirs -> [-> | ->].
  - apply collectedFavicons_exist.
  - intros dirs Hdirs. unfold collectedFavicons, staticDirsOf. by rewrite Hdirs.
  - intros dir parsed Hparsed. unfold faviconCandidates, normalizedDirOf.
    by rewrite Hparsed.
  - apply dirRejection_spec.
Qed.

Lemma hostWithBothFavicons_join dir file :
  file ≠ "" → pathJoin hostWithBothFavicons dir file ≠ "".
Proof. intros _. simpl. by destruct dir. Qed.

(** The claim on a user-supplied favicon, on a host with both files in its
    static dir, and on a host one of whose static dirs does not exist. *)
Lemma favicon_resolution_witness :
  ((∀ dir file, file ≠ "" → pathJoin hostWithBothFavicons dir file ≠ "")
   ∧ (∀ dir file, file ≠ "" → pathJoin hostWithMissingDir dir file ≠ ""))
  ∧ run (favicon "/default/favicon.svg" hostWithBothFavicons (Some "custom.ico")
           someOptions)
    = (JS.Ok "custom.ico", [])
  ∧ run (favicon "/default/favicon.svg" hostWithBothFavicons None someOptions)
    = (JS.Ok "/app/public/favicon.svg",
       [PresetsApply "staticDirs";
        LoggerWarn (multipleFaviconsWarning
                      ["/app/public/favicon.svg"; "/app/public/favicon.ico"])])
  ∧ (∃ entry e,
       entry ∈ staticDirsOf hostWithMissingDir
       ∧ dirRejection hostWithMissingDir someOptions (staticDirName entry) = Some e
       ∧ run (favicon "/default/favicon.svg" hostWithMissingDir None someOptions)
         = (JS.Throw e, [PresetsApply "staticDirs"])).
Proof.
  assert ("custom.ico" ≠ "") as Hne by discriminate.
  split; [split; exact hostWithBothFavicons_join|].
  split; [|split].
  - exact (proj1 (favicon_resolution "/default/favicon.svg" hostWithBothFavicons
                    (Some "custom.ico") someOptions hostWithBothFavicons_join)
                 "custom.ico" eq_refl Hne).
  - destruct (favicon_resolution "/default/favicon.svg" hostWithBothFavicons
                None someOptions hostWithBothFavicons_join)
      as (_ & Hdirs & _).
    destruct (Hdirs (or_introl eq_refl)) as (Hsettled & _).
    apply (Hsettled (Some [DirPath "/app/public"]) eq_refl).
    by repeat constructor.
  - destruct (favicon_resolution "/default/favicon.svg" hostWithMissingDir
                None someOptions hostWithBothFavicons_join)
      as (_ & Hdirs & _).
    destruct (Hdirs (or_introl eq_refl)) as (_ & _ & Hrejected).
    apply Hrejected. apply Exists_cons_tl, Exists_cons_hd. discriminate.
Defined.

(** C3, as stated, fails on the empty string: it is a value, yet the
    preset asks for the static dirs and returns the favicon found there.
    It also fails where a static dir cannot be parsed: the preset then
    returns neither a collected path nor the default, it rejects. *)
Lemma favicon_empty_value_consults_static_dirs :
  run (favicon "/default/favicon.svg" hostWithBothFavicons (Some "") someOptions)
  = (JS.Ok "/app/public/favicon.svg",
     [PresetsApply "staticDirs";
      LoggerWarn (multipleFaviconsWarning
                    ["/app/public/favicon.svg"; "/app/public/favicon.ico"])])
  ∧ "/app/public/favicon.svg" ≠ ""
  ∧ run (favicon "/default/favicon.svg" hostWithMissingDir None someOptions)
    = (JS.Throw (JS.ErrorObject "Failed to load static files"),
       [PresetsApply "staticDirs"]).
Proof. split; [reflexivity|]. split; [discriminate|reflexivity]. Qed.

Section EnvFacts.

Variable toUpperCase : string → string.

Lemma optionalEnvToBoolean_false s :
  optionalEnvToBoolean toUpperCase (Some s) = Some false ↔ toUpperCase s = "FALSE".
Proof.
  unfold optionalEnvToBoolean.
  destruct (String.eqb_spec (toUpperCase s) "FALSE") as [Heq|Hne]; [done|].
  split; [|done]. by destruct (String.eqb (toUpperCase s) "TRUE").
Qed.

Lemma optionalEnvToBoolean_true s :
  optionalEnvToBoolean toUpperCase (Some s) = Some true ↔ toUpperCase s ≠ "FALSE".
Proof.
  unfold optionalEnvToBoolean.
  destruct (String.eqb_spec (toUpperCase s) "FALSE") as [Heq|Hne]; [done|].
  split; [done|]. by destruct (String.eqb (toUpperCase s) "TRUE").
Qed.

Lemma optionalEnvToBoolean_defined s :
  optionalEnvToBoolean toUpperCase (Some s) = Some false
  ∨ optionalEnvToBoolean toUpperCase (Some s) = Some true.
Proof.
  unfold optionalEnvToBoolean.
  destruct (String.eqb (toUpperCase s) "FALSE"); [by left|right].
  by destruct (String.eqb (toUpperCase s) "TRUE").
Qed.

End EnvFacts.

(** C10.  [optionalEnvToBoolean] returns [undefined] exactly on [undefined];
    on a string it returns [false] exactly when the string upper-cases to
    ['FALSE'] and [true] on every other string, ['0'], ['no'] and the empty
    string among them.  [toUpperCase] is any function that upper-cases
    7-bit strings letter by letter. *)
Theorem optionalEnvToBoolean_total toUpperCase :
  (∀ s, JS.isAscii s = true → toUpperCase s = JS.asciiUpper s) →
  (∀ input, optionalEnvToBoolean toUpperCase input = None ↔ input = None)
  ∧ (∀ s, optionalEnvToBoolean toUpperCase (Some s) = Some false
          ↔ toUpperCase s = "FALSE")
  ∧ (∀ s, optionalEnvToBoolean toUpperCase (Some s) = Some true
          ↔ toUpperCase s ≠ "FALSE")
  ∧ optionalEnvToBoolean toUpperCase (Some "0") = Some true
  ∧ optionalEnvToBoolean toUpperCase (Some "no") = Some true
  ∧ optionalEnvToBoolean toUpperCase (Some "") = Some true
  ∧ optionalEnvToBoolean toUpperCase (Some "false") = Some false
  ∧ optionalEnvToBoolean toUpperCase (Some "False") = Some false.
Proof.
  intros Hascii. split; [|split; [|split]].
  - intros [s|]; [|done]. split; [|done].
    by destruct (optionalEnvToBoolean_defined toUpperCase s) as [-> | ->].
  - apply optionalEnvToBoolean_false.
  - apply optionalEnvToBoolean_true.
  - repeat split;
      first [ apply optionalEnvToBoolean_true | apply optionalEnvToBoolean_false ];
      rewrite Hascii by reflexivity; simpl; done.
Qed.

(** The claim with the letter-by-letter upper-casing itself. *)
Lemma optionalEnvToBoolean_total_witness :
  optionalEnvToBoolean JS.asciiUpper (Some "0") = Some true
  ∧ optionalEnvToBoolean JS.asciiUpper (Some "false") = Some false.
Proof.
  pose proof (optionalEnvToBoolean_total JS.asciiUpper (λ s _, eq_refl))
    as (_ & _ & _ & Hzero & _ & _ & Hfalse & _).
  exact (conj Hzero Hfalse).
Defined.

(** C7 (as amended).  [core] keeps every field of the existing config but
    [disableTelemetry] and [enableCrashReports]; [disableTelemetry] is
    [true] exactly when [options.disableTelemetry] or [options.test] is
    [true]; [enableCrashReports] is [true] when
    [options.enableCrashReports] is [true], and in every other case, an
    explicit [false] included, it is what [STORYBOOK_ENABLE_CRASH_REPORTS]
    gives. *)
Theorem core_merges toUpperCase processEnv (existing : gmap string JS.Value) options :
  (∀ field, field ≠ "disableTelemetry" → field ≠ "enableCrashReports" →
            core toUpperCase processEnv existing options !! field = existing !! field)
  ∧ (∃ b, core toUpperCase processEnv existing options !! "disableTelemetry"
          = Some (JS.VBool b)
          ∧ (b = true ↔ disableTelemetry options = Some true ∨ test options = Some true))
  ∧ (enableCrashReports options = Some true →
     core toUpperCase processEnv existing options !! "enableCrashReports"
     = Some (JS.VBool true))
  ∧ (enableCrashReports options ≠ Some true →
     core toUpperCase processEnv existing options !! "enableCrashReports"
     = Some (valueOfBool
               (optionalEnvToBoolean toUpperCase
                  (processEnv !! "STORYBOOK_ENABLE_CRASH_REPORTS")))).
Proof.
  unfold core. split; [|split; [|split]].
  - intros field Htelemetry Hcrash. by rewrite !lookup_insert_ne.
  - eexists. rewrite lookup_insert_ne by done. rewrite lookup_insert_eq.
    split; [reflexivity|].
    rewrite orb_true_iff, !bool_decide_eq_true. done.
  - intros ->. by rewrite lookup_insert_eq.
  - intros Hcrash. rewrite lookup_insert_eq. do 2 f_equal.
    destruct (enableCrashReports options) as [[|]|]; done.
Qed.

(** The claim with the flag passed on the command line. *)
Lemma core_merges_witness :
  enableCrashReports
    {| configDir := ".storybook"; disableTelemetry := None; test := Some true;
       enableCrashReports := Some true |} = Some true
  ∧ core JS.asciiUpper ∅ {[ "builder" := JS.VString "webpack5" ]}
      {| configDir := ".storybook"; disableTelemetry := None; test := Some true;
         enableCrashReports := Some true |} !! "enableCrashReports"
    = Some (JS.VBool true).
Proof.
  split; [reflexivity|].
  exact (proj1 (proj2 (proj2 (core_merges JS.asciiUpper ∅
                                {[ "builder" := JS.VString "webpack5" ]}
                                {| configDir := ".storybook"; disableTelemetry := None;
                                   test := Some true; enableCrashReports := Some true |})))
               eq_refl).
Defined.

(** C7, as stated, fails when [options.enableCrashReports] is set to
    [false]: the environment variable decides. *)
Lemma core_explicit_false_overridden :
  enableCrashReports
    {| configDir := ".storybook"; disableTelemetry := None; test := None;
       enableCrashReports := Some false |} = Some false
  ∧ core JS.asciiUpper {[ "STORYBOOK_ENABLE_CRASH_REPORTS" := "true" ]} ∅
      {| configDir := ".storybook"; disableTelemetry := None; test := None;
         enableCrashReports := Some false |} !! "enableCrashReports"
    = Some (JS.VBool true)
  ∧ JS.VBool true ≠ valueOfBool (Some false).
Proof. split; [reflexivity|]. split; [reflexivity|discriminate]. Qed.

(** ** The server channel *)

Lemma truthyString_Some (value : option string) :
  truthyString value = true ↔ ∃ s, value = Some s ∧ s ≠ "".
Proof.
  destruct value as [s|]; simpl.
  - rewrite truthy_nonempty. split; [by exists s|by intros (? & [= <-] & ?)].
  - split; [done|by intros (? & ? & ?)].
Qed.

Section WhatsNewFacts.

Variable host : Host.
Variable options : Options.

(** A step that fails ends the handler with the log and the error result. *)
Lemma onRequestWhatsNewData_failure e :
  WhatsNewFailure host options e →
  run (onRequestWhatsNewData host options)
  = (JS.Ok tt, [LoggerVerbose (messageOrString e); EmitResultWhatsNewData WhatsNewError]).
Proof.
  unfold onRequestWhatsNewData.
  destruct 1 as [e Hfetch|response Hfetch Hok|response e Hfetch Hok Hjson
                |post (response & Hfetch & Hok & Hjson) Hmain
                |post path e (response & Hfetch & Hok & Hjson) Hfind Hpath Hread
                |post main e (response & Hfetch & Hok & Hjson)
                   (path & Hfind & Hpath & Hread) Hfield
                |post main disable e (response & Hfetch & Hok & Hjson)
                   (path & Hfind & Hpath & Hread) Hfield Hcache];
    unfold_eff; rewrite Hfetch; simpl; try rewrite Hok; try rewrite Hjson; try done.
  - by rewrite Hmain.
  - rewrite Hfind. simpl. apply truthy_nonempty in Hpath. by rewrite Hpath, Hread.
  - rewrite Hfind. simpl. apply truthy_nonempty in Hpath.
    by rewrite Hpath, Hread, Hfield.
  - rewrite Hfind. simpl. apply truthy_nonempty in Hpath.
    by rewrite Hpath, Hread, Hfield, Hcache.
Qed.

(** When every step succeeds the handler emits the post with its flags. *)
Lemma onRequestWhatsNewData_success post disableWhatsNewNotifications cache :
  WhatsNewSteps host options post disableWhatsNewNotifications cache →
  run (onRequestWhatsNewData host options)
  = (JS.Ok tt,
     [EmitResultWhatsNewData
        (WhatsNewSuccess post
           (bool_decide (Some (url post) = lastReadPost cache))
           (bool_decide (Some (url post) ≠ lastDismissedPost cache)
            && bool_decide (Some (url post) ≠ lastReadPost cache))
           disableWhatsNewNotifications)]).
Proof.
  intros ((response & Hfetch & Hok & Hjson)
          & main & cached & (path & Hfind & Hpath & Hread) & Hfield & Hcache & ->).
  unfold onRequestWhatsNewData. unfold_eff.
  rewrite Hfetch. simpl. rewrite Hok, Hjson, Hfind. simpl.
  apply truthy_nonempty in Hpath. by rewrite Hpath, Hread, Hfield, Hcache.
Qed.

(** One of the two happens. *)
Lemma WhatsNewSteps_or_failure :
  (∃ post disableWhatsNewNotifications cache,
     WhatsNewSteps host options post disableWhatsNewNotifications cache)
  ∨ (∃ e, WhatsNewFailure host options e).
Proof.
  destruct (fetch host WHATS_NEW_URL) as [response|e] eqn:Hfetch;
    [|right; eexists; by apply fetch_throws].
  destruct (ok response) eqn:Hok;
    [|right; eexists; by eapply response_not_ok].
  destruct (json response) as [post|e] eqn:Hjson;
    [|right; eexists; by eapply json_throws].
  assert (Fetched host post) as Hfetched by (by exists response).
  destruct (truthyString (findConfigFile host "main" (configDir options))) eqn:Hfind;
    [|right; eexists; by eapply main_config_not_found].
  apply truthyString_Some in Hfind as (path & Hfind & Hpath).
  destruct (readConfig host path) as [main|e] eqn:Hread;
    [|right; eexists; by eapply readConfig_throws].
  assert (MainConfigRead host options main) as Hmain by (by exists path).
  destruct (getFieldValue host main ["core"; "disableWhatsNewNotifications"])
    as [disable|e] eqn:Hfield;
    [|right; eexists; by eapply getFieldValue_throws].
  destruct (cacheGet host WHATS_NEW_CACHE) as [cached|e] eqn:Hcache;
    [|right; eexists; by eapply cacheGet_throws].
  left. exists post, disable, (default emptyCache cached).
  split; [done|]. by exists main, cached.
Qed.

End WhatsNewFacts.

(** C4.  The [REQUEST_WHATS_NEW_DATA] handler always returns: when a step
    fails (the response is not ok, [fetch] or the JSON parse throws, no
    main config file is found, reading the config or the cache throws) it
    logs the error at verbose level and emits [RESULT_WHATS_NEW_DATA] with
    [{ status: 'ERROR' }]; when every step succeeds it emits the fetched
    post with status ['SUCCESS'], [postIsRead] true exactly when [post.url]
    is the cached [lastReadPost], and [showNotification] true exactly when
    [post.url] is neither the cached [lastDismissedPost] nor
    [lastReadPost]. *)
Theorem request_whats_new_data_recovers host options :
  (∀ e, WhatsNewFailure host options e →
        run (onRequestWhatsNewData host options)
        = (JS.Ok tt, [LoggerVerbose (messageOrString e);
                      EmitResultWhatsNewData WhatsNewError]))
  ∧ (∀ post disableWhatsNewNotifications cache,
       WhatsNewSteps host options post disableWhatsNewNotifications cache →
       ∃ postIsRead showNotification,
         run (onRequestWhatsNewData host options)
         = (JS.Ok tt,
            [EmitResultWhatsNewData
               (WhatsNewSuccess post postIsRead showNotification
                                disableWhatsNewNotifications)])
         ∧ (postIsRead = true ↔ Some (url post) = lastReadPost cache)
         ∧ (showNotification = true
            ↔ Some (url post) ≠ lastDismissedPost cache
              ∧ Some (url post) ≠ lastReadPost cache))
  ∧ (∃ trace, run (onRequestWhatsNewData host options) = (JS.Ok tt, trace))
  ∧ ((∃ post disableWhatsNewNotifications cache,
        WhatsNewSteps host options post disableWhatsNewNotifications cache)
     ∨ (∃ e, WhatsNewFailure host options e)).
Proof.
  split; [apply onRequestWhatsNewData_failure|]. split; [|split].
  - intros post disable cache Hsteps. eexists _, _.
    split; [by apply onRequestWhatsNewData_success|].
    rewrite andb_true_iff, !bool_decide_eq_true. done.
  - destruct (WhatsNewSteps_or_failure host options)
      as [(post & disable & cache & Hsteps)|(e & Hfail)].
    + eexists. by apply onRequestWhatsNewData_success.
    + eexists. by apply onRequestWhatsNewData_failure.
  - apply WhatsNewSteps_or_failure.
Qed.

(** The claim on a host without network, and on one where all succeeds. *)
Lemma request_whats_new_data_recovers_witness :
  (WhatsNewFailure (offlineHost ∅) someOptions
     (JS.ErrorObject "getaddrinfo ENOTFOUND storybook.js.org")
   ∧ run (onRequestWhatsNewData (offlineHost ∅) someOptions)
     = (JS.Ok tt, [LoggerVerbose "getaddrinfo ENOTFOUND storybook.js.org";
                   EmitResultWhatsNewData WhatsNewError]))
  ∧ (WhatsNewSteps (onlineHost ∅) someOptions latestPost (JS.VBool false)
       {| lastDismissedPost := None; lastReadPost := Some (url latestPost) |}
     ∧ run (onRequestWhatsNewData (onlineHost ∅) someOptions)
       = (JS.Ok tt, [EmitResultWhatsNewData
                       (WhatsNewSuccess latestPost true false (JS.VBool false))])).
Proof.
  assert (WhatsNewFailure (offlineHost ∅) someOptions
            (JS.ErrorObject "getaddrinfo ENOTFOUND storybook.js.org")) as Hfail
    by (by apply fetch_throws).
  assert (WhatsNewSteps (onlineHost ∅) someOptions latestPost (JS.VBool false)
            {| lastDismissedPost := None; lastReadPost := Some (url latestPost) |})
    as Hsteps.
  { split; [by eexists|]. exists false, (Some {| lastDismissedPost := None;
                                                lastReadPost := Some (url latestPost) |}).
    split; [|done]. exists ".storybook/main.ts". done. }
  split.
  - split; [exact Hfail|].
    exact (proj1 (request_whats_new_data_recovers (offlineHost ∅) someOptions) _ Hfail).
  - split; [exact Hsteps|reflexivity].
Defined.

(** *** Telemetry *)

Lemma Quiet_ret {A} (a : A) : Quiet (mret a).
Proof. by intros trace Htrace. Qed.

Lemma Quiet_throw {A} e : Quiet (@throw A e).
Proof. by intros trace Htrace. Qed.

Lemma Quiet_settle {A} (outcome : JS.Result A) : Quiet (settle outcome).
Proof. by intros trace Htrace. Qed.

Lemma Quiet_call ev : isTelemetryCall ev = false → Quiet (call ev).
Proof.
  intros Hev trace Htrace. simpl. apply Forall_app. split; [done|by constructor].
Qed.

Lemma Quiet_external {A} ev (outcome : JS.Result A) :
  isTelemetryCall ev = false → Quiet (external ev outcome).
Proof.
  intros Hev trace Htrace. simpl. apply Forall_app. split; [done|by constructor].
Qed.

Lemma Quiet_bind {A B} (m : Eff A) (f : A → Eff B) :
  Quiet m → (∀ a, Quiet (f a)) → Quiet (m ≫= f).
Proof.
  intros Hm Hf trace Htrace. specialize (Hm trace Htrace).
  unfold mbind, eff_mbind, eff_bind.
  destruct (m trace) as [[a|e] trace']; [by apply Hf|done].
Qed.

Lemma Quiet_try_catch {A} (body : Eff A) (handler : JS.Thrown → Eff A) :
  Quiet body → (∀ e, Quiet (handler e)) → Quiet (try_catch body handler).
Proof.
  intros Hbody Hhandler trace Htrace. specialize (Hbody trace Htrace).
  unfold try_catch.
  destruct (body trace) as [[a|e] trace']; [done|by apply Hhandler].
Qed.

Lemma Quiet_invariant condition message : Quiet (invariant condition message).
Proof. destruct condition; [apply Quiet_ret|apply Quiet_throw]. Qed.

Lemma Quiet_if {A} (b : bool) (m1 m2 : Eff A) :
  (b = true → Quiet m1) → (b = false → Quiet m2) → Quiet (if b then m1 else m2).
Proof. destruct b; auto. Qed.

Create HintDb quiet.
#[local] Hint Resolve Quiet_ret Quiet_throw Quiet_settle Quiet_invariant : quiet.
#[local] Hint Extern 2 (Quiet (call _)) => apply Quiet_call; reflexivity : quiet.
#[local] Hint Extern 2 (Quiet (external _ _)) =>
  apply Quiet_external; reflexivity : quiet.
#[local] Hint Extern 3 (Quiet (_ ≫= _)) => apply Quiet_bind; [|intros ?] : quiet.
#[local] Hint Extern 3 (Quiet (try_catch _ _)) =>
  apply Quiet_try_catch; [|intros ?] : quiet.
#[local] Hint Extern 4 (Quiet (if _ then _ else _)) =>
  apply Quiet_if; intros ? : quiet.

Section TelemetryFacts.

Variable host : Host.
Variable options : Options.

Lemma onSetWhatsNewCache_Quiet data : Quiet (onSetWhatsNewCache host data).
Proof. unfold onSetWhatsNewCache. auto 10 with quiet. Qed.

Lemma onRequestWhatsNewData_Quiet : Quiet (onRequestWhatsNewData host options).
Proof. unfold onRequestWhatsNewData. auto 15 with quiet. Qed.

Lemma onToggleWhatsNewNotifications_Quiet coreOptions disableWhatsNewNotifications :
  isTelemetryEnabled coreOptions = false →
  Quiet (onToggleWhatsNewNotifications host options coreOptions
           disableWhatsNewNotifications).
Proof.
  intros Hdisabled. unfold onToggleWhatsNewNotifications. rewrite Hdisabled.
  auto 15 with quiet.
Qed.

Lemma onTelemetryError_disabled coreOptions error :
  isTelemetryEnabled coreOptions = false →
  onTelemetryError host coreOptions error = mret tt.
Proof. intros Hdisabled. unfold onTelemetryError. by rewrite Hdisabled. Qed.

(** With telemetry enabled the browser's error is relayed. *)
Lemma onTelemetryError_enabled coreOptions error :
  isTelemetryEnabled coreOptions = true →
  (run (onTelemetryError host coreOptions error)).2
  = [SendTelemetryError error "browser"].
Proof. intros Henabled. unfold onTelemetryError. by rewrite Henabled. Qed.

Lemma isTelemetryEnabled_false (coreOptions : gmap string JS.Value) :
  isTelemetryEnabled coreOptions = false
  ↔ coreOptions !! "disableTelemetry" = Some (JS.VBool true).
Proof.
  unfold isTelemetryEnabled.
  destruct (coreOptions !! "disableTelemetry") as [[|[|]| |]|]; split; congruence.
Qed.

End TelemetryFacts.

(** C5.  When the applied [core] config has [disableTelemetry === true], no
    handler of the server channel relays telemetry: the [TELEMETRY_ERROR]
    handler makes no call at all, so none to [sendTelemetryError], and the
    [TOGGLE_WHATS_NEW_NOTIFICATIONS] handler calls neither [telemetry] nor
    [sendTelemetryError], whether writing the main config succeeds or
    fails. *)
Theorem telemetry_disabled_never_relayed host options :
  appliedCore host !! "disableTelemetry" = Some (JS.VBool true) →
  ∃ channel,
    run (experimental_serverChannel host options)
    = (JS.Ok channel, [PresetsApply "core"])
    ∧ (∀ error, run (channel (TELEMETRY_ERROR error)) = (JS.Ok tt, []))
    ∧ (∀ disableWhatsNewNotifications ev,
         ev ∈ (run (channel (TOGGLE_WHATS_NEW_NOTIFICATIONS
                               disableWhatsNewNotifications))).2 →
         (∀ eventType payload, ev ≠ Telemetry eventType payload)
         ∧ (∀ error eventType, ev ≠ SendTelemetryError error eventType))
    ∧ (∀ event trace,
         Forall (λ ev, isTelemetryCall ev = false) trace →
         Forall (λ ev, isTelemetryCall ev = false) (channel event trace).2).
Proof.
  intros Hdisabled%isTelemetryEnabled_false.
  eexists. split; [reflexivity|]. cbv beta. split; [|split].
  - intros error. by rewrite onTelemetryError_disabled.
  - intros disable ev Hev.
    pose proof (onToggleWhatsNewNotifications_Quiet host options _ disable Hdisabled
                  [] ltac:(constructor)) as Hquiet.
    rewrite Forall_forall in Hquiet. specialize (Hquiet ev Hev).
    split; intros ? ? ->; discriminate.
  - intros [data| |disable|error].
    + apply onSetWhatsNewCache_Quiet.
    + apply onRequestWhatsNewData_Quiet.
    + by apply onToggleWhatsNewNotifications_Quiet.
    + rewrite onTelemetryError_disabled by done. apply Quiet_ret.
Qed.

(** The claim on a host whose [core] config disables telemetry. *)
Lemma telemetry_disabled_never_relayed_witness :
  appliedCore (onlineHost {[ "disableTelemetry" := JS.VBool true ]})
    !! "disableTelemetry" = Some (JS.VBool true)
  ∧ ∃ channel,
      run (experimental_serverChannel
             (onlineHost {[ "disableTelemetry" := JS.VBool true ]}) someOptions)
      = (JS.Ok channel, [PresetsApply "core"])
      ∧ run (channel (TELEMETRY_ERROR (JS.ErrorObject "render failed")))
        = (JS.Ok tt, []).
Proof.
  assert (appliedCore (onlineHost {[ "disableTelemetry" := JS.VBool true ]})
            !! "disableTelemetry" = Some (JS.VBool true)) as Hdisabled
    by apply lookup_singleton_eq.
  split; [exact Hdisabled|].
  destruct (telemetry_disabled_never_relayed
              (onlineHost {[ "disableTelemetry" := JS.VBool true ]}) someOptions
              Hdisabled) as (channel & Hrun & Herror & _).
  exists channel. split; [exact Hrun|apply Herror].
Defined.

(** With telemetry left enabled the same handlers do relay. *)
Example telemetry_enabled_relays :
  run (onTelemetryError (onlineHost ∅) ∅ (JS.ErrorObject "render failed"))
  = (JS.Ok tt, [SendTelemetryError (JS.ErrorObject "render failed") "browser"])
  ∧ run (onToggleWhatsNewNotifications (onlineHost ∅) someOptions ∅ true)
    = (JS.Ok tt, [FsWriteFile ".storybook/main.ts" "on";
                  Telemetry "core-config" true]).
Proof. split; reflexivity. Qed.

(** With telemetry disabled the toggle still writes the main config. *)
Example toggle_disabled_still_writes :
  run (onToggleWhatsNewNotifications
         (onlineHost {[ "disableTelemetry" := JS.VBool true ]}) someOptions
         {[ "disableTelemetry" := JS.VBool true ]} true)
  = (JS.Ok tt, [FsWriteFile ".storybook/main.ts" "on"]).
Proof. reflexivity. Qed.

(* ===================================================================== *)
(** * Further properties *)
(* ===================================================================== *)

(** ** The router provider *)

Section RouterMore.

Variable key : string.

Lemma walkedSegments_routesOf root l :
  Forall (λ segment, ∃ s, segment = SegString s)
         (walkedSegments key (FRS root [("children", routesOf l)])).
Proof.
  revert root. induction l as [|s rest IH]; intros root; [constructor|].
  rewrite walkedSegments_cons. simpl routesOf.
  destruct (JS.truthy s); [|constructor].
  destruct (skipped key (SegString s)); [constructor|].
  constructor; [by exists s|]. apply Forall_app. split; [apply IH|constructor].
Qed.

Lemma assignedParams_strings segs (params : Params) :
  Forall (λ segment, ∃ s, segment = SegString s) segs →
  assignedParams segs params = params.
Proof. induction 1 as [|segment segs [s ->] _ IH]; [done|]. exact IH. Qed.

Lemma getSelectedParams_routesOf root l params :
  getSelectedParams key (FRS root [("children", routesOf l)]) params = JS.Ok params.
Proof.
  rewrite (getSelectedParams_walked key _ _ _ params eq_refl).
  by rewrite assignedParams_strings by apply walkedSegments_routesOf.
Qed.

(** The provider's result, in full. *)
Lemma AppRouterProvider_contexts routeParams (σ : JS.Store) :
  (AppRouterProvider key routeParams σ).1
  = JS.Ok {| tree := FRS (SegString (pathname routeParams))
                         [("children", routesOf (providedSegments routeParams σ))];
             pathParams := ∅;
             nextUrl := pathname routeParams |}.
Proof.
  unfold AppRouterProvider, providedSegments.
  destruct (segments routeParams) as [r|].
  - unfold JS.alloc. cbv zeta.
    rewrite (getParallelRoutes_contents _ _ (JS.contents σ r))
      by apply lookup_insert_eq.
    by rewrite getSelectedParams_routesOf.
  - unfold JS.alloc. cbv zeta.
    rewrite (getParallelRoutes_contents _ _
               (JS.contents (<[fresh (dom σ) := []]> σ) (fresh (dom σ))))
      by apply lookup_insert_eq.
    rewrite getSelectedParams_routesOf.
    unfold JS.contents. by rewrite lookup_insert_eq.
Qed.

End RouterMore.

Lemma AppRouterProvider_providedSegments key routeParams (σ : JS.Store) :
  (∀ r, segments routeParams = Some r → is_Some (σ !! r)) →
  providedSegments routeParams (AppRouterProvider key routeParams σ).2
  = providedSegments routeParams σ.
Proof.
  intros Hallocated. unfold providedSegments.
  destruct (segments routeParams) as [r|] eqn:Hr; [|done].
  destruct (Hallocated r eq_refl) as [l Hl].
  destruct (AppRouterProvider_run key routeParams σ)
    as (contexts & σ' & Hrun & _ & _ & Hsub).
  rewrite Hrun. simpl. unfold JS.contents.
  by rewrite (lookup_weaken _ _ _ _ Hl Hsub), Hl.
Qed.

(** X2.  Rendering again gives the same contexts: run on the store its
    first run left behind, the provider returns the same tree, path
    parameters and url, because the first run did not touch the [segments]
    array. *)
Theorem AppRouterProvider_rerender key routeParams (σ : JS.Store) :
  (∀ r, segments routeParams = Some r → is_Some (σ !! r)) →
  (AppRouterProvider key routeParams (AppRouterProvider key routeParams σ).2).1
  = (AppRouterProvider key routeParams σ).1.
Proof.
  intros Hallocated. rewrite !AppRouterProvider_contexts.
  by rewrite AppRouterProvider_providedSegments.
Qed.

Lemma AppRouterProvider_rerender_witness :
  (∀ r, segments {| pathname := "/blog/post"; query := []; segments := Some 0 |}
        = Some r →
        is_Some (({[ 0 := ["blog"; "post"] ]} : JS.Store) !! r))
  ∧ (AppRouterProvider NEXT_PAGE_SEGMENT_KEY
       {| pathname := "/blog/post"; query := []; segments := Some 0 |}
       (AppRouterProvider NEXT_PAGE_SEGMENT_KEY
          {| pathname := "/blog/post"; query := []; segments := Some 0 |}
          {[ 0 := ["blog"; "post"] ]}).2).1
    = (AppRouterProvider NEXT_PAGE_SEGMENT_KEY
         {| pathname := "/blog/post"; query := []; segments := Some 0 |}
         {[ 0 := ["blog"; "post"] ]}).1.
Proof.
  assert (∀ r, segments {| pathname := "/blog/post"; query := []; segments := Some 0 |}
               = Some r →
               is_Some (({[ 0 := ["blog"; "post"] ]} : JS.Store) !! r)) as Hallocated.
  { intros r [= <-]. rewrite lookup_singleton_eq. by eexists. }
  split; [exact Hallocated|].
  exact (AppRouterProvider_rerender NEXT_PAGE_SEGMENT_KEY _ _ Hallocated).
Defined.

Lemma truthyPrefix_leftover l :
  l = truthyPrefix l ∨ l = truthyPrefix l ++ "" :: leftover l.
Proof.
  induction l as [|s rest IH]; [by left|].
  simpl. destruct s as [|c s']; simpl; [by right|].
  destruct IH as [IH|IH]; [left|right]; by rewrite <- IH.
Qed.

(** X3.  What [getParallelRoutes] takes off the array is the segments of
    the tree and, when there is one, the empty string that ended it: the
    array keeps the elements behind that empty string, untouched.  On an
    array without an empty string it is left empty, and a second call on
    the same array returns the empty tree. *)
Theorem getParallelRoutes_consumes r (σ : JS.Store) l :
  σ !! r = Some l →
  ∃ consumed,
    segmentsAlong "children" (getParallelRoutes r σ).1 = SegString <$> consumed
    ∧ (l = consumed ∧ JS.contents (getParallelRoutes r σ).2 r = []
       ∨ l = consumed ++ "" :: JS.contents (getParallelRoutes r σ).2 r)
    ∧ (∀ r', r' ≠ r → (getParallelRoutes r σ).2 !! r' = σ !! r')
    ∧ (Forall (λ s, s ≠ "") l →
       (getParallelRoutes r σ).2 !! r = Some []
       ∧ getParallelRoutes r (getParallelRoutes r σ).2
         = (FRSEmpty, (getParallelRoutes r σ).2)).
Proof.
  intros Hl. exists (truthyPrefix l).
  rewrite (getParallelRoutes_contents r σ l Hl). simpl.
  unfold JS.contents. rewrite lookup_insert_eq. simpl.
  split; [apply segmentsAlong_routesOf|]. split; [|split].
  - destruct (truthyPrefix_leftover l) as [Hall|Hcut]; [left|by right].
    split; [done|]. rewrite Hall. clear Hall Hl.
    induction l as [|s rest IH]; [done|]. simpl.
    destruct (JS.truthy s) eqn:Hs; [simpl; by rewrite Hs|done].
  - intros r' Hne. by rewrite lookup_insert_ne.
  - intros Hall.
    assert (leftover l = []) as ->.
    { clear Hl. induction Hall as [|s rest Hs%truthy_nonempty _ IH]; [done|].
      simpl. by rewrite Hs. }
    split; [done|].
    rewrite (getParallelRoutes_contents r _ []) by apply lookup_insert_eq.
    simpl. by rewrite insert_insert_eq.
Qed.

Lemma getParallelRoutes_consumes_witness :
  ({[ 0 := ["blog"; ""; "post"] ]} : JS.Store) !! 0 = Some ["blog"; ""; "post"]
  ∧ ∃ consumed,
      segmentsAlong "children"
        (getParallelRoutes 0 {[ 0 := ["blog"; ""; "post"] ]}).1
      = SegString <$> consumed
      ∧ (["blog"; ""; "post"] = consumed
         ∧ JS.contents (getParallelRoutes 0 {[ 0 := ["blog"; ""; "post"] ]}).2 0 = []
         ∨ ["blog"; ""; "post"]
           = consumed
             ++ "" :: JS.contents (getParallelRoutes 0 {[ 0 := ["blog"; ""; "post"] ]}).2 0).
Proof.
  assert (({[ 0 := ["blog"; ""; "post"] ]} : JS.Store) !! 0
          = Some ["blog"; ""; "post"]) as Hl by apply lookup_singleton_eq.
  split; [exact Hl|].
  destruct (getParallelRoutes_consumes 0 _ _ Hl) as (consumed & Htree & Hsplit & _).
  exists consumed. split; [exact Htree|exact Hsplit].
Defined.

Section ParamsMore.

Variable key : string.

Lemma paramsOfSegments_defaults segs (params : Params) :
  paramsOfSegments key segs params = paramsOfSegments key segs ∅ ∪ params.
Proof.
  revert params. induction segs as [|segment segs IH]; intros params.
  - unfold paramsOfSegments. simpl. by rewrite (left_id_L ∅ (∪)).
  - rewrite !paramsOfSegments_step.
    destruct (paramOf key segment) as [[name value]|]; [|apply IH].
    rewrite IH, (IH (<[name := value]> ∅)).
    rewrite <- (assoc_L (∪)). f_equal.
    rewrite insert_empty. by rewrite insert_union_singleton_l.
Qed.

Lemma split_nonempty sep s : JS.split sep s ≠ [].
Proof.
  destruct s as [|c rest]; simpl; [done|].
  destruct (Ascii.eqb c sep); [done|]. by destruct (JS.split sep rest).
Qed.

Lemma join_cons sep p parts :
  parts ≠ [] → JS.join sep (p :: parts) = p +:+ sep +:+ JS.join sep parts.
Proof. by destruct parts. Qed.

(** Joining what [split] returned gives the string back. *)
Lemma join_split (sep : ascii) s :
  JS.join (String sep EmptyString) (JS.split sep s) = s.
Proof.
  induction s as [|c rest IH]; [done|]. simpl.
  destruct (Ascii.eqb_spec c sep) as [->|Hne].
  - rewrite join_cons by apply split_nonempty. simpl. by rewrite IH.
  - pose proof (split_nonempty sep rest) as Hparts.
    destruct (JS.split sep rest) as [|piece pieces] eqn:Hsplit; [done|].
    destruct pieces as [|piece' pieces'].
    + simpl in *. by rewrite IH.
    + rewrite join_cons by done. rewrite join_cons in IH by done.
      by rewrite <- IH.
Qed.

(** No piece holds the separator. *)
Lemma split_no_separator sep s :
  Forall (λ piece, hasChar sep piece = false) (JS.split sep s).
Proof.
  induction s as [|c rest IH]; [by repeat constructor|]. simpl.
  destruct (Ascii.eqb c sep) eqn:Hc; [by constructor|].
  destruct (JS.split sep rest) as [|piece pieces]; [by repeat constructor; simpl; rewrite Hc|].
  apply Forall_cons in IH as [Hpiece Hpieces].
  constructor; [|done]. simpl. by rewrite Hc.
Qed.

End ParamsMore.

(** X4.  The params object handed to [getSelectedParams] only provides
    defaults: under every name but [__proto__] the result has the entry of
    what the tree yields from the empty object, laid over the entries
    passed in, and no entry passed in is removed.  When the object passed
    in has no own property [__proto__], the result is that union as a
    whole. *)
Theorem getSelectedParams_defaults key root routes (params : Params) :
  ∃ selected result,
    getSelectedParams key (FRS root routes) ∅ = JS.Ok selected
    ∧ getSelectedParams key (FRS root routes) params = JS.Ok result
    ∧ (∀ name, name ≠ "__proto__" → result !! name = (selected ∪ params) !! name)
    ∧ (params !! "__proto__" = None → result = selected ∪ params)
    ∧ dom params ⊆ dom result
    ∧ (∀ name, name ≠ "__proto__" → selected !! name = None →
               result !! name = params !! name).
Proof.
  destruct (getSelectedParams_entries key root routes ∅)
    as (selected & Hselected & [(_ & Hnone & Hagree)|([? Hsome] & _)]);
    [|by rewrite lookup_empty in Hsome].
  destruct (getSelectedParams_entries key root routes params)
    as (result & Hresult & Hentries).
  set (segs := walkedSegments key (FRS root routes)) in *.
  assert (∀ name, name ≠ "__proto__" →
            result !! name = (selected ∪ params) !! name) as Hnamed.
  { intros name Hname.
    assert (result !! name = paramsOfSegments key segs params !! name) as ->.
    { destruct Hentries as [(_ & _ & Hres)|(_ & ->)]; [by apply Hres|done]. }
    rewrite paramsOfSegments_defaults, !lookup_union.
    by rewrite (Hagree name Hname). }
  exists selected, result. split; [done|]. split; [done|]. split; [done|].
  split; [|split].
  - intros Hproto. apply map_eq. intros name.
    destruct (decide (name = "__proto__")) as [->|Hname]; [|by apply Hnamed].
    rewrite lookup_union, Hnone, Hproto.
    destruct Hentries as [(_ & -> & _)|([? Hsome] & _)]; [done|].
    by rewrite Hproto in Hsome.
  - intros name [v Hv]%elem_of_dom. apply elem_of_dom.
    destruct (decide (name = "__proto__")) as [->|Hname].
    + destruct Hentries as [(Hproto & _)|(_ & ->)]; [by rewrite Hproto in Hv|].
      rewrite paramsOfSegments_defaults, lookup_union, Hv.
      by destruct (paramsOfSegments key segs ∅ !! "__proto__").
    + rewrite (Hnamed name Hname), lookup_union, Hv.
      by destruct (selected !! name).
  - intros name Hname Hsel. rewrite (Hnamed name Hname).
    by rewrite lookup_union_r.
Qed.

(** The exception in X4: an own property [__proto__] of the object passed
    in is overwritten by a reached segment of that name, as any other
    entry is, although the same tree yields no such entry from the empty
    object. *)
Lemma getSelectedParams_overwrites_own_proto :
  getSelectedParams NEXT_PAGE_SEGMENT_KEY
    (FRS (SegString "") [("children", FRS (SegDynamic "__proto__" "x" "d") [])]) ∅
  = JS.Ok ∅
  ∧ getSelectedParams NEXT_PAGE_SEGMENT_KEY
      (FRS (SegString "") [("children", FRS (SegDynamic "__proto__" "x" "d") [])])
      {[ "__proto__" := PString "own" ]}
    = JS.Ok {[ "__proto__" := PString "x" ]}.
Proof. split; reflexivity. Qed.

(** X5.  A catch-all parameter can be joined back: when the last reached
    segment of a name is a catch-all [[name, value, 'c' | 'oc']], the
    parameter is a non-empty array whose pieces hold no ['/'] and whose
    join with ['/'] is [value].  The name is any but [__proto__], which
    yields a parameter only on an object that has an own property of that
    name. *)
Theorem getSelectedParams_catch_all_round_trip key root routes (params : Params)
    before name value type after :
  name ≠ "__proto__" ∨ is_Some (params !! "__proto__") →
  walkedSegments key (FRS root routes)
  = before ++ SegDynamic name value type :: after →
  (∀ value' type', SegDynamic name value' type' ∉ after) →
  type = "c" ∨ type = "oc" →
  ∃ result parts,
    getSelectedParams key (FRS root routes) params = JS.Ok result
    ∧ result !! name = Some (PArray parts)
    ∧ JS.join "/" parts = value
    ∧ parts ≠ []
    ∧ Forall (λ piece, hasChar "/" piece = false) parts.
Proof.
  intros Hname Hwalk Hlast Htype%isCatchAllType_spec.
  destruct (getSelectedParams_entries key root routes params)
    as (result & Hrun & Hentries).
  exists result, (JS.split "/" value).
  split; [exact Hrun|].
  split.
  { assert (result !! name
            = paramsOfSegments key (walkedSegments key (FRS root routes)) params
              !! name) as ->.
    { destruct Hentries as [(Hnone & _ & Hagree)|(_ & ->)]; [|done].
      destruct Hname as [Hname|Hsome]; [by apply Hagree|].
      rewrite Hnone in Hsome. by destruct Hsome. }
    rewrite Hwalk, paramsOfSegments_last; [by rewrite Htype| |done].
    pose proof (walkedSegments_not_skipped key (FRS root routes)) as Hall.
    rewrite Hwalk in Hall. apply Forall_app in Hall as [_ Hall].
    by apply Forall_cons in Hall as [? _]. }
  split; [apply join_split|].
  split; [apply split_nonempty|apply split_no_separator].
Qed.

Lemma getSelectedParams_catch_all_round_trip_witness :
  ("slug" ≠ "__proto__" ∨ is_Some ((∅ : Params) !! "__proto__"))
  ∧ walkedSegments NEXT_PAGE_SEGMENT_KEY
    (FRS (SegString "") [("children", FRS (SegDynamic "slug" "docs/api//v2" "oc") [])])
  = [] ++ SegDynamic "slug" "docs/api//v2" "oc" :: []
  ∧ ∃ result parts,
      getSelectedParams NEXT_PAGE_SEGMENT_KEY
        (FRS (SegString "")
             [("children", FRS (SegDynamic "slug" "docs/api//v2" "oc") [])]) ∅
      = JS.Ok result
      ∧ result !! "slug" = Some (PArray parts)
      ∧ JS.join "/" parts = "docs/api//v2".
Proof.
  assert ("slug" ≠ "__proto__" ∨ is_Some ((∅ : Params) !! "__proto__")) as Hname
    by (by left).
  split; [exact Hname|]. split; [reflexivity|].
  destruct (getSelectedParams_catch_all_round_trip NEXT_PAGE_SEGMENT_KEY
              (SegString "")
              [("children", FRS (SegDynamic "slug" "docs/api//v2" "oc") [])] ∅
              [] "slug" "docs/api//v2" "oc" [] Hname eq_refl)
    as (result & parts & Hrun & Hlookup & Hjoin & _).
  - intros value' type' Hin. by apply not_elem_of_nil in Hin.
  - by right.
  - exists result, parts. by repeat split.
Defined.

(** ** Regular expressions *)

Lemma append_cons x (a b : string) : String x a +:+ b = String x (a +:+ b).
Proof. reflexivity. Qed.

Lemma append_assoc (a b c : string) : (a +:+ b) +:+ c = a +:+ (b +:+ c).
Proof. induction a as [|x a IH]; [done|]. by rewrite !append_cons, IH. Qed.

Lemma append_nil_r (a : string) : a +:+ "" = a.
Proof. induction a as [|x a IH]; [done|]. by rewrite append_cons, IH. Qed.

Lemma stripPrefix_spec lit s rest :
  stripPrefix lit s = Some rest ↔ s = lit +:+ rest.
Proof.
  revert s. induction lit as [|a lit IH]; intros s; simpl.
  - change ("" +:+ rest) with rest. split; congruence.
  - rewrite append_cons. destruct s as [|b s]; [split; discriminate|].
    destruct (Ascii.eqb_spec a b) as [->|Hne].
    + rewrite IH. split; congruence.
    + split; [discriminate|congruence].
Qed.

Lemma isEmptyString_spec s : isEmptyString s = true ↔ s = "".
Proof. destruct s; simpl; split; congruence. Qed.

(** The matcher accepts exactly when one of the pattern's words starts the
    string and the continuation accepts the rest. *)
Lemma matchAt_spec r s k :
  matchAt r s k = true
  ↔ ∃ w rest, w ∈ words r ∧ s = w +:+ rest ∧ k rest = true.
Proof.
  revert s k. induction r as [lit|r1 IH1 r2 IH2|r1 IH1 r2 IH2|r IH]; intros s k; simpl.
  - destruct (stripPrefix lit s) as [rest|] eqn:Hstrip.
    + apply stripPrefix_spec in Hstrip as ->. split.
      * intros Hk. exists lit, rest. split; [by left|done].
      * intros (w & rest' & ->%list_elem_of_singleton & Heq%String.app_inj & Hk).
        by subst.
    + split; [done|].
      intros (w & rest & ->%list_elem_of_singleton & Heq%stripPrefix_spec & _).
      congruence.
  - rewrite IH1. split.
    + intros (w1 & rest1 & Hw1 & -> & (w2 & rest & Hw2 & -> & Hk)%IH2).
      exists (w1 +:+ w2), rest. split; [|by rewrite append_assoc].
      apply list_elem_of_In, in_flat_map. exists w1.
      split; [by apply list_elem_of_In|]. apply in_map_iff. exists w2.
      split; [done|by apply list_elem_of_In].
    + intros (w & rest & Hw & -> & Hk).
      apply list_elem_of_In, in_flat_map in Hw as (w1 & Hw1 & Hw).
      apply in_map_iff in Hw as (w2 & <- & Hw2).
      exists w1, (w2 +:+ rest). split; [by apply list_elem_of_In|].
      split; [apply append_assoc|]. apply IH2.
      exists w2, rest. split; [by apply list_elem_of_In|done].
  - rewrite orb_true_iff, IH1, IH2. split.
    + intros [(w & rest & Hw & Hs & Hk)|(w & rest & Hw & Hs & Hk)];
        exists w, rest; (split; [|done]); apply elem_of_app; auto.
    + intros (w & rest & [Hw|Hw]%elem_of_app & Hs & Hk);
        [left|right]; by exists w, rest.
  - rewrite orb_true_iff, IH. split.
    + intros [(w & rest & Hw & Hs & Hk)|Hk].
      * exists w, rest. split; [|done]. apply elem_of_app. by left.
      * exists "", s. split; [|done]. apply elem_of_app. right. by left.
    + intros (w & rest & [Hw| ->%list_elem_of_singleton]%elem_of_app & Hs & Hk).
      * left. by exists w, rest.
      * right. by subst.
Qed.

(** [test] finds one of the pattern's words somewhere in the input, at its
    end when the pattern is anchored there. *)
Lemma regexTest_spec r endAnchor input :
  regexTest r endAnchor input = true
  ↔ ∃ before w after,
      input = before +:+ w +:+ after
      ∧ w ∈ words r
      ∧ (endAnchor = true → after = "").
Proof.
  induction input as [|c input IH]; simpl; rewrite orb_true_iff, matchAt_spec.
  - split.
    + intros [(w & rest & Hw & Hs & Hk)|?]; [|done].
      exists "", w, rest. split; [done|]. split; [done|].
      intros ->. by apply isEmptyString_spec.
    + intros (before & w & after & Hs & Hw & Hend). left.
      destruct before; [|done]. exists w, after. split; [done|]. split; [done|].
      destruct endAnchor; [|done]. by rewrite Hend.
  - rewrite IH. split.
    + intros [(w & rest & Hw & Hs & Hk)|(before & w & after & -> & Hw & Hend)].
      * exists "", w, rest. split; [done|]. split; [done|].
        intros ->. by apply isEmptyString_spec.
      * by exists (String c before), w, after.
    + intros (before & w & after & Hs & Hw & Hend).
      destruct before as [|b before]; simpl in Hs.
      * left. exists w, after. split; [done|]. split; [done|].
        destruct endAnchor; [|done]. by rewrite Hend.
      * right. injection Hs as -> ->. by exists before, w, after.
Qed.

Lemma csfIndexerPattern_words w :
  w ∈ words csfIndexerPattern
  ↔ ∃ kind ext,
      w = kind +:+ "." +:+ ext
      ∧ kind ∈ ["stories"; "story"]
      ∧ ext ∈ ["mjsx"; "mjs"; "jsx"; "js"; "tsx"; "ts"].
Proof.
  change (words csfIndexerPattern)
    with (w2 ← ["stories"; "story"];
          (λ ext, w2 +:+ "." +:+ ext) <$> ["mjsx"; "mjs"; "jsx"; "js"; "tsx"; "ts"]).
  rewrite list_elem_of_bind. split.
  - intros (kind & (ext & -> & Hext)%list_elem_of_fmap & Hkind).
    by exists kind, ext.
  - intros (kind & ext & -> & Hkind & Hext). exists kind.
    split; [|done]. apply list_elem_of_fmap. by exists ext.
Qed.

(** X7.  [csfIndexer.test] accepts a file name exactly when it ends in
    [stories] or [story], a dot, and one of the extensions [js], [jsx],
    [mjs], [mjsx], [ts], [tsx].  Nothing is asked of what stands before,
    so a name that is accepted stays accepted under any directory. *)
Theorem csfIndexer_test_accepts fileName :
  (csfIndexerTest fileName = true
   ↔ ∃ stem kind ext,
       fileName = stem +:+ kind +:+ "." +:+ ext
       ∧ kind ∈ ["stories"; "story"]
       ∧ ext ∈ ["mjsx"; "mjs"; "jsx"; "js"; "tsx"; "ts"])
  ∧ (∀ directory,
       csfIndexerTest fileName = true →
       csfIndexerTest (directory +:+ fileName) = true).
Proof.
  assert (∀ name,
            csfIndexerTest name = true
            ↔ ∃ stem kind ext,
                name = stem +:+ kind +:+ "." +:+ ext
                ∧ kind ∈ ["stories"; "story"]
                ∧ ext ∈ ["mjsx"; "mjs"; "jsx"; "js"; "tsx"; "ts"]) as Hspec.
  { intros name. unfold csfIndexerTest. rewrite regexTest_spec. split.
    - intros (stem & w & after & -> & (kind & ext & -> & Hkind & Hext)%csfIndexerPattern_words
              & ->%(λ H, H eq_refl)).
      exists stem, kind, ext. by rewrite append_nil_r.
    - intros (stem & kind & ext & -> & Hkind & Hext).
      exists stem, (kind +:+ "." +:+ ext), "".
      rewrite append_nil_r. split; [done|]. split; [|done].
      apply csfIndexerPattern_words. by exists kind, ext. }
  split; [apply Hspec|].
  intros directory (stem & kind & ext & -> & Hkind & Hext)%Hspec.
  apply Hspec. exists (directory +:+ stem), kind, ext.
  by rewrite append_assoc.
Qed.

Lemma csfIndexer_test_accepts_witness :
  csfIndexerTest "Button.stories.tsx" = true
  ∧ csfIndexerTest "src/components/Button.stories.tsx" = true.
Proof.
  assert (csfIndexerTest "Button.stories.tsx" = true) as Haccepted by reflexivity.
  split; [exact Haccepted|].
  exact (proj2 (csfIndexer_test_accepts "Button.stories.tsx")
               "src/components/" Haccepted).
Defined.

Example csfIndexer_test_examples :
  csfIndexerTest "history.js" = true
  ∧ csfIndexerTest "Button.stories.mdx" = false
  ∧ csfIndexerTest "Button.stories.cjs" = false
  ∧ csfIndexerTest "Button.stories.mts" = false
  ∧ csfIndexerTest "Button.story.mjs" = true
  ∧ csfIndexerTest "Button.stories.ts.snap" = false.
Proof. repeat split. Qed.

(** X8.  [propFilter] keeps a prop that has no parent, and drops a prop
    exactly when the file name of its parent holds [node_modules]
    somewhere. *)
Theorem propFilter_node_modules :
  propFilter None = true
  ∧ (∀ fileName,
       propFilter (Some fileName) = false
       ↔ ∃ before after, fileName = before +:+ "node_modules" +:+ after).
Proof.
  split; [done|]. intros fileName. unfold propFilter.
  rewrite negb_false_iff, regexTest_spec. split.
  - intros (before & w & after & -> & ->%list_elem_of_singleton & _).
    by exists before, after.
  - intros (before & after & ->). exists before, "node_modules", after.
    split; [done|]. split; [by left|done].
Qed.

(** ** The small presets *)

(** X9.  [title] never returns an empty string: it returns the previous
    title when that is a non-empty string, else the package name when that
    is a non-empty string, and [false] exactly when neither is. *)
Theorem title_never_empty previous packageJsonName :
  (Presets.title previous packageJsonName = Presets.IsFalse
   ∨ ∃ s, s ≠ "" ∧ Presets.title previous packageJsonName = Presets.IsString s)
  ∧ (∀ p, previous = Some p → p ≠ "" →
          Presets.title previous packageJsonName = Presets.IsString p)
  ∧ (Presets.title previous packageJsonName = Presets.IsFalse
     ↔ truthyString previous = false ∧ truthyString packageJsonName = false)
  ∧ (truthyString previous = false →
     ∀ n, packageJsonName = Some n → n ≠ "" →
          Presets.title previous packageJsonName = Presets.IsString n).
Proof.
  unfold Presets.title. split; [|split; [|split]].
  - destruct previous as [[|c p]|], packageJsonName as [[|d n]|]; simpl;
      first [ by left | right; eexists; split; [|reflexivity]; done ].
  - intros p -> Hp%truthy_nonempty. by rewrite Hp.
  - destruct previous as [[|c p]|], packageJsonName as [[|d n]|]; simpl;
      split; first [ done | by intros [? ?] ].
  - intros Hprevious n -> Hn%truthy_nonempty.
    destruct previous as [p|]; simpl in *; rewrite ?Hprevious, Hn; done.
Qed.

Lemma title_never_empty_witness :
  (Some "Design System" = Some "Design System" ∧ "Design System" ≠ "")
  ∧ Presets.title (Some "Design System") (Some "my-package")
    = Presets.IsString "Design System".
Proof.
  assert ("Design System" ≠ "") as Hne by discriminate.
  split; [by split|].
  exact (proj1 (proj2 (title_never_empty (Some "Design System") (Some "my-package")))
               "Design System" eq_refl Hne).
Defined.

(** X10.  [logLevel] always returns a non-empty level: the previous one
    when it is a non-empty string, else [options.loglevel] when that is
    one, else ['info']. *)
Theorem logLevel_never_empty previous loglevel :
  Presets.logLevel previous loglevel ≠ ""
  ∧ (∀ p, previous = Some p → p ≠ "" → Presets.logLevel previous loglevel = p)
  ∧ (truthyString previous = false →
     ∀ l, loglevel = Some l → l ≠ "" → Presets.logLevel previous loglevel = l)
  ∧ (truthyString previous = false → truthyString loglevel = false →
     Presets.logLevel previous loglevel = "info").
Proof.
  unfold Presets.logLevel. split; [|split; [|split]].
  - destruct previous as [[|c p]|], loglevel as [[|d l]|]; simpl; done.
  - intros p -> Hp%truthy_nonempty. by rewrite Hp.
  - intros Hprevious l -> Hl%truthy_nonempty.
    destruct previous as [p|]; simpl in *; rewrite ?Hprevious, Hl; done.
  - intros Hprevious Hloglevel.
    destruct previous as [p|], loglevel as [l|]; simpl in *;
      rewrite ?Hprevious, ?Hloglevel; done.
Qed.

Lemma logLevel_never_empty_witness :
  (truthyString (Some "") = false ∧ truthyString None = false)
  ∧ Presets.logLevel (Some "") None = "info".
Proof.
  split; [by split|].
  exact (proj2 (proj2 (proj2 (logLevel_never_empty (Some "") None))) eq_refl eq_refl).
Defined.

(** X11.  The [removeAddon] of the server API reports to telemetry before
    it removes anything, unless telemetry is disabled: with
    [options.disableTelemetry] true the base function is the only call;
    otherwise the telemetry call comes first, and when it fails the addon
    is not removed and the failure is the result.  Whatever the extension
    holds, [removeAddon] in the returned API is this function, and every
    other function of the extension is kept. *)
Theorem removeAddon_reports_first host options id opts :
  (disableTelemetry options = Some true →
   Presets.removeAddon host options id opts
   = (Presets.removeAddonBase host id opts, [Presets.RemoveAddonBase id opts]))
  ∧ (disableTelemetry options ≠ Some true →
     ∃ calls,
       (Presets.removeAddon host options id opts).2
       = Presets.TelemetryRemove id "api" :: calls
       ∧ (Presets.telemetryRemove host id "api" = JS.Ok tt →
          calls = [Presets.RemoveAddonBase id opts]
          ∧ (Presets.removeAddon host options id opts).1
            = Presets.removeAddonBase host id opts)
       ∧ (∀ e, Presets.telemetryRemove host id "api" = JS.Throw e →
               calls = []
               ∧ (Presets.removeAddon host options id opts).1 = JS.Throw e))
  ∧ (∀ extension,
       Presets.experimental_serverAPI extension !! "removeAddon"
       = Some Presets.RemoveAddonFunction
       ∧ ∀ name, name ≠ "removeAddon" →
                 Presets.experimental_serverAPI extension !! name
                 = Presets.ExtensionFunction <$> extension !! name).
Proof.
  unfold Presets.removeAddon. split; [|split].
  - by intros ->.
  - intros Henabled.
    assert (match disableTelemetry options with
            | Some true => False
            | _ => True
            end) as Hcase by (by destruct (disableTelemetry options) as [[|]|]).
    destruct (Presets.telemetryRemove host id "api") as [[]|e] eqn:Htelemetry.
    + exists [Presets.RemoveAddonBase id opts].
      destruct (disableTelemetry options) as [[|]|]; by repeat split.
    + exists [].
      destruct (disableTelemetry options) as [[|]|]; repeat split; try done;
        by intros ? [= <-].
  - intros extension. unfold Presets.experimental_serverAPI.
    split; [apply lookup_insert_eq|].
    intros name Hname. by rewrite lookup_insert_ne, lookup_fmap.
Qed.

Lemma removeAddon_reports_first_witness :
  disableTelemetry someOptions ≠ Some true
  ∧ Presets.removeAddon
      {| Presets.telemetryRemove := λ _ _, JS.Throw (JS.ErrorObject "offline");
         Presets.removeAddonBase := λ _ _, JS.Ok tt |}
      someOptions "@storybook/addon-a11y" JS.VUndefined
    = (JS.Throw (JS.ErrorObject "offline"),
       [Presets.TelemetryRemove "@storybook/addon-a11y" "api"]).
Proof.
  assert (disableTelemetry someOptions ≠ Some true) as Henabled by discriminate.
  split; [exact Henabled|].
  destruct (proj1 (proj2 (removeAddon_reports_first
                            {| Presets.telemetryRemove :=
                                 λ _ _, JS.Throw (JS.ErrorObject "offline");
                               Presets.removeAddonBase := λ _ _, JS.Ok tt |}
                            someOptions "@storybook/addon-a11y" JS.VUndefined))
                  Henabled) as (calls & Hcalls & _ & Hfail).
  destruct (Hfail _ eq_refl) as [-> Hresult].
  apply injective_projections; [exact Hresult|exact Hcalls].
Defined.

(** X12.  [features] forces its three flags whatever the existing object
    says, keeps every other feature, and applying it again changes
    nothing. *)
Theorem features_forced existing :
  Presets.features existing !! "argTypeTargetsV7" = Some (JS.VBool true)
  ∧ Presets.features existing !! "legacyDecoratorFileOrder" = Some (JS.VBool false)
  ∧ Presets.features existing !! "disallowImplicitActionsInRenderV8"
    = Some (JS.VBool true)
  ∧ (∀ name,
       name ∉ ["argTypeTargetsV7"; "legacyDecoratorFileOrder";
               "disallowImplicitActionsInRenderV8"] →
       Presets.features existing !! name = existing !! name)
  ∧ Presets.features (Presets.features existing) = Presets.features existing
  ∧ dom existing ⊆ dom (Presets.features existing).
Proof.
  unfold Presets.features. repeat split.
  - by simplify_map_eq.
  - by simplify_map_eq.
  - by simplify_map_eq.
  - intros name Hname. rewrite !lookup_insert_ne; [done|..];
      intros <-; apply Hname; set_solver.
  - apply map_eq. intros name.
    destruct (decide (name = "disallowImplicitActionsInRenderV8")) as [->|?];
      [by rewrite !lookup_insert_eq|].
    destruct (decide (name = "legacyDecoratorFileOrder")) as [->|?];
      [by simplify_map_eq|].
    destruct (decide (name = "argTypeTargetsV7")) as [->|?]; by simplify_map_eq.
  - rewrite !dom_insert_L. set_solver.
Qed.

(** X13.  [tags] defines [dev-only], [docs-only] and [test-only] whatever
    the existing tags say about them, and keeps every other tag. *)
Theorem tags_defaults existing :
  Presets.tags existing !! "dev-only"
  = Some {[ "excludeFromDocsStories" := JS.VBool true ]}
  ∧ Presets.tags existing !! "docs-only"
    = Some {[ "excludeFromSidebar" := JS.VBool true ]}
  ∧ Presets.tags existing !! "test-only"
    = Some {[ "excludeFromSidebar" := JS.VBool true;
              "excludeFromDocsStories" := JS.VBool true ]}
  ∧ (∀ tag, tag ∉ ["dev-only"; "docs-only"; "test-only"] →
            Presets.tags existing !! tag = existing !! tag)
  ∧ Presets.tags (Presets.tags existing) = Presets.tags existing.
Proof.
  unfold Presets.tags. repeat split.
  - by simplify_map_eq.
  - by simplify_map_eq.
  - by simplify_map_eq.
  - intros tag Htag. rewrite !lookup_insert_ne; [done|..];
      intros <-; apply Htag; set_solver.
  - apply map_eq. intros tag.
    destruct (decide (tag = "test-only")) as [->|?];
      [by rewrite !lookup_insert_eq|].
    destruct (decide (tag = "docs-only")) as [->|?]; [by simplify_map_eq|].
    destruct (decide (tag = "dev-only")) as [->|?]; by simplify_map_eq.
Qed.

(** X14.  [docs] never makes up docs options: without existing options the
    result is [undefined] even when the [--docs] mode is given; without a
    mode the options come back as they are; with both, [docsMode] is set
    and every other option kept. *)
Theorem docs_mode_needs_options docsOptions docsMode :
  (docsOptions = None → Presets.docs docsOptions docsMode = None)
  ∧ (docsMode = None → Presets.docs docsOptions docsMode = docsOptions)
  ∧ (∀ o mode, docsOptions = Some o → docsMode = Some mode →
       ∃ result,
         Presets.docs docsOptions docsMode = Some result
         ∧ result !! "docsMode" = Some (JS.VBool mode)
         ∧ (∀ name, name ≠ "docsMode" → result !! name = o !! name)
         ∧ Presets.docs (Some result) docsMode = Some result).
Proof.
  unfold Presets.docs. split; [by intros ->|]. split.
  - intros ->. by destruct docsOptions.
  - intros o mode -> ->. eexists. split; [reflexivity|].
    split; [apply lookup_insert_eq|]. split.
    + intros name Hname. by rewrite lookup_insert_ne.
    + by rewrite insert_insert_eq.
Qed.

Lemma docs_mode_needs_options_witness :
  (None : option (gmap string JS.Value)) = None
  ∧ Presets.docs None (Some true) = None.
Proof.
  split; [reflexivity|].
  exact (proj1 (docs_mode_needs_options None (Some true)) eq_refl).
Defined.

(** X15.  [resolvedReact] aliases both packages or none: when [react] and
    [react-dom] both resolve, the result holds the directory of each and
    every other entry of the existing object; when either fails to
    resolve, the existing value comes back untouched, [undefined]
    included. *)
Theorem resolvedReact_both_or_none resolve dirname existing :
  (∀ react reactDom,
     resolve "react/package.json" = JS.Ok react →
     resolve "react-dom/package.json" = JS.Ok reactDom →
     ∃ result,
       Presets.resolvedReact resolve dirname existing = Some result
       ∧ result !! "react" = Some (JS.VString (dirname react))
       ∧ result !! "reactDom" = Some (JS.VString (dirname reactDom))
       ∧ (∀ name, name ≠ "react" → name ≠ "reactDom" →
                  result !! name = default ∅ existing !! name))
  ∧ ((∃ e, resolve "react/package.json" = JS.Throw e)
     ∨ (∃ e, resolve "react-dom/package.json" = JS.Throw e) →
     Presets.resolvedReact resolve dirname existing = existing).
Proof.
  unfold Presets.resolvedReact. split.
  - intros react reactDom -> ->. eexists. split; [reflexivity|].
    split; [by simplify_map_eq|]. split; [by simplify_map_eq|].
    intros name ? ?. by rewrite !lookup_insert_ne.
  - intros [[e ->]|[e ->]]; [done|].
    by destruct (resolve "react/package.json").
Qed.

Lemma resolvedReact_both_or_none_witness :
  (∃ e, (λ name, if String.eqb name "react/package.json"
                 then JS.Ok "/app/node_modules/react/package.json"
                 else JS.Throw (JS.ErrorObject "Cannot find module"))
          "react-dom/package.json" = JS.Throw e)
  ∧ Presets.resolvedReact
      (λ name, if String.eqb name "react/package.json"
               then JS.Ok "/app/node_modules/react/package.json"
               else JS.Throw (JS.ErrorObject "Cannot find module"))
      (λ path, path) (Some {[ "react" := JS.VString "/docs/react" ]})
    = Some {[ "react" := JS.VString "/docs/react" ]}.
Proof.
  assert (∃ e, (λ name, if String.eqb name "react/package.json"
                        then JS.Ok "/app/node_modules/react/package.json"
                        else JS.Throw (JS.ErrorObject "Cannot find module"))
                 "react-dom/package.json" = JS.Throw e) as Hfail by (by eexists).
  split; [exact Hfail|].
  exact (proj2 (resolvedReact_both_or_none _ (λ path, path)
                  (Some {[ "react" := JS.VString "/docs/react" ]}))
               (or_intror Hfail)).
Defined.

(** ** [core], the environment and the channel together *)

Lemma core_isTelemetryEnabled toUpperCase processEnv existing options :
  isTelemetryEnabled (core toUpperCase processEnv existing options)
  = negb (bool_decide (disableTelemetry options = Some true)
          || bool_decide (test options = Some true)).
Proof.
  unfold isTelemetryEnabled, core.
  rewrite lookup_insert_ne by done. rewrite lookup_insert_eq.
  by destruct (_ || _).
Qed.

(** X16.  When the config that [core] computes is the one the channel
    applies, the four handlers that [experimental_serverChannel] registers
    itself, for [SET_WHATS_NEW_CACHE], [REQUEST_WHATS_NEW_DATA],
    [TOGGLE_WHATS_NEW_NOTIFICATIONS] and [TELEMETRY_ERROR], relay
    telemetry exactly when neither [options.disableTelemetry] nor
    [options.test] is [true]: with one of them set none of the four makes
    a telemetry call, and with neither the [TELEMETRY_ERROR] handler
    passes the error on to [sendTelemetryError] with the source
    ['browser'].  The handlers that [initFileSearchChannel] and
    [initCreateNewStoryChannel] register are not among them. *)
Theorem core_options_silence_channel toUpperCase processEnv existing host options :
  appliedCore host = core toUpperCase processEnv existing options →
  ∃ channel,
    run (experimental_serverChannel host options)
    = (JS.Ok channel, [PresetsApply "core"])
    ∧ (disableTelemetry options = Some true ∨ test options = Some true →
       ∀ event, Quiet (channel event))
    ∧ (disableTelemetry options ≠ Some true → test options ≠ Some true →
       ∀ error,
         run (channel (TELEMETRY_ERROR error))
         = (sendTelemetryError host error "browser",
            [SendTelemetryError error "browser"])).
Proof.
  intros Happlied. eexists. split; [reflexivity|]. cbv beta.
  pose proof (core_isTelemetryEnabled toUpperCase processEnv existing options)
    as Henabled.
  rewrite <- Happlied in Henabled. split.
  - intros Hoptions.
    assert (isTelemetryEnabled (appliedCore host) = false) as Hdisabled.
    { rewrite Henabled. apply negb_false_iff, orb_true_iff.
      rewrite !bool_decide_eq_true. done. }
    intros [data| |disable|error].
    + apply onSetWhatsNewCache_Quiet.
    + apply onRequestWhatsNewData_Quiet.
    + by apply onToggleWhatsNewNotifications_Quiet.
    + rewrite onTelemetryError_disabled by done. apply Quiet_ret.
  - intros Htelemetry Htest error.
    assert (isTelemetryEnabled (appliedCore host) = true) as Hon.
    { rewrite Henabled. apply negb_true_iff, orb_false_iff.
      rewrite !bool_decide_eq_false. done. }
    unfold onTelemetryError. by rewrite Hon.
Qed.

Lemma core_options_silence_channel_witness :
  appliedCore
    (onlineHost
       (core JS.asciiUpper ∅ ∅
          {| configDir := ".storybook"; disableTelemetry := None;
             test := Some true; enableCrashReports := None |}))
  = core JS.asciiUpper ∅ ∅
      {| configDir := ".storybook"; disableTelemetry := None;
         test := Some true; enableCrashReports := None |}
  ∧ ∃ channel,
      run (experimental_serverChannel
             (onlineHost
                (core JS.asciiUpper ∅ ∅
                   {| configDir := ".storybook"; disableTelemetry := None;
                      test := Some true; enableCrashReports := None |}))
             {| configDir := ".storybook"; disableTelemetry := None;
                test := Some true; enableCrashReports := None |})
      = (JS.Ok channel, [PresetsApply "core"])
      ∧ Quiet (channel (TOGGLE_WHATS_NEW_NOTIFICATIONS true)).
Proof.
  split; [reflexivity|].
  destruct (core_options_silence_channel JS.asciiUpper ∅ ∅
              (onlineHost
                 (core JS.asciiUpper ∅ ∅
                    {| configDir := ".storybook"; disableTelemetry := None;
                       test := Some true; enableCrashReports := None |}))
              {| configDir := ".storybook"; disableTelemetry := None;
                 test := Some true; enableCrashReports := None |} eq_refl)
    as (channel & Hrun & Hquiet & _).
  exists channel. split; [exact Hrun|]. apply Hquiet. by right.
Defined.

Lemma asciiUpperChar_idempotent c :
  JS.asciiUpperChar (JS.asciiUpperChar c) = JS.asciiUpperChar c.
Proof. by destruct c as [[] [] [] [] [] [] [] []]. Qed.

Lemma asciiUpper_idempotent s : JS.asciiUpper (JS.asciiUpper s) = JS.asciiUpper s.
Proof.
  induction s as [|c s IH]; [done|]. simpl.
  by rewrite asciiUpperChar_idempotent, IH.
Qed.

Lemma asciiUpperChar_ascii c :
  Nat.ltb (nat_of_ascii c) 128 = true →
  Nat.ltb (nat_of_ascii (JS.asciiUpperChar c)) 128 = true.
Proof. by destruct c as [[] [] [] [] [] [] [] []]. Qed.

Lemma asciiUpper_ascii s : JS.isAscii s = true → JS.isAscii (JS.asciiUpper s) = true.
Proof.
  induction s as [|c s IH]; [done|]. simpl.
  intros [Hc Hs]%andb_true_iff.
  by rewrite asciiUpperChar_ascii, IH.
Qed.

(** X17.  [optionalEnvToBoolean] does not look at letter case: on 7-bit
    strings that upper-case to the same string it gives the same answer,
    so a value and its upper-cased form are read alike.  [toUpperCase] is
    any function that upper-cases 7-bit strings letter by letter. *)
Theorem optionalEnvToBoolean_ignores_case toUpperCase :
  (∀ s, JS.isAscii s = true → toUpperCase s = JS.asciiUpper s) →
  (∀ s t, JS.isAscii s = true → JS.isAscii t = true →
          JS.asciiUpper s = JS.asciiUpper t →
          optionalEnvToBoolean toUpperCase (Some s)
          = optionalEnvToBoolean toUpperCase (Some t))
  ∧ (∀ s, JS.isAscii s = true →
          optionalEnvToBoolean toUpperCase (Some (JS.asciiUpper s))
          = optionalEnvToBoolean toUpperCase (Some s)).
Proof.
  intros Hupper.
  assert (∀ s t, JS.isAscii s = true → JS.isAscii t = true →
                 JS.asciiUpper s = JS.asciiUpper t →
                 optionalEnvToBoolean toUpperCase (Some s)
                 = optionalEnvToBoolean toUpperCase (Some t)) as Hsame.
  { intros s t Hs Ht Heq. unfold optionalEnvToBoolean.
    by rewrite (Hupper s Hs), (Hupper t Ht), Heq. }
  split; [exact Hsame|].
  intros s Hs. apply Hsame; [by apply asciiUpper_ascii|done|].
  apply asciiUpper_idempotent.
Qed.

Lemma optionalEnvToBoolean_ignores_case_witness :
  (JS.isAscii "False" = true ∧ JS.isAscii "fALSE" = true
   ∧ JS.asciiUpper "False" = JS.asciiUpper "fALSE")
  ∧ optionalEnvToBoolean JS.asciiUpper (Some "False")
    = optionalEnvToBoolean JS.asciiUpper (Some "fALSE").
Proof.
  split; [by repeat split|].
  exact (proj1 (optionalEnvToBoolean_ignores_case JS.asciiUpper (λ s _, eq_refl))
               "False" "fALSE" eq_refl eq_refl eq_refl).
Defined.

Section FaviconMore.

Variable defaultFavicon : string.
Variable host : FaviconHost.
Variable options : Options.

(** A run past the early return that returns: the pipeline handed over
    the static dirs, and none of them rejected. *)
Lemma faviconFromStaticDirs_returns result trace :
  run (faviconFromStaticDirs defaultFavicon host options) = (JS.Ok result, trace) →
  (∃ dirs, appliedStaticDirs host = JS.Ok dirs)
  ∧ Forall (λ entry, dirRejection host options (staticDirName entry) = None)
           (staticDirsOf host).
Proof.
  rewrite faviconFromStaticDirs_run.
  destruct (appliedStaticDirs host) as [dirs|e]; [|done].
  intros Hrun. split; [by eexists|].
  destruct (promiseAll_outcome (settledAt host)
              (map (λ entry, dirOutcome host options (staticDirName entry))
                   (staticDirsOf host)))
    as [(values & Houtcomes & _)|(e & _ & Hrejected)];
    [|by rewrite Hrejected in Hrun].
  apply Forall_forall. intros entry Hin.
  assert (dirOutcome host options (staticDirName entry) ∈ JS.Ok <$> values) as Hok.
  { rewrite <- Houtcomes. apply list_elem_of_In.
    apply (in_map (λ entry, dirOutcome host options (staticDirName entry))).
    by apply list_elem_of_In. }
  apply list_elem_of_fmap in Hok as (list & Hok & _). revert Hok.
  unfold dirOutcome.
  by destruct (dirRejection host options (staticDirName entry)).
Qed.

End FaviconMore.

(** X18.  A run of [favicon] that returns never returns a path it did not
    find: its result is the previous value, the bundled default, or a
    collected file, which exists; and it warned only when it collected at
    least two files. *)
Theorem favicon_only_found_paths defaultFavicon host value options result trace :
  run (favicon defaultFavicon host value options) = (JS.Ok result, trace) →
  (value = Some result
   ∨ result = defaultFavicon
   ∨ (result ∈ collectedFavicons host options
      ∧ pathExists host result = JS.Ok true))
  ∧ (∀ message, LoggerWarn message ∈ trace →
                (2 ≤ length (collectedFavicons host options))%nat
                ∧ message = multipleFaviconsWarning (collectedFavicons host options)).
Proof.
  assert (run (faviconFromStaticDirs defaultFavicon host options)
          = (JS.Ok result, trace) →
          (result = defaultFavicon
           ∨ (result ∈ collectedFavicons host options
              ∧ pathExists host result = JS.Ok true))
          ∧ (∀ message, LoggerWarn message ∈ trace →
               (2 ≤ length (collectedFavicons host options))%nat
               ∧ message = multipleFaviconsWarning (collectedFavicons host options)))
    as Hpast.
  { intros Hrun.
    destruct (faviconFromStaticDirs_returns _ _ _ _ _ Hrun) as [[dirs Happlied] Hsettled].
    rewrite (faviconFromStaticDirs_settled _ _ _ dirs Happlied Hsettled) in Hrun.
    injection Hrun as <- <-. split.
    - pose proof (collectedFavicons_exist host options) as Hexist.
      destruct (collectedFavicons host options) as [|first rest]; [by left|].
      destruct (JS.truthy first); [right|by left].
      split; [by left|]. apply Hexist. by left.
    - intros message [[=]|Hin]%elem_of_cons.
      destruct (collectedFavicons host options) as [|p1 [|p2 rest]]; simpl in Hin;
        try (by apply not_elem_of_nil in Hin).
      apply list_elem_of_singleton in Hin as [= ->]. split; [simpl; lia|done]. }
  unfold favicon. destruct value as [v|].
  - destruct (JS.truthy v) eqn:Hv.
    + intros [= <- <-]. split; [by left|]. by intros message ?%not_elem_of_nil.
    + intros [Hresult Hwarn]%Hpast. split; [by right|done].
  - intros [Hresult Hwarn]%Hpast. split; [by right|done].
Qed.

Lemma favicon_only_found_paths_witness :
  run (favicon "/default/favicon.svg" hostWithBothFavicons None someOptions)
  = (JS.Ok "/app/public/favicon.svg",
     [PresetsApply "staticDirs";
      LoggerWarn (multipleFaviconsWarning
                    ["/app/public/favicon.svg"; "/app/public/favicon.ico"])])
  ∧ pathExists hostWithBothFavicons "/app/public/favicon.svg" = JS.Ok true
  ∧ (2 ≤ length (collectedFavicons hostWithBothFavicons someOptions))%nat.
Proof.
  assert (run (favicon "/default/favicon.svg" hostWithBothFavicons None someOptions)
          = (JS.Ok "/app/public/favicon.svg",
             [PresetsApply "staticDirs";
              LoggerWarn (multipleFaviconsWarning
                            ["/app/public/favicon.svg"; "/app/public/favicon.ico"])]))
    as Hrun by reflexivity.
  split; [exact Hrun|].
  destruct (favicon_only_found_paths _ _ _ _ _ _ Hrun) as [Hresult Hwarn].
  split; [reflexivity|].
  apply (Hwarn (multipleFaviconsWarning
                  ["/app/public/favicon.svg"; "/app/public/favicon.ico"])).
  right. left.
Defined.

(** ** More on the handlers of the server channel *)

Lemma onSetWhatsNewCache_run host data :
  run (onSetWhatsNewCache host data)
  = match cacheGet host WHATS_NEW_CACHE with
    | JS.Ok cached =>
        (cacheSet host WHATS_NEW_CACHE (mergeCache (default emptyCache cached) data),
         [CacheSet WHATS_NEW_CACHE (mergeCache (default emptyCache cached) data)])
    | JS.Throw e =>
        (cacheSet host WHATS_NEW_CACHE (mergeCache emptyCache data),
         [LoggerVerbose (renderThrown e);
          CacheSet WHATS_NEW_CACHE (mergeCache emptyCache data)])
    end.
Proof.
  unfold onSetWhatsNewCache. unfold_eff.
  by destruct (cacheGet host WHATS_NEW_CACHE).
Qed.

Lemma mergeCache_data cache data :
  (∀ p, lastReadPost data = Some p → lastReadPost (mergeCache cache data) = Some p)
  ∧ (∀ p, lastDismissedPost data = Some p →
          lastDismissedPost (mergeCache cache data) = Some p)
  ∧ (lastReadPost data = None →
     lastReadPost (mergeCache cache data) = lastReadPost cache)
  ∧ (lastDismissedPost data = None →
     lastDismissedPost (mergeCache cache data) = lastDismissedPost cache).
Proof.
  unfold mergeCache; simpl.
  split; [by intros p ->|]. split; [by intros p ->|]. split; by intros ->.
Qed.

(** X19.  The [SET_WHATS_NEW_CACHE] handler stores the merged cache even
    when the cache cannot be read: a failing [cache.get] is logged and read
    as the empty cache.  The stored value holds every field the event
    carries and, for the others, what the cache held.  The one call to
    [cache.set] decides the outcome, so its failure is not caught. *)
Theorem onSetWhatsNewCache_stores host data :
  ∃ cache log,
    run (onSetWhatsNewCache host data)
    = (cacheSet host WHATS_NEW_CACHE (mergeCache cache data),
       log ++ [CacheSet WHATS_NEW_CACHE (mergeCache cache data)])
    ∧ (∀ cached, cacheGet host WHATS_NEW_CACHE = JS.Ok cached →
                 cache = default emptyCache cached ∧ log = [])
    ∧ (∀ e, cacheGet host WHATS_NEW_CACHE = JS.Throw e →
            cache = emptyCache ∧ log = [LoggerVerbose (renderThrown e)])
    ∧ (∀ p, lastReadPost data = Some p →
            lastReadPost (mergeCache cache data) = Some p)
    ∧ (∀ p, lastDismissedPost data = Some p →
            lastDismissedPost (mergeCache cache data) = Some p)
    ∧ (lastReadPost data = None →
       lastReadPost (mergeCache cache data) = lastReadPost cache)
    ∧ (lastDismissedPost data = None →
       lastDismissedPost (mergeCache cache data) = lastDismissedPost cache).
Proof.
  rewrite onSetWhatsNewCache_run.
  destruct (cacheGet host WHATS_NEW_CACHE) as [cached|e] eqn:Hget.
  - exists (default emptyCache cached), [].
    split; [reflexivity|]. split; [by intros ? [= <-]|]. split; [by intros ? [=]|].
    apply mergeCache_data.
  - exists emptyCache, [LoggerVerbose (renderThrown e)].
    split; [reflexivity|]. split; [by intros ? [=]|]. split; [by intros ? [= <-]|].
    apply mergeCache_data.
Qed.

Lemma onSetWhatsNewCache_stores_witness :
  cacheGet (offlineHost ∅) WHATS_NEW_CACHE = JS.Ok None
  ∧ ∃ cache log,
      run (onSetWhatsNewCache (offlineHost ∅)
             {| lastDismissedPost := None; lastReadPost := Some (url latestPost) |})
      = (JS.Ok tt,
         log ++ [CacheSet WHATS_NEW_CACHE
                   (mergeCache cache
                      {| lastDismissedPost := None;
                         lastReadPost := Some (url latestPost) |})])
      ∧ cache = emptyCache ∧ log = [].
Proof.
  split; [reflexivity|].
  destruct (onSetWhatsNewCache_stores (offlineHost ∅)
              {| lastDismissedPost := None; lastReadPost := Some (url latestPost) |})
    as (cache & log & Hrun & Hget & _).
  exists cache, log. split; [exact Hrun|]. exact (Hget None eq_refl).
Defined.

(** X20.  Marking a post as read or dismissed silences it: when the cache
    that a [SET_WHATS_NEW_CACHE] event stored is what a later
    [REQUEST_WHATS_NEW_DATA] reads, a post whose url was sent as
    [lastReadPost] is reported with [postIsRead] true and
    [showNotification] false, and one sent as [lastDismissedPost] with
    [showNotification] false. *)
Theorem stored_post_is_not_notified host1 data outcome trace stored
    host2 options post disableWhatsNewNotifications :
  run (onSetWhatsNewCache host1 data) = (outcome, trace) →
  CacheSet WHATS_NEW_CACHE stored ∈ trace →
  WhatsNewSteps host2 options post disableWhatsNewNotifications stored →
  (lastReadPost data = Some (url post) →
   run (onRequestWhatsNewData host2 options)
   = (JS.Ok tt, [EmitResultWhatsNewData
                   (WhatsNewSuccess post true false disableWhatsNewNotifications)]))
  ∧ (lastDismissedPost data = Some (url post) →
     ∃ postIsRead,
       run (onRequestWhatsNewData host2 options)
       = (JS.Ok tt, [EmitResultWhatsNewData
                       (WhatsNewSuccess post postIsRead false
                                        disableWhatsNewNotifications)])).
Proof.
  intros Hset Hstored Hsteps.
  assert (∃ cache, stored = mergeCache cache data) as [cache ->].
  { rewrite onSetWhatsNewCache_run in Hset.
    destruct (cacheGet host1 WHATS_NEW_CACHE) as [cached|e];
      injection Hset as _ <-.
    - apply list_elem_of_singleton in Hstored as [= ->]. by eexists.
    - apply elem_of_cons in Hstored as [[=]|Hstored].
      apply list_elem_of_singleton in Hstored as [= ->]. by eexists. }
  destruct (mergeCache_data cache data) as (Hread & Hdismissed & _).
  rewrite (onRequestWhatsNewData_success host2 options _ _ _ Hsteps). split.
  - intros Hdata. rewrite (Hread _ Hdata).
    rewrite bool_decide_eq_true_2 by done.
    rewrite (bool_decide_eq_false_2 (Some (url post) ≠ Some (url post)))
      by (intros Hne; by apply Hne).
    by rewrite andb_false_r.
  - intros Hdata. rewrite (Hdismissed _ Hdata). eexists.
    rewrite (bool_decide_eq_false_2 (Some (url post) ≠ Some (url post)))
      by (intros Hne; by apply Hne).
    reflexivity.
Qed.

Lemma stored_post_is_not_notified_witness :
  (run (onSetWhatsNewCache (offlineHost ∅)
          {| lastDismissedPost := None; lastReadPost := Some (url latestPost) |})
   = (JS.Ok tt,
      [CacheSet WHATS_NEW_CACHE
         {| lastDismissedPost := None; lastReadPost := Some (url latestPost) |}])
   ∧ WhatsNewSteps (onlineHost ∅) someOptions latestPost (JS.VBool false)
       {| lastDismissedPost := None; lastReadPost := Some (url latestPost) |})
  ∧ run (onRequestWhatsNewData (onlineHost ∅) someOptions)
    = (JS.Ok tt, [EmitResultWhatsNewData
                    (WhatsNewSuccess latestPost true false (JS.VBool false))]).
Proof.
  assert (run (onSetWhatsNewCache (offlineHost ∅)
                 {| lastDismissedPost := None; lastReadPost := Some (url latestPost) |})
          = (JS.Ok tt,
             [CacheSet WHATS_NEW_CACHE
                {| lastDismissedPost := None;
                   lastReadPost := Some (url latestPost) |}])) as Hset
    by reflexivity.
  assert (WhatsNewSteps (onlineHost ∅) someOptions latestPost (JS.VBool false)
            {| lastDismissedPost := None; lastReadPost := Some (url latestPost) |})
    as Hsteps.
  { split; [by eexists|].
    exists false, (Some {| lastDismissedPost := None;
                           lastReadPost := Some (url latestPost) |}).
    split; [|done]. by exists ".storybook/main.ts". }
  split; [by split|].
  refine (proj1 (stored_post_is_not_notified _ _ _ _ _ _ _ _ _ Hset _ Hsteps) eq_refl).
  by left.
Defined.

(** The handler, outcome by outcome of the calls it makes. *)
Lemma onToggleWhatsNewNotifications_run host options coreOptions disable :
  run (onToggleWhatsNewNotifications host options coreOptions disable)
  = match findConfigFile host "main" (configDir options) with
    | Some (String c path') =>
        let path := String c path' in
        match readConfig host path with
        | JS.Throw e => toggleCatch host coreOptions e []
        | JS.Ok main =>
            match setFieldValue host main ["core"; "disableWhatsNewNotifications"]
                                disable with
            | JS.Throw e => toggleCatch host coreOptions e []
            | JS.Ok main' =>
                match printConfigCode host main' with
                | JS.Throw e => toggleCatch host coreOptions e []
                | JS.Ok code =>
                    match writeFile host path code with
                    | JS.Throw e =>
                        toggleCatch host coreOptions e [FsWriteFile path code]
                    | JS.Ok _ =>
                        if isTelemetryEnabled coreOptions then
                          match telemetry host "core-config" disable with
                          | JS.Throw e =>
                              toggleCatch host coreOptions e
                                [FsWriteFile path code; Telemetry "core-config" disable]
                          | JS.Ok _ =>
                              (JS.Ok tt,
                               [FsWriteFile path code; Telemetry "core-config" disable])
                          end
                        else (JS.Ok tt, [FsWriteFile path code])
                    end
                end
            end
        end
    | _ =>
        toggleCatch host coreOptions
          (JS.ErrorObject ("Invariant failed: unable to find storybook main file in "
                           +:+ configDir options)) []
    end.
Proof.
  unfold onToggleWhatsNewNotifications, toggleCatch. unfold_eff.
  destruct (findConfigFile host "main" (configDir options)) as [[|c path']|]; simpl;
    [by destruct (isTelemetryEnabled coreOptions)| |
     by destruct (isTelemetryEnabled coreOptions)].
  destruct (readConfig host (String c path')) as [main|e]; simpl;
    [|by destruct e, (isTelemetryEnabled coreOptions)].
  destruct (setFieldValue host main _ disable) as [main'|e]; simpl;
    [|by destruct e, (isTelemetryEnabled coreOptions)].
  destruct (printConfigCode host main') as [code|e]; simpl;
    [|by destruct e, (isTelemetryEnabled coreOptions)].
  destruct (writeFile host (String c path') code) as [[]|e]; simpl;
    [|by destruct e, (isTelemetryEnabled coreOptions)].
  destruct (isTelemetryEnabled coreOptions) eqn:Henabled; simpl; [|done].
  destruct (telemetry host "core-config" disable) as [[]|e]; simpl; [done|].
  destruct e; simpl; by rewrite ?Henabled.
Qed.

Lemma toggleCatch_trace host coreOptions error trace :
  (toggleCatch host coreOptions error trace).2 = trace
  ∨ (toggleCatch host coreOptions error trace).2
    = trace ++ [SendTelemetryError error "core-config"].
Proof.
  unfold toggleCatch.
  destruct (instanceofError error), (isTelemetryEnabled coreOptions); auto.
Qed.

(** X21.  The [TOGGLE_WHATS_NEW_NOTIFICATIONS] handler reports to telemetry
    only what it has done: a [telemetry] call is always the ['core-config']
    event with the value sent, it comes right after the main config was
    written, and that write succeeded.  When no main config file is found
    nothing is written. *)
Theorem toggle_reports_after_write host options coreOptions disableWhatsNewNotifications :
  (∀ eventType payload,
     Telemetry eventType payload
     ∈ (run (onToggleWhatsNewNotifications host options coreOptions
               disableWhatsNewNotifications)).2 →
     ∃ path code rest,
       (run (onToggleWhatsNewNotifications host options coreOptions
               disableWhatsNewNotifications)).2
       = FsWriteFile path code
         :: Telemetry "core-config" disableWhatsNewNotifications :: rest
       ∧ eventType = "core-config"
       ∧ payload = disableWhatsNewNotifications
       ∧ findConfigFile host "main" (configDir options) = Some path
       ∧ writeFile host path code = JS.Ok tt
       ∧ isTelemetryEnabled coreOptions = true)
  ∧ (truthyString (findConfigFile host "main" (configDir options)) = false →
     ∀ path code,
       FsWriteFile path code
       ∉ (run (onToggleWhatsNewNotifications host options coreOptions
                 disableWhatsNewNotifications)).2).
Proof.
  rewrite onToggleWhatsNewNotifications_run.
  assert (∀ error trace ev,
            ev ∈ (toggleCatch host coreOptions error trace).2 →
            ev ∈ trace ∨ ev = SendTelemetryError error "core-config") as Hcatch.
  { intros error trace ev.
    destruct (toggleCatch_trace host coreOptions error trace) as [-> | ->];
      [by left|].
    intros [?|?%list_elem_of_singleton]%elem_of_app; auto. }
  split.
  - intros eventType payload.
    destruct (findConfigFile host "main" (configDir options)) as [[|c path']|];
      cbv zeta;
      try (by intros [?%not_elem_of_nil|[=]]%Hcatch).
    destruct (readConfig host (String c path')) as [main|e];
      [|by intros [?%not_elem_of_nil|[=]]%Hcatch].
    destruct (setFieldValue host main _ _) as [main'|e];
      [|by intros [?%not_elem_of_nil|[=]]%Hcatch].
    destruct (printConfigCode host main') as [code|e];
      [|by intros [?%not_elem_of_nil|[=]]%Hcatch].
    destruct (writeFile host (String c path') code) as [[]|e] eqn:Hwrite.
    + destruct (isTelemetryEnabled coreOptions) eqn:Henabled.
      * destruct (telemetry host "core-config" disableWhatsNewNotifications)
          as [[]|e].
        -- simpl. intros [[=]|[[= -> ->]|?%not_elem_of_nil]%elem_of_cons]%elem_of_cons;
             [|done].
           by eexists _, _, [].
        -- intros Hin.
           assert (eventType = "core-config"
                   ∧ payload = disableWhatsNewNotifications) as [-> ->].
           { apply Hcatch in Hin as [Hin|[=]].
             apply elem_of_cons in Hin as [[=]|Hin].
             apply list_elem_of_singleton in Hin as [= -> ->]. done. }
           destruct (toggleCatch_trace host coreOptions e
                       [FsWriteFile (String c path') code;
                        Telemetry "core-config" disableWhatsNewNotifications])
             as [Htrace|Htrace]; rewrite Htrace; by eexists _, _, _.
      * simpl. by intros [[=]|?%not_elem_of_nil]%elem_of_cons.
    + by intros [[[=]|?%not_elem_of_nil]%elem_of_cons|[=]]%Hcatch.
  - intros Hmissing path code.
    destruct (findConfigFile host "main" (configDir options)) as [[|c path']|];
      [| done |]; by intros [?%not_elem_of_nil|[=]]%Hcatch.
Qed.

Lemma toggle_reports_after_write_witness :
  Telemetry "core-config" true
  ∈ (run (onToggleWhatsNewNotifications (onlineHost ∅) someOptions ∅ true)).2
  ∧ ∃ path code rest,
      (run (onToggleWhatsNewNotifications (onlineHost ∅) someOptions ∅ true)).2
      = FsWriteFile path code :: Telemetry "core-config" true :: rest
      ∧ writeFile (onlineHost ∅) path code = JS.Ok tt.
Proof.
  assert (Telemetry "core-config" true
          ∈ (run (onToggleWhatsNewNotifications (onlineHost ∅) someOptions ∅ true)).2)
    as Hin by (right; left).
  split; [exact Hin|].
  destruct (proj1 (toggle_reports_after_write (onlineHost ∅) someOptions ∅ true)
                  _ _ Hin) as (path & code & rest & Htrace & _ & _ & _ & Hwrite & _).
  by exists path, code, rest.
Defined.

(** X22.  An error leaves the [TOGGLE_WHATS_NEW_NOTIFICATIONS] handler only
    through its [catch] block: either the value caught was not an [Error],
    and then the handler fails with [Invariant failed] after no call to
    [sendTelemetryError], or telemetry is enabled and the call to
    [sendTelemetryError], the last one made, failed itself.  With
    telemetry disabled every caught [Error] is dropped without a trace. *)
Theorem toggle_escapes_from_catch host options coreOptions disableWhatsNewNotifications e :
  (run (onToggleWhatsNewNotifications host options coreOptions
          disableWhatsNewNotifications)).1 = JS.Throw e →
  (e = JS.ErrorObject "Invariant failed"
   ∧ ∀ error eventType,
       SendTelemetryError error eventType
       ∉ (run (onToggleWhatsNewNotifications host options coreOptions
                 disableWhatsNewNotifications)).2)
  ∨ (isTelemetryEnabled coreOptions = true
     ∧ ∃ error,
         sendTelemetryError host error "core-config" = JS.Throw e
         ∧ last (run (onToggleWhatsNewNotifications host options coreOptions
                        disableWhatsNewNotifications)).2
           = Some (SendTelemetryError error "core-config")).
Proof.
  rewrite onToggleWhatsNewNotifications_run.
  assert (∀ error trace,
            (∀ err eventType, SendTelemetryError err eventType ∉ trace) →
            (toggleCatch host coreOptions error trace).1 = JS.Throw e →
            (e = JS.ErrorObject "Invariant failed"
             ∧ ∀ err eventType,
                 SendTelemetryError err eventType
                 ∉ (toggleCatch host coreOptions error trace).2)
            ∨ (isTelemetryEnabled coreOptions = true
               ∧ ∃ err,
                   sendTelemetryError host err "core-config" = JS.Throw e
                   ∧ last (toggleCatch host coreOptions error trace).2
                     = Some (SendTelemetryError err "core-config"))) as Hcatch.
  { intros error trace Htrace. unfold toggleCatch.
    destruct (instanceofError error); [|intros [= <-]; by left].
    destruct (isTelemetryEnabled coreOptions); [|done].
    simpl. intros Hsend. right. split; [done|]. exists error.
    split; [done|]. by rewrite last_snoc. }
  assert (∀ err eventType, SendTelemetryError err eventType ∉ @nil Event) as Hnil
    by (intros ? ?; apply not_elem_of_nil).
  destruct (findConfigFile host "main" (configDir options)) as [[|c path']|];
    cbv zeta; try (by apply Hcatch).
  destruct (readConfig host (String c path')) as [main|e']; [|by apply Hcatch].
  destruct (setFieldValue host main _ _) as [main'|e']; [|by apply Hcatch].
  destruct (printConfigCode host main') as [code|e']; [|by apply Hcatch].
  destruct (writeFile host (String c path') code) as [[]|e'].
  - destruct (isTelemetryEnabled coreOptions) eqn:Henabled; [|done].
    destruct (telemetry host "core-config" disableWhatsNewNotifications)
      as [[]|e']; [done|].
    apply Hcatch.
    by intros err eventType [[=]|[[=]|?%not_elem_of_nil]%elem_of_cons]%elem_of_cons.
  - apply Hcatch. by intros err eventType [[=]|?%not_elem_of_nil]%elem_of_cons.
Qed.

Lemma toggle_escapes_from_catch_witness :
  (run (onToggleWhatsNewNotifications (unparsableConfigHost ∅) someOptions ∅ true)).1
  = JS.Throw (JS.ErrorObject "Invariant failed")
  ∧ (run (onToggleWhatsNewNotifications (unparsableConfigHost ∅) someOptions ∅ true)).2
    = [].
Proof.
  assert ((run (onToggleWhatsNewNotifications (unparsableConfigHost ∅) someOptions
                  ∅ true)).1
          = JS.Throw (JS.ErrorObject "Invariant failed")) as Hthrow by reflexivity.
  split; [exact Hthrow|].
  destruct (toggle_escapes_from_catch _ _ _ _ _ Hthrow) as [[_ Hnone]|[_ _]];
    reflexivity.
Defined.

Section PromiseMore.

Context {A : Type}.
Variable settled : nat → nat.

(** The promises behind [n] others settle when they did. *)
Lemma firstRejection_shift n i (outcomes : list (JS.Result A)) :
  firstRejection (λ j, settled (n + j)) i outcomes
  = firstRejection settled (n + i) outcomes.
Proof.
  revert i. induction outcomes as [|[a|e] rest IH]; intros i; simpl; [done| |].
  - by rewrite IH, Nat.add_succ_r.
  - by rewrite IH, Nat.add_succ_r.
Qed.

(** Promises that fulfil are passed over. *)
Lemma firstRejection_fulfilled_prefix i (values : list A) outcomes :
  firstRejection settled i ((JS.Ok <$> values) ++ outcomes)
  = firstRejection settled (length values + i) outcomes.
Proof.
  revert i. induction values as [|a rest IH]; intros i; [done|].
  simpl. by rewrite IH, Nat.add_succ_r.
Qed.

Lemma fulfilled_app (outcomes1 outcomes2 : list (JS.Result A)) :
  fulfilled (outcomes1 ++ outcomes2) = fulfilled outcomes1 ++ fulfilled outcomes2.
Proof.
  induction outcomes1 as [|[a|e] rest IH]; simpl; [done| |done].
  by rewrite IH.
Qed.

Lemma fulfilled_fmap (values : list A) : fulfilled (JS.Ok <$> values) = values.
Proof. induction values as [|a rest IH]; [done|]. simpl. f_equal. exact IH. Qed.

(** [Promise.all] with fulfilled promises in front: the same rejection,
    or the values behind those of the promises in front. *)
Lemma promiseAll_fulfilled_prefix (values : list A) outcomes :
  promiseAll settled ((JS.Ok <$> values) ++ outcomes)
  = match promiseAll (λ j, settled (length values + j)) outcomes with
    | JS.Ok rest => JS.Ok (values ++ rest)
    | JS.Throw e => JS.Throw e
    end.
Proof.
  unfold promiseAll.
  rewrite firstRejection_fulfilled_prefix, firstRejection_shift.
  destruct (firstRejection settled (length values + 0) outcomes) as [[time e]|];
    [done|].
  by rewrite fulfilled_app, fulfilled_fmap.
Qed.

End PromiseMore.

(** X23.  When the static dirs that [favicon] is handed are what
    [staticDirs] returns, default directories that are parsed and are not
    served at ['/'] have no part in it: [favicon] does what it does when
    it is handed the user's directories alone, result, rejection and
    warning alike, although the defaults come first in the list. *)
Theorem favicon_skips_default_static_dirs defaultFavicon defaultStaticDirs host value
    options values :
  appliedStaticDirs host
  = JS.Ok (Some (staticDirs defaultStaticDirs (Some values))) →
  (∀ entry, entry ∈ defaultStaticDirs →
     ∃ parsed,
       parseStaticDir host (normalizedDirOf host options (staticDirName entry))
       = JS.Ok parsed
       ∧ targetEndpoint parsed ≠ "/") →
  appliedStaticDirs (withoutFirstStaticDirs (length defaultStaticDirs) host)
  = JS.Ok (Some values)
  ∧ run (favicon defaultFavicon host value options)
    = run (favicon defaultFavicon
             (withoutFirstStaticDirs (length defaultStaticDirs) host) value options)
  ∧ collectedFavicons host options
    = collectedFavicons (withoutFirstStaticDirs (length defaultStaticDirs) host)
        options.
Proof.
  intros Happlied Hdefaults.
  set (host' := withoutFirstStaticDirs (length defaultStaticDirs) host).
  assert (appliedStaticDirs host' = JS.Ok (Some values)) as Happlied'.
  { unfold host', withoutFirstStaticDirs. simpl. rewrite Happlied.
    unfold staticDirs. by rewrite drop_app_length. }
  assert (map (λ entry, dirOutcome host options (staticDirName entry))
              defaultStaticDirs
          = JS.Ok <$> replicate (length defaultStaticDirs) []) as Hfront.
  { clear Happlied Happlied' host'.
    induction defaultStaticDirs as [|entry defaults IH]; [done|].
    simpl. f_equal; [|apply IH; intros entry' Hin; apply Hdefaults; by right].
    destruct (Hdefaults entry) as (parsed & Hparsed & Hendpoint); [left|].
    unfold dirOutcome, dirRejection, faviconCandidates. rewrite Hparsed.
    apply String.eqb_neq in Hendpoint. by rewrite Hendpoint. }
  assert (∀ n, concat (replicate n ([] : list string)) = []) as Hempty
    by (intros n; induction n as [|n IH]; [done|exact IH]).
  split; [exact Happlied'|]. split.
  - unfold favicon.
    assert (run (faviconFromStaticDirs defaultFavicon host options)
            = run (faviconFromStaticDirs defaultFavicon host' options)) as Hpast.
    { rewrite !faviconFromStaticDirs_run, Happlied, Happlied'.
      unfold staticDirsOf. rewrite Happlied, Happlied'.
      unfold staticDirs. rewrite map_app, Hfront.
      rewrite promiseAll_fulfilled_prefix, length_replicate.
      change (promiseAll (settledAt host')
                (map (λ entry, dirOutcome host' options (staticDirName entry)) values))
        with (promiseAll (λ j, settledAt host (length defaultStaticDirs + j))
                (map (λ entry, dirOutcome host options (staticDirName entry)) values)).
      destruct (promiseAll _ _) as [lists|e]; [|done].
      by rewrite concat_app, Hempty. }
    destruct value as [v|]; [destruct (JS.truthy v)|]; done.
  - unfold collectedFavicons, staticDirsOf. rewrite Happlied, Happlied'.
    unfold staticDirs. rewrite flat_map_app.
    assert (flat_map (λ entry,
                        filter (λ path, found host path = true)
                               (faviconCandidates host options (staticDirName entry)))
                     defaultStaticDirs = []) as ->; [|done].
    clear Happlied Happlied' host' Hfront.
    induction defaultStaticDirs as [|entry defaults IH]; [done|].
    simpl. rewrite IH by (intros entry' Hin; apply Hdefaults; by right).
    destruct (Hdefaults entry) as (parsed & Hparsed & Hendpoint); [left|].
    unfold faviconCandidates. rewrite Hparsed.
    apply String.eqb_neq in Hendpoint. by rewrite Hendpoint.
Qed.

Lemma favicon_skips_default_static_dirs_witness :
  (appliedStaticDirs
     (hostWithEndpoints
        (staticDirs [DirObject "/core/public" "/sb-common-assets"]
                    (Some [DirPath "/app/public"])))
   = JS.Ok (Some (staticDirs [DirObject "/core/public" "/sb-common-assets"]
                             (Some [DirPath "/app/public"])))
   ∧ ∀ entry,
       entry ∈ [DirObject "/core/public" "/sb-common-assets"] →
       ∃ parsed,
         parseStaticDir
           (hostWithEndpoints
              (staticDirs [DirObject "/core/public" "/sb-common-assets"]
                          (Some [DirPath "/app/public"])))
           (normalizedDirOf
              (hostWithEndpoints
                 (staticDirs [DirObject "/core/public" "/sb-common-assets"]
                             (Some [DirPath "/app/public"])))
              someOptions (staticDirName entry))
         = JS.Ok parsed
         ∧ targetEndpoint parsed ≠ "/")
  ∧ run (favicon "/default/favicon.svg"
           (hostWithEndpoints
              (staticDirs [DirObject "/core/public" "/sb-common-assets"]
                          (Some [DirPath "/app/public"])))
           None someOptions)
    = run (favicon "/default/favicon.svg"
             (withoutFirstStaticDirs 1
                (hostWithEndpoints
                   (staticDirs [DirObject "/core/public" "/sb-common-assets"]
                               (Some [DirPath "/app/public"]))))
             None someOptions).
Proof.
  assert (∀ entry,
            entry ∈ [DirObject "/core/public" "/sb-common-assets"] →
            ∃ parsed,
              parseStaticDir
                (hostWithEndpoints
                   (staticDirs [DirObject "/core/public" "/sb-common-assets"]
                               (Some [DirPath "/app/public"])))
                (normalizedDirOf
                   (hostWithEndpoints
                      (staticDirs [DirObject "/core/public" "/sb-common-assets"]
                                  (Some [DirPath "/app/public"])))
                   someOptions (staticDirName entry))
              = JS.Ok parsed
              ∧ targetEndpoint parsed ≠ "/") as Hdefaults.
  { intros entry ->%list_elem_of_singleton. eexists. split; [reflexivity|].
    discriminate. }
  split; [by split|].
  exact (proj1 (proj2 (favicon_skips_default_static_dirs "/default/favicon.svg"
                         [DirObject "/core/public" "/sb-common-assets"]
                         (hostWithEndpoints
                            (staticDirs [DirObject "/core/public" "/sb-common-assets"]
                                        (Some [DirPath "/app/public"])))
                         None someOptions [DirPath "/app/public"] eq_refl Hdefaults))).
Defined.
